(** * QuMail: key pool, one-time pad and message-level encryption

  A shallow embedding of the parts of the QuMail sources that the
  specification speaks about:

  - the mock key-manager server (the [enc_keys] and [otp_keys] handlers
    over the in-memory [keyDatabase]);
  - [SecurityService]: the one-time pad, and the decryption of the
    quantum-aided AES level over the primitives of CryptoJS;
  - [EncryptionEngine]: subject, body and attachment handling.

  JavaScript values are modelled as follows.  A string is the list of its
  UTF-16 code units, a [Uint8Array] or [ArrayBuffer] is the list of its
  bytes, both as [Z].  A function that can throw returns a [result].  Code
  that talks to the key manager, the clock or a random source threads an
  explicit world through the monad [M]. *)

From Stdlib Require Import ZArith Lia Bool String Ascii NArith List.
Import ListNotations.
Open Scope Z_scope.

(** ** Platform layer *)

Module JS.

(** A JavaScript string: its UTF-16 code units. *)
Definition jsstring := list Z.

(** An ASCII literal of the source. *)
Definition lit (s : string) : jsstring :=
  map (fun c => Z.of_N (N_of_ascii c)) (list_ascii_of_string s).

Definition is_byte (b : Z) : Prop := 0 <= b < 256.

(** Code-unit-wise string equality ([===] on strings). *)
Fixpoint str_eqb (s t : jsstring) : bool :=
  match s, t with
  | [], [] => true
  | c :: s', d :: t' => (c =? d) && str_eqb s' t'
  | _, _ => false
  end.

(** Outcome of a call that may throw; the payload of [Throw] is the
    [message] of the error. *)
Inductive result (A : Type) : Type :=
| Ok (a : A)
| Throw (message : jsstring).
Arguments Ok {A} a.
Arguments Throw {A} message.

Definition rbind {A B} (r : result A) (k : A -> result B) : result B :=
  match r with
  | Ok a => k a
  | Throw m => Throw m
  end.

(** [ToInt32], applied by the bitwise operators to their operands. *)
Definition ToInt32 (x : Z) : Z :=
  let m := x mod 2 ^ 32 in
  if 2 ^ 31 <=? m then m - 2 ^ 32 else m.

(** An operand read from an array: [None] is [undefined], which the
    bitwise operators convert to 0. *)
Definition ToInt32_opt (v : option Z) : Z :=
  match v with
  | Some x => ToInt32 x
  | None => 0
  end.

(** [x ^ y]. *)
Definition bitxor (x y : option Z) : Z :=
  Z.lxor (ToInt32_opt x) (ToInt32_opt y).

(** A store into a [Uint8Array] keeps the low eight bits. *)
Definition ToUint8 (x : Z) : Z := x mod 256.

(** [String.fromCharCode] keeps the low sixteen bits. *)
Definition fromCharCode (x : Z) : Z := x mod 65536.

(** *** [btoa] and [atob] (HTML standard, forgiving-base64) *)

(** The message of the [InvalidCharacterError] that [btoa] and [atob]
    throw; its wording differs between engines. *)
Definition InvalidCharacterError : jsstring :=
  lit "The string contains invalid characters.".

(** The character of a six-bit value in the base64 alphabet. *)
Definition b64_char (n : Z) : Z :=
  if n <? 26 then 65 + n
  else if n <? 52 then 97 + (n - 26)
  else if n <? 62 then 48 + (n - 52)
  else if n =? 62 then 43
  else 47.

(** The six-bit value of a character, [None] outside the alphabet. *)
Definition b64_value (c : Z) : option Z :=
  if (65 <=? c) && (c <=? 90) then Some (c - 65)
  else if (97 <=? c) && (c <=? 122) then Some (c - 97 + 26)
  else if (48 <=? c) && (c <=? 57) then Some (c - 48 + 52)
  else if c =? 43 then Some 62
  else if c =? 47 then Some 63
  else None.

Definition pad_char : Z := 61.

Fixpoint b64_encode (bs : list Z) : jsstring :=
  match bs with
  | [] => []
  | [a] =>
      [b64_char (Z.shiftr a 2);
       b64_char (Z.shiftl (Z.land a 3) 4);
       pad_char; pad_char]
  | [a; b] =>
      [b64_char (Z.shiftr a 2);
       b64_char (Z.lor (Z.shiftl (Z.land a 3) 4) (Z.shiftr b 4));
       b64_char (Z.shiftl (Z.land b 15) 2);
       pad_char]
  | a :: b :: c :: rest =>
      b64_char (Z.shiftr a 2)
      :: b64_char (Z.lor (Z.shiftl (Z.land a 3) 4) (Z.shiftr b 4))
      :: b64_char (Z.lor (Z.shiftl (Z.land b 15) 2) (Z.shiftr c 6))
      :: b64_char (Z.land c 63)
      :: b64_encode rest
  end.

(** [btoa]: throws when a code unit exceeds 0xFF. *)
Definition btoa (s : jsstring) : result jsstring :=
  if forallb (fun c => (0 <=? c) && (c <=? 255)) s
  then Ok (b64_encode s)
  else Throw InvalidCharacterError.

Definition is_ascii_whitespace (c : Z) : bool :=
  (c =? 9) || (c =? 10) || (c =? 12) || (c =? 13) || (c =? 32).

(** If the length is a multiple of four, one or two trailing [=] are
    removed. *)
Definition strip_padding (d : jsstring) : jsstring :=
  if Z.of_nat (length d) mod 4 =? 0 then
    match rev d with
    | c1 :: r1 =>
        if c1 =? pad_char then
          match r1 with
          | c2 :: r2 => if c2 =? pad_char then rev r2 else rev r1
          | [] => rev r1
          end
        else d
    | [] => d
    end
  else d.

Fixpoint b64_values (d : jsstring) : option (list Z) :=
  match d with
  | [] => Some []
  | c :: d' =>
      match b64_value c, b64_values d' with
      | Some v, Some vs => Some (v :: vs)
      | _, _ => None
      end
  end.

(** Four six-bit values give three bytes; a tail of three gives two
    bytes and a tail of two gives one, the spare bits being dropped. *)
Fixpoint b64_decode (vs : list Z) : list Z :=
  match vs with
  | s1 :: s2 :: s3 :: s4 :: rest =>
      Z.lor (Z.shiftl s1 2) (Z.shiftr s2 4)
      :: Z.lor (Z.shiftl (Z.land s2 15) 4) (Z.shiftr s3 2)
      :: Z.lor (Z.shiftl (Z.land s3 3) 6) s4
      :: b64_decode rest
  | [s1; s2; s3] =>
      [Z.lor (Z.shiftl s1 2) (Z.shiftr s2 4);
       Z.lor (Z.shiftl (Z.land s2 15) 4) (Z.shiftr s3 2)]
  | [s1; s2] =>
      [Z.lor (Z.shiftl s1 2) (Z.shiftr s2 4)]
  | _ => []
  end.

(** [atob]: ASCII whitespace is skipped, padding is optional, anything
    else outside the alphabet or a length of 1 modulo 4 throws. *)
Definition atob (data : jsstring) : result jsstring :=
  let d :=
    strip_padding (filter (fun c => negb (is_ascii_whitespace c)) data) in
  if Z.of_nat (length d) mod 4 =? 1 then Throw InvalidCharacterError
  else
    match b64_values d with
    | Some vs => Ok (b64_decode vs)
    | None => Throw InvalidCharacterError
    end.

(** *** [TextEncoder] and [TextDecoder] (Encoding standard, UTF-8) *)

Definition is_lead (c : Z) : bool := (0xD800 <=? c) && (c <=? 0xDBFF).
Definition is_trail (c : Z) : bool := (0xDC00 <=? c) && (c <=? 0xDFFF).

Definition REPLACEMENT : Z := 0xFFFD.
Definition BOM : Z := 0xFEFF.

(** A string as scalar values: a surrogate pair is one code point, an
    unpaired surrogate becomes U+FFFD. *)
Fixpoint to_scalars (s : jsstring) : list Z :=
  match s with
  | [] => []
  | c :: rest =>
      if is_lead c then
        match rest with
        | d :: rest' =>
            if is_trail d
            then (0x10000 + (c - 0xD800) * 0x400 + (d - 0xDC00))
                   :: to_scalars rest'
            else REPLACEMENT :: to_scalars rest
        | [] => [REPLACEMENT]
        end
      else if is_trail c then REPLACEMENT :: to_scalars rest
      else c :: to_scalars rest
  end.

Definition utf8_encode_cp (cp : Z) : list Z :=
  if cp <=? 0x7F then [cp]
  else if cp <=? 0x7FF then
    [Z.lor 0xC0 (Z.shiftr cp 6);
     Z.lor 0x80 (Z.land cp 0x3F)]
  else if cp <=? 0xFFFF then
    [Z.lor 0xE0 (Z.shiftr cp 12);
     Z.lor 0x80 (Z.land (Z.shiftr cp 6) 0x3F);
     Z.lor 0x80 (Z.land cp 0x3F)]
  else
    [Z.lor 0xF0 (Z.shiftr cp 18);
     Z.lor 0x80 (Z.land (Z.shiftr cp 12) 0x3F);
     Z.lor 0x80 (Z.land (Z.shiftr cp 6) 0x3F);
     Z.lor 0x80 (Z.land cp 0x3F)].

(** [new TextEncoder().encode(s)]. *)
Definition TextEncoder_encode (s : jsstring) : list Z :=
  flat_map utf8_encode_cp (to_scalars s).

(** The state of the UTF-8 decoder. *)
Record utf8_state : Type := {
  code_point : Z;
  bytes_seen : Z;
  bytes_needed : Z;
  lower_boundary : Z;
  upper_boundary : Z
}.

Definition utf8_init : utf8_state :=
  {| code_point := 0; bytes_seen := 0; bytes_needed := 0;
     lower_boundary := 0x80; upper_boundary := 0xBF |}.

(** A byte read while no sequence is open. *)
Definition utf8_start (b : Z) : list Z * utf8_state :=
  if (0 <=? b) && (b <=? 0x7F) then ([b], utf8_init)
  else if (0xC2 <=? b) && (b <=? 0xDF) then
    ([], {| code_point := Z.land b 0x1F; bytes_seen := 0; bytes_needed := 1;
            lower_boundary := 0x80; upper_boundary := 0xBF |})
  else if (0xE0 <=? b) && (b <=? 0xEF) then
    ([], {| code_point := Z.land b 0xF; bytes_seen := 0; bytes_needed := 2;
            lower_boundary := if b =? 0xE0 then 0xA0 else 0x80;
            upper_boundary := if b =? 0xED then 0x9F else 0xBF |})
  else if (0xF0 <=? b) && (b <=? 0xF4) then
    ([], {| code_point := Z.land b 0x7; bytes_seen := 0; bytes_needed := 3;
            lower_boundary := if b =? 0xF0 then 0x90 else 0x80;
            upper_boundary := if b =? 0xF4 then 0x8F else 0xBF |})
  else ([REPLACEMENT], utf8_init).

(** One byte: the code points emitted and the next state.  A byte that
    cannot continue the open sequence closes it with U+FFFD and is read
    again from the initial state. *)
Definition utf8_step (st : utf8_state) (b : Z) : list Z * utf8_state :=
  if bytes_needed st =? 0 then utf8_start b
  else if negb ((lower_boundary st <=? b) && (b <=? upper_boundary st)) then
    let (out, st') := utf8_start b in (REPLACEMENT :: out, st')
  else
    let cp := Z.lor (Z.shiftl (code_point st) 6) (Z.land b 0x3F) in
    if bytes_seen st + 1 =? bytes_needed st then ([cp], utf8_init)
    else ([], {| code_point := cp; bytes_seen := bytes_seen st + 1;
                 bytes_needed := bytes_needed st;
                 lower_boundary := 0x80; upper_boundary := 0xBF |}).

(** The whole input; an open sequence at the end gives U+FFFD. *)
Fixpoint utf8_run (st : utf8_state) (bs : list Z) : list Z :=
  match bs with
  | [] => if bytes_needed st =? 0 then [] else [REPLACEMENT]
  | b :: bs' =>
      let (out, st') := utf8_step st b in out ++ utf8_run st' bs'
  end.

(** A leading U+FEFF is dropped ([ignoreBOM] is false by default). *)
Definition strip_bom (cps : list Z) : list Z :=
  match cps with
  | c :: rest => if c =? BOM then rest else cps
  | [] => []
  end.

Definition utf16_units (cp : Z) : list Z :=
  if cp <=? 0xFFFF then [cp]
  else [0xD800 + Z.shiftr (cp - 0x10000) 10;
        0xDC00 + Z.land (cp - 0x10000) 0x3FF].

(** A string without unpaired surrogates. *)
Fixpoint well_formed (s : jsstring) : bool :=
  match s with
  | [] => true
  | c :: rest =>
      if is_lead c then
        match rest with
        | d :: rest' => is_trail d && well_formed rest'
        | [] => false
        end
      else
        negb (is_trail c) && (0 <=? c) && (c <=? 0xFFFF) && well_formed rest
  end.

Definition starts_with_BOM (s : jsstring) : bool :=
  match s with
  | c :: _ => c =? BOM
  | [] => false
  end.

(** [new TextDecoder().decode(bytes)]: never throws. *)
Definition TextDecoder_decode (bs : list Z) : jsstring :=
  flat_map utf16_units (strip_bom (utf8_run utf8_init bs)).

(** *** String methods used by the sources *)

(** [s.startsWith(p)]. *)
Fixpoint startsWith (s p : jsstring) : bool :=
  match p, s with
  | [], _ => true
  | c :: p', d :: s' => (c =? d) && startsWith s' p'
  | _ :: _, [] => false
  end.

(** Position-wise search for the first occurrence of [p]. *)
Fixpoint includes (s p : jsstring) : bool :=
  startsWith s p ||
  match s with
  | [] => false
  | _ :: s' => includes s' p
  end.

(** [s.replace(p, r)] with a string pattern: the first occurrence. *)
Fixpoint replace_first (s p r : jsstring) : jsstring :=
  if startsWith s p then r ++ skipn (length p) s
  else
    match s with
    | [] => []
    | c :: s' => c :: replace_first s' p r
    end.

(** [s.substring(0, n)] for [0 <= n]. *)
Definition substring0 (s : jsstring) (n : nat) : jsstring := firstn n s.

(** White space and line terminators, as matched by [\s] and removed
    by [trim]. *)
Definition is_js_space (c : Z) : bool :=
  ((9 <=? c) && (c <=? 13)) || (c =? 32) || (c =? 0xA0) || (c =? 0x1680)
  || ((0x2000 <=? c) && (c <=? 0x200A)) || (c =? 0x2028) || (c =? 0x2029)
  || (c =? 0x202F) || (c =? 0x205F) || (c =? 0x3000) || (c =? 0xFEFF).

Fixpoint trim_start (s : jsstring) : jsstring :=
  match s with
  | c :: s' => if is_js_space c then trim_start s' else s
  | [] => []
  end.

Definition trim (s : jsstring) : jsstring :=
  rev (trim_start (rev (trim_start s))).

Fixpoint take_while (f : Z -> bool) (s : jsstring) : jsstring :=
  match s with
  | c :: s' => if f c then c :: take_while f s' else []
  | [] => []
  end.

Fixpoint drop_while (f : Z -> bool) (s : jsstring) : jsstring :=
  match s with
  | c :: s' => if f c then drop_while f s' else s
  | [] => []
  end.

(** *** Effects: an explicit world *)

(** A computation that reads and updates a world [W] (key manager,
    clock, random source) and may throw. *)
Definition M (W A : Type) : Type := W -> result A * W.

Definition ret {W A} (a : A) : M W A := fun w => (Ok a, w).

Definition bind {W A B} (c : M W A) (k : A -> M W B) : M W B :=
  fun w =>
    match c w with
    | (Ok a, w') => k a w'
    | (Throw m, w') => (Throw m, w')
    end.

Definition throw {W A} (message : jsstring) : M W A :=
  fun w => (Throw message, w).

(** A pure call that may throw. *)
Definition lift {W A} (r : result A) : M W A := fun w => (r, w).

(** A reading of the clock or of the random source: it cannot throw. *)
Definition clock {W A} (f : W -> A * W) : M W A :=
  fun w => let (a, w') := f w in (Ok a, w').

(** [try { c } catch (error) { h(error.message) }]. *)
Definition try_catch {W A} (c : M W A) (h : jsstring -> M W A) : M W A :=
  fun w =>
    match c w with
    | (Ok a, w') => (Ok a, w')
    | (Throw m, w') => h m w'
    end.

End JS.

Declare Scope js_scope.
Delimit Scope js_scope with js.
Notation "x <- c ;; k" := (JS.bind c (fun x => k))
(at level 61, c at next level, right associativity) : js_scope.

Import JS.
Local Open Scope js_scope.

(** [a || b] on an optional string: [undefined] and the empty string are
  falsy. *)
Definition truthy (s : option jsstring) : bool :=
match s with
| Some (_ :: _) => true
| _ => false
end.

Definition or_else {A} (truth : A -> bool) (a : option A) (b : option A)
: option A :=
match a with
| Some x => if truth x then a else b
| None => b
end.

(** Truthiness of a number and of a string. *)
Definition truthy_num (n : Z) : bool := negb (n =? 0).
Definition truthy_str (s : jsstring) : bool :=
match s with
| [] => false
| _ :: _ => true
end.

(** ** The mock key-manager server *)

Module KeyManagerServer.

(** A record of [keyDatabase]. *)
Record KeyEntry : Type := {
  keyId : jsstring;
  key : jsstring;
  keySize : Z;
  saeId : jsstring;
  targetSaeId : jsstring;
  timestamp : jsstring;
  used : bool;
  keyType : jsstring
}.

Definition set_used (k : KeyEntry) (u : bool) : KeyEntry :=
  {| keyId := keyId k; key := key k; keySize := keySize k;
     saeId := saeId k; targetSaeId := targetSaeId k;
     timestamp := timestamp k; used := u; keyType := keyType k |}.

(** [keyDatabase], a [Map]: its entries in insertion order.  A position
    in the list stands for the reference to the record stored there. *)
Definition KeyDatabase : Type := list (jsstring * KeyEntry).

(** [Map.prototype.set]: an existing key keeps its position. *)
Fixpoint Map_set (db : KeyDatabase) (k : jsstring) (v : KeyEntry)
  : KeyDatabase :=
  match db with
  | [] => [(k, v)]
  | (k', v') :: db' =>
      if str_eqb k' k then (k, v) :: db'
      else (k', v') :: Map_set db' k v
  end.

(** What one pass through the random source and the clock delivers:
    [crypto.randomUUID()], [crypto.randomBytes(n)] and
    [new Date().toISOString()]. *)
Record Draw : Type := {
  randomUUID : jsstring;
  randomBytes : Z -> list Z;
  toISOString : jsstring
}.

Definition generateQuantumKey (d : Draw) (size : Z) : jsstring :=
  b64_encode (randomBytes d (size / 8)).

Definition generateKeyId (d : Draw) : jsstring := randomUUID d.

Definition sample_key (d : Draw) (size : Z) (type : jsstring) : KeyEntry :=
  {| keyId := generateKeyId d;
     key := generateQuantumKey d size;
     keySize := size;
     saeId := lit "demo-client-001";
     targetSaeId := lit "demo-server-001";
     timestamp := toISOString d;
     used := false;
     keyType := type |}.

(** [initializeKeys]: ten encryption keys of 256 bits, then twenty
    one-time-pad keys of 1024 bits; [draws i] serves the [i]-th key. *)
Definition initializeKeys (draws : nat -> Draw) : KeyDatabase :=
  let db :=
    fold_left
      (fun db i =>
         Map_set db (generateKeyId (draws i))
           (sample_key (draws i) 256 (lit "encryption")))
      (seq 0 10) [] in
  fold_left
    (fun db i =>
       Map_set db (generateKeyId (draws (10 + i)%nat))
         (sample_key (draws (10 + i)%nat) 1024 (lit "otp")))
    (seq 0 20) db.

(** The query of a key request.  [number] and [size] stand for the
    numeric value of the query parameter, [None] for a missing one. *)
Record KeyRequest : Type := {
  slave_sae_id : jsstring;
  number : option Z;
  size : option Z;
  key_stream_id : option jsstring
}.

Record KeyOut : Type := {
  key_ID : jsstring;
  key_material : jsstring;
  key_size : Z;
  key_timestamp : jsstring
}.

Inductive Response : Type :=
| Keys (keys : list KeyOut) (key_stream_ID : jsstring) (now : jsstring)
| InsufficientKeys (message : jsstring) (available requested : Z).

(** The filter of a handler, as references into [keyDatabase]. *)
Definition availableKeys (type : jsstring) (size : Z) (db : KeyDatabase)
  : list nat :=
  filter
    (fun ref =>
       match nth_error db ref with
       | Some (_, k) =>
           negb (used k) && str_eqb (keyType k) type && (size <=? keySize k)
       | None => false
       end)
    (seq 0 (length db)).

(** [selectedKey.used = true] through the reference [ref]. *)
Fixpoint mark_used (db : KeyDatabase) (ref : nat) : KeyDatabase :=
  match db, ref with
  | [], _ => []
  | (k, e) :: db', O => (k, set_used e true) :: db'
  | entry :: db', S ref' => entry :: mark_used db' ref'
  end.

Definition key_out (e : KeyEntry) : KeyOut :=
  {| key_ID := keyId e; key_material := key e; key_size := keySize e;
     key_timestamp := timestamp e |}.

(** One turn of the selection loop. *)
Definition select_key (available : list nat)
    (st : KeyDatabase * list KeyOut) (i : nat)
  : KeyDatabase * list KeyOut :=
  match nth_error available i with
  | Some ref =>
      match nth_error (fst st) ref with
      | Some (_, e) => (mark_used (fst st) ref, snd st ++ [key_out e])
      | None => st
      end
  | None => st
  end.

(** The body shared by the two handlers, which differ in the key type,
    the default size and the message. *)
Definition key_request (type : jsstring) (default_size : Z)
    (message : jsstring) (req : KeyRequest) (d : Draw) (db : KeyDatabase)
  : Response * KeyDatabase :=
  let number := match number req with Some n => n | None => 1 end in
  let size := match size req with Some s => s | None => default_size end in
  let available := availableKeys type size db in
  if Z.of_nat (length available) <? number then
    (InsufficientKeys message (Z.of_nat (length available)) number, db)
  else
    let '(db', keys) :=
      fold_left (select_key available) (seq 0 (Z.to_nat number)) (db, []) in
    (Keys keys
       (if truthy (key_stream_id req)
        then match key_stream_id req with Some s => s | None => [] end
        else generateKeyId d)
       (toISOString d),
     db').

(** [GET /api/v1/keys/:slave_sae_id/enc_keys]. *)
Definition enc_keys
  : KeyRequest -> Draw -> KeyDatabase -> Response * KeyDatabase :=
  key_request (lit "encryption") 256 (lit "Not enough keys available").

(** [GET /api/v1/keys/:slave_sae_id/otp_keys]. *)
Definition otp_keys
  : KeyRequest -> Draw -> KeyDatabase -> Response * KeyDatabase :=
  key_request (lit "otp") 1024 (lit "Not enough OTP keys available").

Inductive Endpoint : Type := EncKeys | OtpKeys.

Definition endpoint_type (e : Endpoint) : jsstring :=
  match e with
  | EncKeys => lit "encryption"
  | OtpKeys => lit "otp"
  end.

Definition endpoint_message (e : Endpoint) : jsstring :=
  match e with
  | EncKeys => lit "Not enough keys available"
  | OtpKeys => lit "Not enough OTP keys available"
  end.

(** The number of keys a request asks for, and the size it asks for at
    an endpoint. *)
Definition requested (req : KeyRequest) : Z :=
  match number req with
  | Some n => n
  | None => 1
  end.

Definition requested_size (e : Endpoint) (req : KeyRequest) : Z :=
  match size req, e with
  | Some s, _ => s
  | None, EncKeys => 256
  | None, OtpKeys => 1024
  end.

Definition handle (e : Endpoint)
  : KeyRequest -> Draw -> KeyDatabase -> Response * KeyDatabase :=
  match e with
  | EncKeys => enc_keys
  | OtpKeys => otp_keys
  end.

(** The server handles one request after the other. *)
Fixpoint serve (reqs : list (Endpoint * KeyRequest * Draw)) (db : KeyDatabase)
  : list Response * KeyDatabase :=
  match reqs with
  | [] => ([], db)
  | (e, req, d) :: reqs' =>
      let (r, db') := handle e req d db in
      let (rs, db'') := serve reqs' db' in
      (r :: rs, db'')
  end.

(** The [key_ID]s a response hands out. *)
Definition issued (r : Response) : list jsstring :=
  match r with
  | Keys keys _ _ => map key_ID keys
  | InsufficientKeys _ _ _ => []
  end.

(** What the [Map] guarantees: one entry per key, and every record
    stored under its own [keyId]. *)
Definition wf_db (db : KeyDatabase) : Prop :=
  NoDup (map fst db) /\ Forall (fun kv => keyId (snd kv) = fst kv) db.

(** The body of [GET /api/v1/status]. *)
Record Status : Type := {
  status_text : jsstring;
  status_timestamp : jsstring;
  status_availableKeys : Z;
  qkdRate : jsstring;
  errorRate : jsstring;
  version : jsstring
}.

Definition get_status (d : Draw) (db : KeyDatabase) : Status :=
  let availableKeys :=
    Z.of_nat (length (filter (fun kv => negb (used (snd kv))) db)) in
  {| status_text := lit "active";
     status_timestamp := toISOString d;
     status_availableKeys := availableKeys;
     qkdRate := lit "1000 keys/minute";
     errorRate := lit "0.001%";
     version := lit "1.0.0" |}.

(** The body of [GET /api/v1/keys/:slave_sae_id/status]. *)
Record KeyStatus : Type := {
  source_KME_ID : jsstring;
  target_KME_ID : jsstring;
  master_SAE_ID : jsstring;
  slave_SAE_ID : jsstring;
  status_key_size : Z;
  stored_key_count : Z;
  max_key_count : Z;
  max_key_per_request : Z;
  max_key_size : Z;
  min_key_size : Z;
  max_SAE_ID_count : Z;
  quantum_safe : bool;
  qkd_rate : jsstring;
  last_key_generation : jsstring
}.

Definition get_key_status (slave_sae_id : jsstring) (d : Draw)
    (db : KeyDatabase) : KeyStatus :=
  let totalKeys := Z.of_nat (length db) in
  let usedKeys := Z.of_nat (length (filter (fun kv => used (snd kv)) db)) in
  let availableKeys := totalKeys - usedKeys in
  {| source_KME_ID := lit "mock-kme-001";
     target_KME_ID := lit "mock-kme-002";
     master_SAE_ID := lit "demo-server-001";
     slave_SAE_ID := slave_sae_id;
     status_key_size := 256;
     stored_key_count := availableKeys;
     max_key_count := 1000;
     max_key_per_request := 10;
     max_key_size := 1024;
     min_key_size := 128;
     max_SAE_ID_count := 100;
     quantum_safe := true;
     qkd_rate := lit "1000 keys/minute";
     last_key_generation := toISOString d |}.

(** A pool of three unused one-time-pad keys, and a draw for the
    requests made against it. *)
Definition pool_key (id : string) : KeyEntry :=
  {| keyId := lit id;
     key := lit "AQIDBAUGBwg=";
     keySize := 1024;
     saeId := lit "demo-client-001";
     targetSaeId := lit "demo-server-001";
     timestamp := lit "2025-01-01T00:00:00.000Z";
     used := false;
     keyType := lit "otp" |}.

Definition three_keys : KeyDatabase :=
  Map_set
    (Map_set (Map_set [] (lit "key-a") (pool_key "key-a"))
       (lit "key-b") (pool_key "key-b"))
    (lit "key-c") (pool_key "key-c").

Definition fixed_draw : Draw :=
  {| randomUUID := lit "00000000-0000-4000-8000-000000000000";
     randomBytes := fun n => repeat 0 (Z.to_nat n);
     toISOString := lit "2025-01-01T00:00:00.000Z" |}.

Definition ask (n : Z) : KeyRequest :=
  {| slave_sae_id := lit "demo-server-001";
     number := Some n;
     size := None;
     key_stream_id := None |}.

End KeyManagerServer.

(** ** The key-manager client, as [SecurityService] sees it *)

Module KMService.

(** A key of a key-manager response; the mock leaves [key_size] out. *)
Record QuantumKey : Type := {
  key_ID : jsstring;
  key : jsstring;
  key_size : option Z
}.

Record KeyResponse : Type := {
  status : jsstring;
  keys : list QuantumKey;
  error_message : option jsstring
}.

(** The two calls that reach the key manager.  [requestEncryptionKey]
    is called with [this.saeId], which is part of the world. *)
Record Interface (W : Type) : Type := {
  requestEncryptionKey : Z -> M W KeyResponse;
  getKey : jsstring -> M W KeyResponse
}.
Arguments requestEncryptionKey {W} _ _ _.
Arguments getKey {W} _ _ _.

(** [Math.ceil(x / 8)] for an integer [x]. *)
Definition ceil_div8 (x : Z) : Z := - ((- x) / 8).

Definition first_key {W} (response : KeyResponse) (fallback : jsstring)
  : M W QuantumKey :=
  match keys response with
  | k :: _ =>
      if str_eqb (status response) (lit "success") then ret k
      else throw (match or_else truthy_str (error_message response)
                          (Some fallback) with
                  | Some m => m
                  | None => fallback
                  end)
  | [] =>
      throw (match or_else truthy_str (error_message response)
                     (Some fallback) with
             | Some m => m
             | None => fallback
             end)
  end.

(** [generateOTPKeys(dataSize)], [dataSize] in bits. *)
Definition generateOTPKeys {W} (km : Interface W) (dataSize : Z)
  : M W QuantumKey :=
  let keySize := ceil_div8 dataSize * 8 in
  response <- requestEncryptionKey km keySize ;;
  first_key response (lit "Failed to generate OTP keys").

(** [getQuantumSeed(keySize)]. *)
Definition getQuantumSeed {W} (km : Interface W) (keySize : Z)
  : M W QuantumKey :=
  response <- requestEncryptionKey km keySize ;;
  first_key response (lit "Failed to get quantum seed").

(** *** The mock of the front end *)

(** What the mock draws from: the values [Math.floor(Math.random() *
    256)] will take, the ids a key without a given id will get, and
    how many of each have been drawn. *)
Record MockWorld : Type := {
  random_byte : nat -> Z;
  random_id : nat -> jsstring;
  drawn : nat
}.

Definition hex_digit (n : Z) : Z := if n <? 10 then 48 + n else 87 + n.

(** [n.toString(16).padStart(2, "0")] for [0 <= n < 256]. *)
Definition hex2 (n : Z) : jsstring := [hex_digit (n / 16); hex_digit (n mod 16)].

(** The loop of [generateMockKey]: the hex digits of [count] random
    bytes. *)
Fixpoint mock_hex (count : nat) (w : MockWorld) : jsstring * MockWorld :=
  match count with
  | O => ([], w)
  | S count' =>
      let digits := hex2 (random_byte w (drawn w) mod 256) in
      let (more, w') :=
        mock_hex count'
          {| random_byte := random_byte w; random_id := random_id w;
             drawn := S (drawn w) |} in
      (digits ++ more, w')
  end.

(** [generateMockKey(keyId, keySize)]; the loop runs while
    [i < keySize / 8]. *)
Definition generateMockKey (keyId : option jsstring) (keySize : Z)
    (w : MockWorld) : QuantumKey * MockWorld :=
  let (id, w1) :=
    match keyId with
    | Some (c :: rest) => (c :: rest, w)
    | _ =>
        (random_id w (drawn w),
         {| random_byte := random_byte w; random_id := random_id w;
            drawn := S (drawn w) |})
    end in
  let (key, w2) := mock_hex (Z.to_nat (ceil_div8 keySize)) w1 in
  ({| key_ID := id; key := key; key_size := None |}, w2).

Definition mock_success (k : QuantumKey) : KeyResponse :=
  {| status := lit "success"; keys := [k]; error_message := None |}.

(** The mock [kmService]: every call makes a new key. *)
Definition mock : Interface MockWorld :=
  {| requestEncryptionKey :=
       fun keySize w =>
         let (k, w') := generateMockKey None keySize w in
         (Ok (mock_success k), w');
     getKey :=
       fun keyId w =>
         let (k, w') := generateMockKey (Some keyId) 256 w in
         (Ok (mock_success k), w') |}.

(** *** The other calls of the mock *)

(** [keys.map((id) => this.generateMockKey(id))] and the [forEach] of
    [getKeyWithIds]: one key of 256 bits per id, made in order. *)
Fixpoint generateMockKeys (ids : list (option jsstring)) (w : MockWorld)
  : list QuantumKey * MockWorld :=
  match ids with
  | [] => ([], w)
  | id :: ids' =>
      let (k, w1) := generateMockKey id 256 w in
      let (ks, w2) := generateMockKeys ids' w1 in
      (k :: ks, w2)
  end.

(** The argument [keyIds] of [requestDecryptionKey]: an array of ids,
    or one id, which the call wraps into an array. *)
Inductive KeyIds : Type :=
| IdArray (ids : list (option jsstring))
| OneId (id : option jsstring).

Definition mock_requestDecryptionKey (keyIds : KeyIds) (w : MockWorld)
  : KeyResponse * MockWorld :=
  let keys :=
    match keyIds with
    | IdArray ids => ids
    | OneId id => [id]
    end in
  let (mockKeys, w') := generateMockKeys keys w in
  ({| status := lit "success"; keys := mockKeys; error_message := None |},
   w').

Definition mock_getKeyWithIds (keyId : option jsstring)
    (additionalKeyIds : list (option jsstring)) (w : MockWorld)
  : KeyResponse * MockWorld :=
  let (k, w1) := generateMockKey keyId 256 w in
  let (more, w2) := generateMockKeys additionalKeyIds w1 in
  ({| status := lit "success"; keys := k :: more; error_message := None |},
   w2).

(** *** [validateKey] *)

(** A key object as [validateKey] reads it; a property that is not
    set is [None]. *)
Record KeyObject : Type := {
  ko_key_ID : option jsstring;
  ko_key : option jsstring;
  ko_timestamp : option jsstring;
  ko_status : option jsstring
}.

Definition AVAILABLE : jsstring := lit "available".

(** [validateKey(key)].  [Date_parse s] is the time value of
    [new Date(s)] in milliseconds, [None] for an invalid date, and
    [now] that of [new Date()].  The age of an invalid date is [NaN],
    which is not greater than 3600. *)
Definition validateKey (Date_parse : jsstring -> option Z) (now : Z)
    (key : option KeyObject) : bool :=
  match key with
  | None => false
  | Some key =>
      if negb (truthy (ko_key_ID key)) || negb (truthy (ko_key key))
      then false
      else if truthy (ko_timestamp key)
              && match ko_timestamp key with
                 | Some t =>
                     match Date_parse t with
                     | Some keyTime => 3600 * 1000 <? now - keyTime
                     | None => false
                     end
                 | None => false
                 end
      then false
      else match ko_status key with
           | Some s => str_eqb s AVAILABLE
           | None => false
           end
  end.

(** The object [generateMockKey] returns, with the properties
    [validateKey] reads: [status] is [KEY_STATES.AVAILABLE] and
    [timestamp] the time of its making. *)
Definition mock_key_object (k : QuantumKey) (timestamp : jsstring)
  : KeyObject :=
  {| ko_key_ID := Some (key_ID k);
     ko_key := Some (key k);
     ko_timestamp := Some timestamp;
     ko_status := Some AVAILABLE |}.

(** A key of a response of the key-manager server, as the client
    receives it: [key_ID], [key], [key_size] and [timestamp], and no
    [status]. *)
Definition server_key_object (k : KeyManagerServer.KeyOut) : KeyObject :=
  {| ko_key_ID := Some (KeyManagerServer.key_ID k);
     ko_key := Some (KeyManagerServer.key_material k);
     ko_timestamp := Some (KeyManagerServer.key_timestamp k);
     ko_status := None |}.

End KMService.

(** ** [SecurityService] *)

Module SecurityService.

Definition QUANTUM_SECURE : jsstring := lit "quantum_secure".
Definition QUANTUM_AES : jsstring := lit "quantum_aes".
Definition PQC_ENCRYPTION : jsstring := lit "pqc_encryption".
Definition NO_QUANTUM : jsstring := lit "no_quantum".

(** The [metadata] of an encryption result of level 1. *)
Inductive TierMetadata : Type :=
| OTP_metadata (originalSize : Z).

(** An encryption result, and the object handed to the decrypt
    functions; a field that is not set is [None]. *)
Record EncryptedData : Type := {
  encryptedData : jsstring;
  securityLevel : option jsstring;
  algorithm : option jsstring;
  quantumKeyId : option jsstring;
  iv : option jsstring;
  timestamp : option jsstring;
  keySize : option Z;
  metadata : option TierMetadata
}.

Record DecryptedData : Type := {
  data : jsstring;
  verified : bool;
  dec_algorithm : jsstring;
  dec_securityLevel : jsstring
}.

(** What the service reaches outside itself: the key manager and the
    clock ([new Date().toISOString()]). *)
Record Env (W : Type) : Type := {
  kmService : KMService.Interface W;
  toISOString : W -> jsstring * W
}.
Arguments kmService {W} _.
Arguments toISOString {W} _ _.

Definition base64ToBytes (base64String : jsstring) : result (list Z) :=
  rbind (atob base64String)
    (fun binaryString => Ok (map ToUint8 binaryString)).

Definition bytesToBase64 (bytes : list Z) : result jsstring :=
  btoa (map fromCharCode bytes).

(** The loop [out[i] = a[i] ^ k[i]] for [i < length a], stored into a
    [Uint8Array]: a read past the end of [k] is [undefined]. *)
Definition xor_loop (a k : list Z) : list Z :=
  map (fun i => ToUint8 (bitxor (nth_error a i) (nth_error k i)))
    (seq 0 (length a)).

(** Level 1: one-time pad.  The [catch] of the source logs and throws
    the error again. *)
Definition encryptWithOTP {W} (env : Env W) (data : jsstring)
  : M W EncryptedData :=
  let dataBytes := TextEncoder_encode data in
  let dataSize := Z.of_nat (length dataBytes) in
  quantumKey <- KMService.generateOTPKeys (kmService env) (dataSize * 8) ;;
  if negb (truthy_str (KMService.key quantumKey)) then
    throw (lit "Failed to obtain quantum key for OTP encryption")
  else
    keyBytes <- lift (base64ToBytes (KMService.key quantumKey)) ;;
    if Z.of_nat (length keyBytes) <? dataSize then
      throw (lit "Quantum key too short for OTP encryption")
    else
      let encryptedBytes := xor_loop dataBytes keyBytes in
      encoded <- lift (bytesToBase64 encryptedBytes) ;;
      now <- clock (toISOString env) ;;
      ret {| encryptedData := encoded;
             securityLevel := Some QUANTUM_SECURE;
             algorithm := Some (lit "OTP");
             quantumKeyId := Some (KMService.key_ID quantumKey);
             iv := None;
             timestamp := Some now;
             keySize := KMService.key_size quantumKey;
             metadata := Some (OTP_metadata dataSize) |}.

(** Level 1: decryption. *)
Definition decryptFromOTP {W} (env : Env W) (encrypted : EncryptedData)
  : M W DecryptedData :=
  match quantumKeyId encrypted with
  | Some (c :: id) =>
      keyResponse <- KMService.getKey (kmService env) (c :: id) ;;
      match KMService.keys keyResponse with
      | quantumKey :: _ =>
          if negb (str_eqb (KMService.status keyResponse) (lit "success"))
          then throw (lit "Failed to retrieve quantum key for OTP decryption")
          else
            keyBytes <- lift (base64ToBytes (KMService.key quantumKey)) ;;
            encryptedBytes <- lift (base64ToBytes (encryptedData encrypted)) ;;
            let decryptedBytes := xor_loop encryptedBytes keyBytes in
            ret {| data := TextDecoder_decode decryptedBytes;
                   verified := true;
                   dec_algorithm := lit "OTP";
                   dec_securityLevel := QUANTUM_SECURE |}
      | [] => throw (lit "Failed to retrieve quantum key for OTP decryption")
      end
  | _ => throw (lit "Missing quantum key ID for OTP decryption")
  end.

(** What the service uses of CryptoJS for the decryption of level 2; a
    [WordArray] is the list of its bytes.  [SHA256] stands for
    [CryptoJS.SHA256(CryptoJS.lib.WordArray.create(bytes))],
    [AES_decrypt ciphertext key iv] for [CryptoJS.AES.decrypt] with the
    options of the source, [Utf8_stringify] for
    [toString(CryptoJS.enc.Utf8)]. *)
Record CryptoJS : Type := {
  SHA256 : list Z -> list Z;
  Hex_parse : option jsstring -> result (list Z);
  AES_decrypt : jsstring -> list Z -> list Z -> result (list Z);
  Utf8_stringify : list Z -> result jsstring
}.

Definition decrypted_AES (text : jsstring) : DecryptedData :=
  {| data := text; verified := true; dec_algorithm := lit "AES-256-GCM";
     dec_securityLevel := QUANTUM_AES |}.

(** Level 2: decryption. *)
Definition decryptFromQuantumAES {W} (env : Env W) (crypto : CryptoJS)
    (encrypted : EncryptedData) : M W DecryptedData :=
  match quantumKeyId encrypted with
  | Some (c :: id) =>
      keyResponse <- KMService.getKey (kmService env) (c :: id) ;;
      match KMService.keys keyResponse with
      | quantumSeed :: _ =>
          if negb (str_eqb (KMService.status keyResponse) (lit "success"))
          then throw (lit "Failed to retrieve quantum key for AES decryption")
          else
            quantumKeyBytes <-
              lift (base64ToBytes (KMService.key quantumSeed)) ;;
            let aesKey := SHA256 crypto quantumKeyBytes in
            iv <- lift (Hex_parse crypto (iv encrypted)) ;;
            decrypted <-
              lift (AES_decrypt crypto (encryptedData encrypted) aesKey iv) ;;
            decryptedData <- lift (Utf8_stringify crypto decrypted) ;;
            if negb (truthy_str decryptedData) then
              throw (lit "Decryption failed - invalid key or corrupted data")
            else ret (decrypted_AES decryptedData)
      | [] => throw (lit "Failed to retrieve quantum key for AES decryption")
      end
  | _ => throw (lit "Missing quantum key ID for AES decryption")
  end.

(** Encryption followed by decryption of its result. *)
Definition otp_round_trip {W} (env : Env W) (data : jsstring)
  : M W DecryptedData :=
  encrypted <- encryptWithOTP env data ;;
  decryptFromOTP env encrypted.

(** In the world [w] the key manager answers [getKey(id)] with success
    and a first key whose [key] is [material]. *)
Definition returns_material {W} (env : Env W) (id material : jsstring)
    (w w' : W) : Prop :=
  exists response k others,
    KMService.getKey (kmService env) id w = (Ok response, w')
    /\ KMService.status response = lit "success"
    /\ KMService.keys response = k :: others
    /\ KMService.key k = material.

Definition decrypted_OTP (text : jsstring) : DecryptedData :=
  {| data := text; verified := true; dec_algorithm := lit "OTP";
     dec_securityLevel := QUANTUM_SECURE |}.

(** A key manager holding one key, which it hands out on every
    request, and a clock that stands still. *)
Definition single_key (id key : jsstring) : KMService.QuantumKey :=
  {| KMService.key_ID := id; KMService.key := key;
     KMService.key_size := None |}.

Definition single_key_response (id key : jsstring) : KMService.KeyResponse :=
  {| KMService.status := lit "success";
     KMService.keys := [single_key id key];
     KMService.error_message := None |}.

Definition single_key_env (id key : jsstring) : Env unit :=
  {| kmService :=
       {| KMService.requestEncryptionKey :=
            fun _ => ret (single_key_response id key);
          KMService.getKey := fun _ => ret (single_key_response id key) |};
     toISOString := fun w => (lit "2025-01-01T00:00:00.000Z", w) |}.

(** A stand-in for CryptoJS, for concrete runs: the digest is the
    seed itself and the cipher text is the base64 of the plain bytes. *)
Definition stub_crypto : CryptoJS :=
  {| SHA256 := fun bytes => bytes;
     Hex_parse := fun _ => Ok [];
     AES_decrypt := fun ciphertext _ _ => atob ciphertext;
     Utf8_stringify := fun bytes => Ok bytes |}.

(** A world of the mock in which nothing has been drawn yet. *)
Definition mock_start : KMService.MockWorld :=
  {| KMService.random_byte := fun i => 7 * Z.of_nat i + 1;
     KMService.random_id := fun _ => lit "QK_1735689600000_abcdefgh";
     KMService.drawn := 0 |}.

(** The service over the mock key manager. *)
Definition mock_env : Env KMService.MockWorld :=
  {| kmService := KMService.mock;
     toISOString := fun w => (lit "2025-01-01T00:00:00.000Z", w) |}.

(** *** The service object and the four levels *)

Record Service : Type := {
  currentSecurityLevel : jsstring;
  isInitialized : bool
}.

(** The object the constructor makes. *)
Definition new_Service : Service :=
  {| currentSecurityLevel := QUANTUM_SECURE; isInitialized := false |}.

Definition initialize (this : Service) : Service :=
  {| currentSecurityLevel := currentSecurityLevel this;
     isInitialized := true |}.

(** [Object.values(SECURITY_LEVELS)]. *)
Definition SECURITY_LEVELS : list jsstring :=
  [QUANTUM_SECURE; QUANTUM_AES; PQC_ENCRYPTION; NO_QUANTUM].

(** A string that may be [undefined], inside a template literal or
    as an operand of [+] with a string. *)
Definition show (x : option jsstring) : jsstring :=
  match x with
  | Some s => s
  | None => lit "undefined"
  end.

(** [setSecurityLevel(level)] for a string or [undefined]. *)
Definition setSecurityLevel (level : option jsstring) (this : Service)
  : result Service :=
  match level with
  | Some l =>
      if existsb (str_eqb l) SECURITY_LEVELS then
        Ok {| currentSecurityLevel := l;
              isInitialized := isInitialized this |}
      else Throw (lit "Invalid security level: " ++ show level)
  | None => Throw (lit "Invalid security level: " ++ show level)
  end.

Definition getCurrentSecurityLevel (this : Service) : jsstring :=
  currentSecurityLevel this.

(** The [options] of the encrypt and decrypt functions. *)
Record Options : Type := {
  opt_securityLevel : option jsstring;
  pqcPrivateKey : option jsstring;
  rsaPrivateKey : option jsstring
}.

(** [options = {}]. *)
Definition no_options : Options :=
  {| opt_securityLevel := None; pqcPrivateKey := None;
     rsaPrivateKey := None |}.

(** *** Levels 2 to 4 over CryptoJS *)

Inductive Mode : Type := GCM | CTR | CBC.
Inductive Padding : Type := NoPadding | Pkcs7.

(** What the service uses of CryptoJS beyond [CryptoJS]:
    [SHA256_string s] stands for [CryptoJS.SHA256(s)] of a string,
    [Hex_stringify] for [toString()] of a [WordArray],
    [WordArray_random n] for [CryptoJS.lib.WordArray.random(n)],
    [AES_encrypt mode padding data key iv] for
    [CryptoJS.AES.encrypt(data, key, { iv, mode, padding }).toString()]
    and [AES_decrypt_with mode padding] for [CryptoJS.AES.decrypt] with
    these options. *)
Record Cipher (W : Type) : Type := {
  core : CryptoJS;
  SHA256_string : jsstring -> list Z;
  Hex_stringify : list Z -> jsstring;
  WordArray_random : Z -> W -> list Z * W;
  AES_encrypt : Mode -> Padding -> jsstring -> list Z -> list Z
                -> result jsstring;
  AES_decrypt_with : Mode -> Padding -> jsstring -> list Z -> list Z
                     -> result (list Z)
}.
Arguments core {W} _.
Arguments SHA256_string {W} _ _.
Arguments Hex_stringify {W} _ _.
Arguments WordArray_random {W} _ _ _.
Arguments AES_encrypt {W} _ _ _ _ _ _.
Arguments AES_decrypt_with {W} _ _ _ _ _ _.

(** The [metadata] of an encryption result of levels 2 to 4. *)
Record CipherMetadata : Type := {
  quantumSeed : option bool;
  keyDerivation : option jsstring;
  mode : option jsstring;
  pqcAlgorithm : option jsstring;
  asymmetricAlgorithm : option jsstring;
  symmetricAlgorithm : option jsstring;
  quantumResistant : option bool
}.

(** An encryption result of any level: the properties of
    [EncryptedData], the [metadata] of levels 2 to 4, and the
    properties only levels 3 and 4 set. *)
Record Sealed : Type := {
  common : EncryptedData;
  cipher_metadata : option CipherMetadata;
  pqcPublicKey : option jsstring;
  encryptedSessionKey : option jsstring;
  rsaPublicKey : option jsstring
}.

Definition sealed_OTP (e : EncryptedData) : Sealed :=
  {| common := e; cipher_metadata := None; pqcPublicKey := None;
     encryptedSessionKey := None; rsaPublicKey := None |}.

(** Level 2: encryption. *)
Definition encryptWithQuantumAES {W} (env : Env W) (cipher : Cipher W)
    (data : jsstring) : M W Sealed :=
  quantumSeed <- KMService.getQuantumSeed (kmService env) 256 ;;
  if negb (truthy_str (KMService.key quantumSeed)) then
    throw (lit "Failed to obtain quantum seed for AES encryption")
  else
    quantumKeyBytes <- lift (base64ToBytes (KMService.key quantumSeed)) ;;
    let aesKey := SHA256 (core cipher) quantumKeyBytes in
    iv <- clock (WordArray_random cipher 16) ;;
    encrypted <- lift (AES_encrypt cipher GCM NoPadding data aesKey iv) ;;
    now <- clock (toISOString env) ;;
    ret {| common :=
             {| encryptedData := encrypted;
                securityLevel := Some QUANTUM_AES;
                algorithm := Some (lit "AES-256-GCM");
                quantumKeyId := Some (KMService.key_ID quantumSeed);
                iv := Some (Hex_stringify cipher iv);
                timestamp := Some now;
                keySize := Some 256;
                metadata := None |};
           cipher_metadata :=
             Some {| quantumSeed := Some true;
                     keyDerivation := Some (lit "SHA256");
                     mode := Some (lit "GCM");
                     pqcAlgorithm := None;
                     asymmetricAlgorithm := None;
                     symmetricAlgorithm := None;
                     quantumResistant := None |};
           pqcPublicKey := None;
           encryptedSessionKey := None;
           rsaPublicKey := None |}.

(** [generateSimulatedPQCKeyPair()] and [generateSimulatedRSAKeyPair()]:
    the public key is drawn first. *)
Definition generateSimulatedKeyPair {W} (cipher : Cipher W) (bytes : Z)
  : M W (jsstring * jsstring) :=
  publicKey <- clock (WordArray_random cipher bytes) ;;
  privateKey <- clock (WordArray_random cipher bytes) ;;
  ret (Hex_stringify cipher publicKey, Hex_stringify cipher privateKey).

Definition generateSimulatedPQCKeyPair {W} (cipher : Cipher W)
  : M W (jsstring * jsstring) :=
  generateSimulatedKeyPair cipher 32.

Definition generateSimulatedRSAKeyPair {W} (cipher : Cipher W)
  : M W (jsstring * jsstring) :=
  generateSimulatedKeyPair cipher 256.

Definition simulateRSAEncrypt {W} (cipher : Cipher W)
    (data publicKey : jsstring) : jsstring :=
  Hex_stringify cipher (SHA256_string cipher (data ++ publicKey)).

Definition simulateRSADecrypt {W} (cipher : Cipher W)
    (encryptedData : option jsstring) (privateKey : jsstring) : jsstring :=
  Hex_stringify cipher (SHA256_string cipher privateKey).

Definition getStoredPQCPrivateKey {W} (cipher : Cipher W)
    (publicKey : option jsstring) : jsstring :=
  Hex_stringify cipher
    (SHA256_string cipher (show publicKey ++ lit "pqc_private")).

Definition getStoredRSAPrivateKey {W} (cipher : Cipher W)
    (publicKey : option jsstring) : jsstring :=
  Hex_stringify cipher
    (SHA256_string cipher (show publicKey ++ lit "rsa_private")).

(** Level 3: encryption. *)
Definition encryptWithPQC {W} (env : Env W) (cipher : Cipher W)
    (data : jsstring) : M W Sealed :=
  pqcKeyPair <- generateSimulatedPQCKeyPair cipher ;;
  let aesKey := SHA256_string cipher (snd pqcKeyPair) in
  iv <- clock (WordArray_random cipher 16) ;;
  encrypted <- lift (AES_encrypt cipher CTR Pkcs7 data aesKey iv) ;;
  now <- clock (toISOString env) ;;
  ret {| common :=
           {| encryptedData := encrypted;
              securityLevel := Some PQC_ENCRYPTION;
              algorithm := Some (lit "Kyber-AES-256");
              quantumKeyId := None;
              iv := Some (Hex_stringify cipher iv);
              timestamp := Some now;
              keySize := Some 256;
              metadata := None |};
         cipher_metadata :=
           Some {| quantumSeed := None;
                   keyDerivation := None;
                   mode := None;
                   pqcAlgorithm := Some (lit "Kyber-768");
                   asymmetricAlgorithm := None;
                   symmetricAlgorithm := Some (lit "AES-256-CTR");
                   quantumResistant := Some true |};
         pqcPublicKey := Some (fst pqcKeyPair);
         encryptedSessionKey := None;
         rsaPublicKey := None |}.

Definition decrypted_PQC (text : jsstring) : DecryptedData :=
  {| data := text; verified := true; dec_algorithm := lit "Kyber-AES-256";
     dec_securityLevel := PQC_ENCRYPTION |}.

(** Level 3: decryption. *)
Definition decryptFromPQC {W} (cipher : Cipher W) (encrypted : Sealed)
    (options : Options) : M W DecryptedData :=
  let privateKey :=
    match pqcPrivateKey options with
    | Some (c :: k) => c :: k
    | _ => getStoredPQCPrivateKey cipher (pqcPublicKey encrypted)
    end in
  if negb (truthy_str privateKey) then
    throw (lit "PQC private key not available")
  else
    let aesKey := SHA256_string cipher privateKey in
    iv <- lift (Hex_parse (core cipher) (iv (common encrypted))) ;;
    decrypted <-
      lift (AES_decrypt_with cipher CTR Pkcs7
              (encryptedData (common encrypted)) aesKey iv) ;;
    decryptedData <- lift (Utf8_stringify (core cipher) decrypted) ;;
    if negb (truthy_str decryptedData) then
      throw (lit "PQC decryption failed")
    else ret (decrypted_PQC decryptedData).

(** Level 4: encryption. *)
Definition encryptWithStandard {W} (env : Env W) (cipher : Cipher W)
    (data : jsstring) : M W Sealed :=
  sessionKey <- clock (WordArray_random cipher 32) ;;
  iv <- clock (WordArray_random cipher 16) ;;
  encrypted <- lift (AES_encrypt cipher CBC Pkcs7 data sessionKey iv) ;;
  rsaKeyPair <- generateSimulatedRSAKeyPair cipher ;;
  let encryptedSessionKey :=
    simulateRSAEncrypt cipher (Hex_stringify cipher sessionKey)
      (fst rsaKeyPair) in
  now <- clock (toISOString env) ;;
  ret {| common :=
           {| encryptedData := encrypted;
              securityLevel := Some NO_QUANTUM;
              algorithm := Some (lit "RSA-2048-AES-256");
              quantumKeyId := None;
              iv := Some (Hex_stringify cipher iv);
              timestamp := Some now;
              keySize := Some 256;
              metadata := None |};
         cipher_metadata :=
           Some {| quantumSeed := None;
                   keyDerivation := None;
                   mode := None;
                   pqcAlgorithm := None;
                   asymmetricAlgorithm := Some (lit "RSA-2048");
                   symmetricAlgorithm := Some (lit "AES-256-CBC");
                   quantumResistant := Some false |};
         pqcPublicKey := None;
         encryptedSessionKey := Some encryptedSessionKey;
         rsaPublicKey := Some (fst rsaKeyPair) |}.

Definition decrypted_Standard (text : jsstring) : DecryptedData :=
  {| data := text; verified := true;
     dec_algorithm := lit "RSA-2048-AES-256";
     dec_securityLevel := NO_QUANTUM |}.

(** Level 4: decryption. *)
Definition decryptFromStandard {W} (cipher : Cipher W) (encrypted : Sealed)
    (options : Options) : M W DecryptedData :=
  let privateKey :=
    match rsaPrivateKey options with
    | Some (c :: k) => c :: k
    | _ => getStoredRSAPrivateKey cipher (rsaPublicKey encrypted)
    end in
  if negb (truthy_str privateKey) then
    throw (lit "RSA private key not available")
  else
    let sessionKey :=
      simulateRSADecrypt cipher (encryptedSessionKey encrypted) privateKey in
    aesKey <- lift (Hex_parse (core cipher) (Some sessionKey)) ;;
    iv <- lift (Hex_parse (core cipher) (iv (common encrypted))) ;;
    decrypted <-
      lift (AES_decrypt_with cipher CBC Pkcs7
              (encryptedData (common encrypted)) aesKey iv) ;;
    decryptedData <- lift (Utf8_stringify (core cipher) decrypted) ;;
    if negb (truthy_str decryptedData) then
      throw (lit "Standard decryption failed")
    else ret (decrypted_Standard decryptedData).

(** *** The dispatch on the level *)

(** [encryptData(data, options)]. *)
Definition encryptData {W} (env : Env W) (cipher : Cipher W)
    (this : Service) (data : jsstring) (options : Options) : M W Sealed :=
  let securityLevel :=
    match opt_securityLevel options with
    | Some (c :: l) => c :: l
    | _ => currentSecurityLevel this
    end in
  if str_eqb securityLevel QUANTUM_SECURE then
    encrypted <- encryptWithOTP env data ;;
    ret (sealed_OTP encrypted)
  else if str_eqb securityLevel QUANTUM_AES then
    encryptWithQuantumAES env cipher data
  else if str_eqb securityLevel PQC_ENCRYPTION then
    encryptWithPQC env cipher data
  else if str_eqb securityLevel NO_QUANTUM then
    encryptWithStandard env cipher data
  else throw (lit "Unsupported security level: " ++ securityLevel).

(** [encryptedData.securityLevel || options.securityLevel]. *)
Definition level_to_decrypt (encrypted : Sealed) (options : Options)
  : option jsstring :=
  or_else truthy_str (securityLevel (common encrypted))
    (opt_securityLevel options).

(** [decryptData(encryptedData, options)]. *)
Definition decryptData {W} (env : Env W) (cipher : Cipher W)
    (encrypted : Sealed) (options : Options) : M W DecryptedData :=
  let securityLevel := level_to_decrypt encrypted options in
  match securityLevel with
  | Some l =>
      if str_eqb l QUANTUM_SECURE then
        decryptFromOTP env (common encrypted)
      else if str_eqb l QUANTUM_AES then
        decryptFromQuantumAES env (core cipher) (common encrypted)
      else if str_eqb l PQC_ENCRYPTION then
        decryptFromPQC cipher encrypted options
      else if str_eqb l NO_QUANTUM then
        decryptFromStandard cipher encrypted options
      else throw (lit "Unsupported security level: " ++ show securityLevel)
  | None => throw (lit "Unsupported security level: " ++ show securityLevel)
  end.

(** A stand-in for the rest of CryptoJS, for concrete runs: the digest
    of a string is its code units, a [WordArray] prints as it is, the
    random source gives zeros, and the cipher text is the base64 of
    the text. *)
Definition stub_cipher : Cipher unit :=
  {| core := stub_crypto;
     SHA256_string := fun s => s;
     Hex_stringify := fun bytes => bytes;
     WordArray_random := fun n w => (repeat 0 (Z.to_nat n), w);
     AES_encrypt := fun _ _ data _ _ => btoa data;
     AES_decrypt_with := fun _ _ ciphertext _ _ => atob ciphertext |}.

End SecurityService.

(** ** [EncryptionEngine] *)

Module EncryptionEngine.

(** The [metadata] object of an encrypted part. *)
Record Metadata : Type := {
  algorithm : option jsstring;
  securityLevel : option jsstring;
  quantumKeyId : option jsstring;
  timestamp : option jsstring;
  isHtml : option bool;
  originalSize : option Z;
  originalContentType : option jsstring
}.

(** [data] of an attachment: a string or an [ArrayBuffer]. *)
Inductive AttachmentData : Type :=
| StringData (s : jsstring)
| BufferData (bytes : list Z).

Record Attachment : Type := {
  filename : jsstring;
  data : AttachmentData;
  size : option Z;
  contentType : option jsstring;
  encrypted : option bool;
  metadata : option Metadata;
  encryptionError : option jsstring;
  decryptionError : option jsstring
}.

(** [encryptionMetadata.components]; a property that is not set is
    [None]. *)
Record Components : Type := {
  subject_metadata : option Metadata;
  body_metadata : option Metadata;
  attachments_metadata : option (list (option Metadata))
}.

Record EncryptionMetadata : Type := {
  encryptionId : jsstring;
  level : jsstring;
  created : jsstring;
  version : jsstring;
  components : option Components
}.

(** An email object; [other] holds the properties the engine only
    copies ([to], [from], ...). *)
Record Email : Type := {
  subject : jsstring;
  body : jsstring;
  attachments : option (list Attachment);
  email_encrypted : option bool;
  encryptionMetadata : option EncryptionMetadata;
  originalEncryptionMetadata : option EncryptionMetadata;
  headers : list (jsstring * jsstring);
  other : list (jsstring * jsstring)
}.

(** The object [decryptData] is called with. *)
Record DecryptRequest : Type := {
  req_encryptedData : AttachmentData;
  req_securityLevel : option jsstring;
  req_quantumKeyId : option jsstring;
  req_algorithm : option jsstring
}.

(** What the engine uses of [securityService], [kmService] and the
    platform.  Neither [initialize] of the sources throws. *)
Record Services (W : Type) : Type := {
  initialize_services : W -> W;
  getCurrentSecurityLevel : W -> jsstring;
  encryptData : jsstring -> jsstring -> M W SecurityService.EncryptedData;
  decryptData : DecryptRequest -> M W SecurityService.DecryptedData;
  newEncryptionId : W -> jsstring * W;
  toISOString : W -> jsstring * W
}.
Arguments initialize_services {W} _ _.
Arguments getCurrentSecurityLevel {W} _ _.
Arguments encryptData {W} _ _ _ _.
Arguments decryptData {W} _ _ _.
Arguments newEncryptionId {W} _ _.
Arguments toISOString {W} _ _.

(** The engine object: its flag, and the world of the services. *)
Record State (W : Type) : Type := {
  isInitialized : bool;
  world : W
}.
Arguments isInitialized {W} _.
Arguments world {W} _.

Definition on_world {W A} (c : M W A) : M (State W) A :=
  fun st =>
    let (r, w') := c (world st) in
    (r, {| isInitialized := isInitialized st; world := w' |}).

Definition initialize {W} (svc : Services W) : M (State W) unit :=
  fun st =>
    (Ok tt, {| isInitialized := true;
               world := initialize_services svc (world st) |}).

Definition ensure_initialized {W} (svc : Services W) : M (State W) unit :=
  fun st => if isInitialized st then (Ok tt, st) else initialize svc st.

(** [`${x}`] of a property that may be [undefined]. *)
Definition interpolate (x : option jsstring) : jsstring :=
  match x with
  | Some s => s
  | None => lit "undefined"
  end.

(** The message of the [TypeError] for a property read from
    [undefined], in the wording of V8. *)
Definition TypeError_undefined (property : string) : jsstring :=
  lit "Cannot read properties of undefined (reading '" ++ lit property
  ++ lit "')".

(** A template literal of the source, written with a backquote where
    the source has a double quote. *)
Definition template (s : string) : jsstring :=
  map (fun c => if c =? 96 then 34 else c) (lit s).

Definition arrayBufferToBase64 (buffer : list Z) : result jsstring :=
  btoa (map fromCharCode buffer).

Definition base64ToArrayBuffer (base64 : jsstring) : result (list Z) :=
  rbind (atob base64) (fun binary => Ok (map ToUint8 binary)).

Definition part_metadata (e : SecurityService.EncryptedData) : Metadata :=
  {| algorithm := SecurityService.algorithm e;
     securityLevel := SecurityService.securityLevel e;
     quantumKeyId := SecurityService.quantumKeyId e;
     timestamp := SecurityService.timestamp e;
     isHtml := None;
     originalSize := None;
     originalContentType := None |}.

(** The object returned by [encryptSubject] and [encryptBody]. *)
Record EncryptedPart : Type := {
  part_data : jsstring;
  part_meta : Metadata
}.

Definition encryptSubject {W} (svc : Services W)
    (subject securityLevel : jsstring) : M W EncryptedPart :=
  encrypted <- encryptData svc subject securityLevel ;;
  ret {| part_data := SecurityService.encryptedData encrypted;
         part_meta := part_metadata encrypted |}.

Definition encryptBody {W} (svc : Services W)
    (body securityLevel : jsstring) : M W EncryptedPart :=
  let isHtml :=
    includes body (lit "<html>") || includes body (lit "<body>")
    || includes body (lit "<div>") in
  encrypted <- encryptData svc body securityLevel ;;
  ret {| part_data := SecurityService.encryptedData encrypted;
         part_meta :=
           {| algorithm := SecurityService.algorithm encrypted;
              securityLevel := SecurityService.securityLevel encrypted;
              quantumKeyId := SecurityService.quantumKeyId encrypted;
              timestamp := SecurityService.timestamp encrypted;
              isHtml := Some isHtml;
              originalSize := Some (Z.of_nat (length body));
              originalContentType := None |} |}.

(** The attachment pushed when its encryption succeeded. *)
Definition encrypted_attachment (a : Attachment)
    (e : SecurityService.EncryptedData) : Attachment :=
  {| filename := filename a;
     data := StringData (SecurityService.encryptedData e);
     size := size a;
     contentType := contentType a;
     encrypted := Some true;
     metadata :=
       Some {| algorithm := SecurityService.algorithm e;
               securityLevel := SecurityService.securityLevel e;
               quantumKeyId := SecurityService.quantumKeyId e;
               timestamp := SecurityService.timestamp e;
               isHtml := None;
               originalSize := size a;
               originalContentType := contentType a |};
     encryptionError := encryptionError a;
     decryptionError := decryptionError a |}.

(** The attachment pushed by the [catch]: unencrypted, with the
    message of the error. *)
Definition unencrypted_attachment (a : Attachment) (message : jsstring)
  : Attachment :=
  {| filename := filename a;
     data := data a;
     size := size a;
     contentType := contentType a;
     encrypted := Some false;
     metadata := metadata a;
     encryptionError := Some message;
     decryptionError := decryptionError a |}.

(** The [try] block of [encryptAttachments] for one attachment. *)
Definition encrypt_one {W} (svc : Services W) (securityLevel : jsstring)
    (a : Attachment) : M W Attachment :=
  attachmentData <-
    match data a with
    | BufferData buffer => lift (arrayBufferToBase64 buffer)
    | StringData s => ret s
    end ;;
  encrypted <- encryptData svc attachmentData securityLevel ;;
  ret (encrypted_attachment a encrypted).

(** One turn of the loop of [encryptAttachments]: what it pushes. *)
Definition encrypt_push {W} (svc : Services W) (securityLevel : jsstring)
    (attachment : Attachment) : M W Attachment :=
  try_catch (encrypt_one svc securityLevel attachment)
    (fun message => ret (unencrypted_attachment attachment message)).

Fixpoint encryptAttachments {W} (svc : Services W)
    (attachments : list Attachment) (securityLevel : jsstring)
  : M W (list Attachment) :=
  match attachments with
  | [] => ret []
  | attachment :: rest =>
      pushed <- encrypt_push svc securityLevel attachment ;;
      others <- encryptAttachments svc rest securityLevel ;;
      ret (pushed :: others)
  end.

Definition formatEncryptedSubject (encryptedSubject : EncryptedPart)
  : jsstring :=
  lit "[QuMail-Encrypted] "
  ++ substring0 (part_data encryptedSubject) 50 ++ lit "...".

Definition lock_emoji : jsstring := [0xD83D; 0xDD12].

Definition formatEncryptedBody (encryptedBody : EncryptedPart) : jsstring :=
  template "
<html>
<body>
  <div style=`font-family: Arial, sans-serif; padding: 20px; background-color: #f0f8ff; border: 1px solid #4169e1; border-radius: 8px;`>
    <h3 style=`color: #4169e1; margin-top: 0;`>"
  ++ lock_emoji ++
  template " QuMail Encrypted Message</h3>
    <p style=`color: #333;`>This message is encrypted with quantum security technology.</p>
    <p style=`color: #666; font-size: 12px;`>
      <strong>Security Level:</strong> "
  ++ interpolate (securityLevel (part_meta encryptedBody)) ++
  template "<br>
      <strong>Algorithm:</strong> "
  ++ interpolate (algorithm (part_meta encryptedBody)) ++
  template "<br>
      <strong>Encrypted:</strong> "
  ++ interpolate (timestamp (part_meta encryptedBody)) ++
  template "
    </p>
    <div style=`background-color: #fff; padding: 10px; border-radius: 4px; font-family: monospace; word-break: break-all; font-size: 11px;`>
      QuMail-Encrypted-Body: "
  ++ part_data encryptedBody ++
  template "
    </div>
    <p style=`color: #666; font-size: 11px; margin-bottom: 0;`>
      Open with QuMail to decrypt and view the original message.
    </p>
  </div>
</body>
</html>".

(** An own property of an object: set in place when present, appended
    when new. *)
Fixpoint obj_set (o : list (jsstring * jsstring)) (k v : jsstring)
  : list (jsstring * jsstring) :=
  match o with
  | [] => [(k, v)]
  | (k', v') :: o' =>
      if str_eqb k' k then (k, v) :: o' else (k', v') :: obj_set o' k v
  end.

Inductive EncryptEmailResult : Type :=
| EncryptSuccess (encryptedEmail : Email) (encryptionId : jsstring)
    (securityLevel : jsstring)
| EncryptFailure (error : jsstring).

Inductive DecryptEmailResult : Type :=
| DecryptSuccess (decryptedEmail : Email) (wasEncrypted : bool)
    (securityLevel : option jsstring)
| DecryptFailure (error : jsstring).

(** [options.securityLevel || securityService.getCurrentSecurityLevel()];
    [options.securityLevel] is [None] when the caller leaves it out. *)
Definition chosen_level {W} (svc : Services W)
    (option_level : option jsstring) (w : W) : jsstring :=
  match option_level with
  | Some (c :: l) => c :: l
  | _ => getCurrentSecurityLevel svc w
  end.

(** The [try] block of [encryptEmail]. *)
Definition encryptEmail_try {W} (svc : Services W) (emailData : Email)
    (option_level : option jsstring) : M (State W) EncryptEmailResult :=
  _ <- ensure_initialized svc ;;
  securityLevel <-
    on_world (fun w => (Ok (chosen_level svc option_level w), w)) ;;
  encryptionId <- on_world (clock (newEncryptionId svc)) ;;
  encryptedSubject <-
    on_world (encryptSubject svc (subject emailData) securityLevel) ;;
  encryptedBody <-
    on_world (encryptBody svc (body emailData) securityLevel) ;;
  encryptedAttachments <-
    match attachments emailData with
    | Some (a :: l) => on_world (encryptAttachments svc (a :: l) securityLevel)
    | _ => ret []
    end ;;
  now <- on_world (clock (toISOString svc)) ;;
  let encryptionMetadata :=
    {| encryptionId := encryptionId;
       level := securityLevel;
       created := now;
       version := lit "1.0";
       components :=
         Some {| subject_metadata := Some (part_meta encryptedSubject);
                 body_metadata := Some (part_meta encryptedBody);
                 attachments_metadata :=
                   Some (map metadata encryptedAttachments) |} |} in
  ret (EncryptSuccess
         {| subject := formatEncryptedSubject encryptedSubject;
            body := formatEncryptedBody encryptedBody;
            attachments := Some encryptedAttachments;
            email_encrypted := Some true;
            encryptionMetadata := Some encryptionMetadata;
            originalEncryptionMetadata :=
              originalEncryptionMetadata emailData;
            headers :=
              obj_set
                (obj_set
                   (obj_set
                      (obj_set (headers emailData)
                         (lit "X-QuMail-Encrypted") (lit "true"))
                      (lit "X-QuMail-Security-Level") securityLevel)
                   (lit "X-QuMail-Encryption-Id") encryptionId)
                (lit "X-QuMail-Version") (lit "1.0");
            other := other emailData |}
         encryptionId securityLevel).

(** [encryptEmail]: an error of the [try] block becomes a failure
    result. *)
Definition encryptEmail {W} (svc : Services W) (emailData : Email)
    (option_level : option jsstring) (st : State W)
  : EncryptEmailResult * State W :=
  match encryptEmail_try svc emailData option_level st with
  | (Ok r, st') => (r, st')
  | (Throw message, st') => (EncryptFailure message, st')
  end.

(** The [try] block of [decryptSubject]. *)
Definition decryptSubject_try {W} (svc : Services W)
    (encryptedSubject : jsstring) (metadata : option Metadata)
  : M W jsstring :=
  if negb (startsWith encryptedSubject (lit "[QuMail-Encrypted]")) then
    ret encryptedSubject
  else
    let encryptedData :=
      replace_first encryptedSubject (lit "[QuMail-Encrypted] ") [] in
    match metadata with
    | None => throw (TypeError_undefined "securityLevel")
    | Some md =>
        decrypted <-
          decryptData svc
            {| req_encryptedData := StringData encryptedData;
               req_securityLevel := securityLevel md;
               req_quantumKeyId := quantumKeyId md;
               req_algorithm := algorithm md |} ;;
        ret (SecurityService.data decrypted)
    end.

Definition decryption_failed_subject : jsstring :=
  lit "[Decryption Failed]".

Definition decryptSubject {W} (svc : Services W)
    (encryptedSubject : jsstring) (metadata : option Metadata)
  : M W jsstring :=
  try_catch (decryptSubject_try svc encryptedSubject metadata)
    (fun _ => ret decryption_failed_subject).

(** The first group of [/QuMail-Encrypted-Body:\s*([^<]+)/] when the
    text after the marker is [r]: the run up to the next [<], without
    its leading white space; a run of white space only gives its last
    character. *)
Definition body_group (r : jsstring) : option jsstring :=
  let spaces := take_while is_js_space r in
  let run := take_while (fun c => negb (c =? 60))
               (drop_while is_js_space r) in
  match run with
  | _ :: _ => Some run
  | [] =>
      match rev spaces with
      | c :: _ => Some [c]
      | [] => None
      end
  end.

(** [s.match(/QuMail-Encrypted-Body:\s*([^<]+)/)]: the leftmost
    position where the pattern matches. *)
Fixpoint match_body (s : jsstring) : option jsstring :=
  let marker := lit "QuMail-Encrypted-Body:" in
  match (if startsWith s marker
         then body_group (skipn (length marker) s) else None) with
  | Some group => Some group
  | None =>
      match s with
      | [] => None
      | _ :: s' => match_body s'
      end
  end.

Definition decryption_failed_body : jsstring :=
  lit "<p><strong>Decryption Failed:</strong> Unable to decrypt email body.</p>".

(** The [try] block of [decryptBody]. *)
Definition decryptBody_try {W} (svc : Services W)
    (encryptedBody : jsstring) (metadata : option Metadata)
  : M W jsstring :=
  if negb (includes encryptedBody (lit "QuMail-Encrypted-Body")) then
    ret encryptedBody
  else
    match match_body encryptedBody with
    | None => throw (lit "Invalid encrypted body format")
    | Some group =>
        let encryptedData := trim group in
        match metadata with
        | None => throw (TypeError_undefined "securityLevel")
        | Some md =>
            decrypted <-
              decryptData svc
                {| req_encryptedData := StringData encryptedData;
                   req_securityLevel := securityLevel md;
                   req_quantumKeyId := quantumKeyId md;
                   req_algorithm := algorithm md |} ;;
            ret (SecurityService.data decrypted)
        end
    end.

Definition decryptBody {W} (svc : Services W)
    (encryptedBody : jsstring) (metadata : option Metadata)
  : M W jsstring :=
  try_catch (decryptBody_try svc encryptedBody metadata)
    (fun _ => ret decryption_failed_body).

Definition is_true (b : option bool) : bool :=
  match b with
  | Some true => true
  | _ => false
  end.

(** The attachment pushed when its decryption succeeded. *)
Definition decrypted_attachment (a : Attachment) (md : Metadata)
    (decryptedData : AttachmentData) : Attachment :=
  {| filename := filename a;
     data := decryptedData;
     size := or_else truthy_num (originalSize md) (size a);
     contentType := or_else truthy_str (originalContentType md) (contentType a);
     encrypted := Some false;
     metadata := metadata a;
     encryptionError := encryptionError a;
     decryptionError := decryptionError a |}.

(** The attachment pushed by the [catch]. *)
Definition failed_attachment (a : Attachment) (message : jsstring)
  : Attachment :=
  {| filename := filename a;
     data := data a;
     size := size a;
     contentType := contentType a;
     encrypted := encrypted a;
     metadata := metadata a;
     encryptionError := encryptionError a;
     decryptionError := Some message |}.

(** [t && !t.startsWith("text/")]. *)
Definition is_binary_type (t : option jsstring) : bool :=
  match t with
  | Some (c :: t') => negb (startsWith (c :: t') (lit "text/"))
  | _ => false
  end.

(** The [try] block of [decryptAttachments] for one attachment. *)
Definition decrypt_one {W} (svc : Services W) (a : Attachment)
    (metadata : option Metadata) : M W Attachment :=
  if negb (is_true (encrypted a)) then ret a
  else
    match metadata with
    | None => throw (TypeError_undefined "securityLevel")
    | Some md =>
        decrypted <-
          decryptData svc
            {| req_encryptedData := data a;
               req_securityLevel := securityLevel md;
               req_quantumKeyId := quantumKeyId md;
               req_algorithm := algorithm md |} ;;
        decryptedData <-
          (if is_binary_type (originalContentType md) then
             buffer <- lift (base64ToArrayBuffer
                               (SecurityService.data decrypted)) ;;
             ret (BufferData buffer)
           else ret (StringData (SecurityService.data decrypted))) ;;
        ret (decrypted_attachment a md decryptedData)
    end.

(** [metadataArray[i]]: [undefined] past the end. *)
Definition metadata_at (metadataArray : list (option Metadata)) (i : nat)
  : option Metadata :=
  match nth_error metadataArray i with
  | Some m => m
  | None => None
  end.

(** One turn of the loop of [decryptAttachments]: what it pushes. *)
Definition decrypt_push {W} (svc : Services W) (attachment : Attachment)
    (metadata : option Metadata) : M W Attachment :=
  try_catch (decrypt_one svc attachment metadata)
    (fun message => ret (failed_attachment attachment message)).

(** The loop of [decryptAttachments] from index [i] on. *)
Fixpoint decryptAttachments_from {W} (svc : Services W) (i : nat)
    (encryptedAttachments : list Attachment)
    (metadataArray : list (option Metadata)) : M W (list Attachment) :=
  match encryptedAttachments with
  | [] => ret []
  | attachment :: rest =>
      pushed <- decrypt_push svc attachment (metadata_at metadataArray i) ;;
      others <- decryptAttachments_from svc (S i) rest metadataArray ;;
      ret (pushed :: others)
  end.

(** [decryptAttachments(encryptedAttachments, metadataArray)].  The
    loop reads [metadataArray[i]] before the [try] of the attachment:
    with [metadataArray] undefined the first turn throws. *)
Definition decryptAttachments {W} (svc : Services W)
    (encryptedAttachments : list Attachment)
    (metadataArray : option (list (option Metadata)))
  : M W (list Attachment) :=
  match metadataArray with
  | Some metadataArray =>
      decryptAttachments_from svc 0 encryptedAttachments metadataArray
  | None =>
      match encryptedAttachments with
      | [] => ret []
      | _ :: _ => throw (TypeError_undefined "0")
      end
  end.

(** The [try] block of [decryptEmail]. *)
Definition decryptEmail_try {W} (svc : Services W) (encryptedEmail : Email)
  : M (State W) DecryptEmailResult :=
  _ <- ensure_initialized svc ;;
  if negb (is_true (email_encrypted encryptedEmail)) then
    ret (DecryptSuccess encryptedEmail false None)
  else
    match encryptionMetadata encryptedEmail with
    | None => throw (lit "Missing encryption metadata")
    | Some encryptionMetadata =>
        match components encryptionMetadata with
        | None => throw (TypeError_undefined "subject")
        | Some components =>
            decryptedSubject <-
              on_world (decryptSubject svc (subject encryptedEmail)
                          (subject_metadata components)) ;;
            decryptedBody <-
              on_world (decryptBody svc (body encryptedEmail)
                          (body_metadata components)) ;;
            decryptedAttachments <-
              match attachments encryptedEmail with
              | Some (a :: l) =>
                  on_world (decryptAttachments svc (a :: l)
                              (attachments_metadata components))
              | _ => ret []
              end ;;
            ret (DecryptSuccess
                   {| subject := decryptedSubject;
                      body := decryptedBody;
                      attachments := Some decryptedAttachments;
                      email_encrypted := Some false;
                      encryptionMetadata := Some encryptionMetadata;
                      originalEncryptionMetadata := Some encryptionMetadata;
                      headers := headers encryptedEmail;
                      other := other encryptedEmail |}
                   true (Some (level encryptionMetadata)))
        end
    end.

(** [decryptEmail]: an error of the [try] block becomes a failure
    result. *)
Definition decryptEmail {W} (svc : Services W) (encryptedEmail : Email)
    (st : State W) : DecryptEmailResult * State W :=
  match decryptEmail_try svc encryptedEmail st with
  | (Ok r, st') => (r, st')
  | (Throw message, st') => (DecryptFailure message, st')
  end.

(** The attachments of an email, none when the property is missing. *)
Definition attachment_list (e : Email) : list Attachment :=
  match attachments e with
  | Some l => l
  | None => []
  end.

(** What [decryptAttachments] may push for the attachment [a] with
    metadata [m]: the result of its [try] block, or, when that threw,
    [a] itself with the message of the error as [decryptionError]. *)
Definition decrypt_outcome {W} (svc : Services W) (a : Attachment)
    (m : option Metadata) (x : Attachment) : Prop :=
  (exists message w w',
      decrypt_one svc a m w = (Throw message, w')
      /\ x = failed_attachment a message)
  \/ (exists w w', decrypt_one svc a m w = (Ok x, w')).

(** *** The outcome of each part, in terms of the services *)














(** A stand-in for the services, for concrete runs: encryption puts
    [enc:] before the text and fails on the text [fail]; decryption
    takes [enc:] off again and fails on anything else. *)
Definition stub_encrypted (text : jsstring) : SecurityService.EncryptedData :=
  {| SecurityService.encryptedData := lit "enc:" ++ text;
     SecurityService.securityLevel := Some SecurityService.NO_QUANTUM;
     SecurityService.algorithm := Some (lit "stub");
     SecurityService.quantumKeyId := None;
     SecurityService.iv := None;
     SecurityService.timestamp := Some (lit "2025-01-01T00:00:00.000Z");
     SecurityService.keySize := None;
     SecurityService.metadata := None |}.

Definition stub_decrypted (text : jsstring) : SecurityService.DecryptedData :=
  {| SecurityService.data := text;
     SecurityService.verified := true;
     SecurityService.dec_algorithm := lit "stub";
     SecurityService.dec_securityLevel := SecurityService.NO_QUANTUM |}.

Definition stub_services : Services unit :=
  {| initialize_services := fun w => w;
     getCurrentSecurityLevel := fun _ => SecurityService.NO_QUANTUM;
     encryptData :=
       fun text _ =>
         if str_eqb text (lit "fail") then throw (lit "provider failure")
         else ret (stub_encrypted text);
     decryptData :=
       fun request =>
         match req_encryptedData request with
         | StringData s =>
             if startsWith s (lit "enc:") then ret (stub_decrypted (skipn 4 s))
             else throw (lit "not a stub payload")
         | BufferData _ => throw (lit "not a stub payload")
         end;
     newEncryptionId := fun w => (lit "enc_1_abcdefghi", w);
     toISOString := fun w => (lit "2025-01-01T00:00:00.000Z", w) |}.

Definition plain_attachment (name : string) (content : AttachmentData)
    (bytes : Z) (type : string) : Attachment :=
  {| filename := lit name;
     data := content;
     size := Some bytes;
     contentType := Some (lit type);
     encrypted := Some false;
     metadata := None;
     encryptionError := None;
     decryptionError := None |}.

Definition plain_email (subject body : string)
    (attachments : list Attachment) : Email :=
  {| subject := lit subject;
     body := lit body;
     attachments := Some attachments;
     email_encrypted := None;
     encryptionMetadata := None;
     originalEncryptionMetadata := None;
     headers := [];
     other := [(lit "to", lit "bob@example.com")] |}.

Definition fresh : State unit := {| isInitialized := false; world := tt |}.

Definition text_ok : Attachment :=
  plain_attachment "a.txt" (StringData (lit "ok")) 2 "text/plain".

Definition text_fail : Attachment :=
  plain_attachment "b.txt" (StringData (lit "fail")) 4 "text/plain".

Definition binary_ok : Attachment :=
  plain_attachment "c.bin" (BufferData [1; 2; 3]) 3 "application/pdf".

Definition sample_email : Email :=
  plain_email "Hi" "Body text" [text_ok; text_fail; binary_ok].

Definition stub_part (text : string) : EncryptedPart :=
  {| part_data := lit "enc:" ++ lit text;
     part_meta := part_metadata (stub_encrypted (lit text)) |}.











(** *** Validation and reporting *)

(** [String(n)] for a natural number. *)
Fixpoint decimal_digits (u : Decimal.uint) : jsstring :=
  match u with
  | Decimal.Nil => []
  | Decimal.D0 u' => 48 :: decimal_digits u'
  | Decimal.D1 u' => 49 :: decimal_digits u'
  | Decimal.D2 u' => 50 :: decimal_digits u'
  | Decimal.D3 u' => 51 :: decimal_digits u'
  | Decimal.D4 u' => 52 :: decimal_digits u'
  | Decimal.D5 u' => 53 :: decimal_digits u'
  | Decimal.D6 u' => 54 :: decimal_digits u'
  | Decimal.D7 u' => 55 :: decimal_digits u'
  | Decimal.D8 u' => 56 :: decimal_digits u'
  | Decimal.D9 u' => 57 :: decimal_digits u'
  end.

Definition Number_toString (n : nat) : jsstring :=
  decimal_digits (Nat.to_uint n).

(** The value of [emailData.to]: a string or an array of strings. *)
Inductive Recipients : Type :=
| RecipientText (s : jsstring)
| RecipientArray (l : list jsstring).

(** An attachment and an email as [validateEmailForEncryption] reads
    them; a property that is not set is [None]. *)
Record DraftAttachment : Type := {
  draft_filename : option jsstring;
  draft_data : option AttachmentData;
  draft_contentType : option jsstring
}.

Record Draft : Type := {
  draft_subject : option jsstring;
  draft_body : option jsstring;
  draft_to : option Recipients;
  draft_attachments : option (list DraftAttachment)
}.

Definition supportedMimeTypes : list jsstring :=
  [lit "text/plain"; lit "text/html"; lit "application/pdf";
   lit "image/jpeg"; lit "image/png"; lit "application/json";
   lit "application/xml"].

(** [!s || s.trim() === ""]. *)
Definition blank (s : option jsstring) : bool :=
  match s with
  | Some (c :: s') => str_eqb (trim (c :: s')) []
  | _ => true
  end.

(** [!to || to.length === 0]. *)
Definition no_recipient (to : option Recipients) : bool :=
  match to with
  | None => true
  | Some (RecipientText s) =>
      negb (truthy_str s) || (Z.of_nat (length s) =? 0)
  | Some (RecipientArray l) => Z.of_nat (length l) =? 0
  end.

(** [!attachment.data]: an [ArrayBuffer] is an object, hence truthy. *)
Definition data_missing (d : option AttachmentData) : bool :=
  match d with
  | Some (StringData s) => negb (truthy_str s)
  | Some (BufferData _) => false
  | None => true
  end.

(** What the callback of the [forEach] pushes for one attachment. *)
Definition attachment_errors (index : nat) (attachment : DraftAttachment)
  : list jsstring :=
  (if negb (truthy (draft_filename attachment)) then
     [lit "Attachment " ++ Number_toString (index + 1)
      ++ lit " is missing filename"]
   else [])
  ++ (if data_missing (draft_data attachment) then
        [lit "Attachment " ++ Number_toString (index + 1)
         ++ lit " is missing data"]
      else []).

Fixpoint forEach_errors (index : nat) (attachments : list DraftAttachment)
  : list jsstring :=
  match attachments with
  | [] => []
  | attachment :: rest =>
      attachment_errors index attachment ++ forEach_errors (S index) rest
  end.

Record Validation : Type := {
  isValid : bool;
  errors : list jsstring
}.

Definition validateEmailForEncryption (emailData : Draft) : Validation :=
  let errors :=
    (if blank (draft_subject emailData)
     then [lit "Email subject is required"] else [])
    ++ (if blank (draft_body emailData)
        then [lit "Email body is required"] else [])
    ++ (if no_recipient (draft_to emailData)
        then [lit "At least one recipient is required"] else [])
    ++ match draft_attachments emailData with
       | Some attachments => forEach_errors 0 attachments
       | None => []
       end in
  {| isValid := Z.of_nat (length errors) =? 0; errors := errors |}.

(** The object [generateEncryptionReport] returns; [None] for
    [report_error] is [null]. *)
Record Report : Type := {
  report_timestamp : jsstring;
  report_encryptionId : option jsstring;
  report_securityLevel : option jsstring;
  report_success : bool;
  subject_encrypted : bool;
  body_encrypted : bool;
  attachments_encrypted : Z;
  report_error : option jsstring
}.

Definition generateEncryptionReport {W} (svc : Services W)
    (encryptionResult : EncryptEmailResult) : M W Report :=
  now <- clock (toISOString svc) ;;
  ret match encryptionResult with
      | EncryptSuccess encryptedEmail encryptionId securityLevel =>
          {| report_timestamp := now;
             report_encryptionId := Some encryptionId;
             report_securityLevel := Some securityLevel;
             report_success := true;
             subject_encrypted := true;
             body_encrypted := true;
             attachments_encrypted :=
               match attachments encryptedEmail with
               | Some l => Z.of_nat (length l)
               | None => 0
               end;
             report_error := None |}
      | EncryptFailure error =>
          {| report_timestamp := now;
             report_encryptionId := None;
             report_securityLevel := None;
             report_success := false;
             subject_encrypted := true;
             body_encrypted := true;
             attachments_encrypted := 0;
             report_error := if truthy_str error then Some error else None |}
      end.

(** [headers[name]] of an object. *)
Fixpoint obj_get (o : list (jsstring * jsstring)) (k : jsstring)
  : option jsstring :=
  match o with
  | [] => None
  | (k', v) :: o' => if str_eqb k' k then Some v else obj_get o' k
  end.

End EncryptionEngine.

(** ** The services as the application wires them *)

Module QuMail.

Import EncryptionEngine.

(** The [securityService] object, and the world of the key manager,
    the clock and the random source. *)
Record World (W : Type) : Type := {
  security : SecurityService.Service;
  outside : W
}.
Arguments security {W} _.
Arguments outside {W} _.

(** What the wiring takes from outside the sources: [km_initialize]
    stands for [kmService.initialize()], [new_id] for the template
    [enc_${Date.now()}_${Math.random().toString(36).substr(2, 9)}],
    and [decrypt_buffer] for [securityService.decryptData] called with an
    [ArrayBuffer] as [encryptedData], which [atob] and CryptoJS convert
    in their own ways. *)
Record Platform (W : Type) : Type := {
  env : SecurityService.Env W;
  cipher : SecurityService.Cipher W;
  km_initialize : W -> W;
  new_id : W -> jsstring * W;
  decrypt_buffer : DecryptRequest -> M W SecurityService.DecryptedData
}.
Arguments env {W} _.
Arguments cipher {W} _.
Arguments km_initialize {W} _ _.
Arguments new_id {W} _ _.
Arguments decrypt_buffer {W} _ _.

Definition outside_world {W A} (c : M W A) : M (World W) A :=
  fun ww =>
    let (r, w') := c (outside ww) in
    (r, {| security := security ww; outside := w' |}).

(** The object the engine hands to [decryptData], with a string as
    [encryptedData]. *)
Definition sealed_request (encryptedData : jsstring)
    (request : DecryptRequest) : SecurityService.Sealed :=
  SecurityService.sealed_OTP
    {| SecurityService.encryptedData := encryptedData;
       SecurityService.securityLevel := req_securityLevel request;
       SecurityService.algorithm := req_algorithm request;
       SecurityService.quantumKeyId := req_quantumKeyId request;
       SecurityService.iv := None;
       SecurityService.timestamp := None;
       SecurityService.keySize := None;
       SecurityService.metadata := None |}.

(** [securityService] and [kmService] behind the engine:
    [encryptData(data, { securityLevel })] and [decryptData(request)]
    without options. *)
Definition services {W} (p : Platform W) : Services (World W) :=
  {| initialize_services :=
       fun ww =>
         {| security := SecurityService.initialize (security ww);
            outside := km_initialize p (outside ww) |};
     getCurrentSecurityLevel :=
       fun ww => SecurityService.getCurrentSecurityLevel (security ww);
     encryptData :=
       fun data securityLevel ww =>
         outside_world
           (sealed <-
              SecurityService.encryptData (env p) (cipher p) (security ww)
                data
                {| SecurityService.opt_securityLevel := Some securityLevel;
                   SecurityService.pqcPrivateKey := None;
                   SecurityService.rsaPrivateKey := None |} ;;
            ret (SecurityService.common sealed)) ww;
     decryptData :=
       fun request =>
         match req_encryptedData request with
         | StringData s =>
             outside_world
               (SecurityService.decryptData (env p) (cipher p)
                  (sealed_request s request) SecurityService.no_options)
         | BufferData _ => outside_world (decrypt_buffer p request)
         end;
     newEncryptionId :=
       fun ww =>
         let (id, w') := new_id p (outside ww) in
         (id, {| security := security ww; outside := w' |});
     toISOString :=
       fun ww =>
         let (now, w') := SecurityService.toISOString (env p) (outside ww) in
         (now, {| security := security ww; outside := w' |}) |}.

(** The wiring over the key manager that holds one key, with the
    stand-in for CryptoJS. *)
Definition single_key_platform (id key : jsstring) : Platform unit :=
  {| env := SecurityService.single_key_env id key;
     cipher := SecurityService.stub_cipher;
     km_initialize := fun w => w;
     new_id := fun w => (lit "enc_1_abcdefghi", w);
     decrypt_buffer := fun _ => throw InvalidCharacterError |}.

Definition start : World unit :=
  {| security := SecurityService.new_Service; outside := tt |}.

End QuMail.

(** ** [EmailService], the mock of the front end *)

Module EmailService.

(** The properties of an account configuration that the service
    reads; one that is not set is [None]. *)
Record AccountConfig : Type := {
  id : option jsstring;
  email : option jsstring;
  provider : option jsstring
}.

(** A value of [this.accounts]. *)
Record Account : Type := {
  config : AccountConfig;
  status : jsstring;
  lastActivity : jsstring;
  mode : jsstring
}.

(** [this.accounts], a [Map]: its entries in insertion order. *)
Definition Accounts : Type := list (jsstring * Account).

Fixpoint Map_get (m : Accounts) (k : jsstring) : option Account :=
  match m with
  | [] => None
  | (k', v) :: m' => if str_eqb k' k then Some v else Map_get m' k
  end.

Fixpoint Map_set (m : Accounts) (k : jsstring) (v : Account) : Accounts :=
  match m with
  | [] => [(k, v)]
  | (k', v') :: m' =>
      if str_eqb k' k then (k, v) :: m' else (k', v') :: Map_set m' k v
  end.

Fixpoint Map_delete (m : Accounts) (k : jsstring) : Accounts :=
  match m with
  | [] => []
  | (k', v) :: m' =>
      if str_eqb k' k then m' else (k', v) :: Map_delete m' k
  end.

(** The service object. *)
Record Service : Type := {
  accounts : Accounts;
  isInitialized : bool
}.

Definition new_Service : Service :=
  {| accounts := []; isInitialized := false |}.

(** [required.every((field) => config[field])]. *)
Definition validateAccountConfig (config : AccountConfig) : bool :=
  truthy (id config) && truthy (email config) && truthy (provider config).

Inductive ConfigureResult : Type :=
| Configured (message accountId : jsstring)
| ConfigureFailed (error : jsstring).

(** [configureAccount(accountConfig)]; [now] is [new Date()]. *)
Definition configureAccount (now : jsstring) (accountConfig : AccountConfig)
    (this : Service) : ConfigureResult * Service :=
  if negb (validateAccountConfig accountConfig) then
    (ConfigureFailed (lit "Invalid account configuration"), this)
  else
    let key := match id accountConfig with Some k => k | None => [] end in
    (Configured (lit "Email account configured successfully (Mock)") key,
     {| accounts :=
          Map_set (accounts this) key
            {| config := accountConfig;
               status := lit "connected";
               lastActivity := now;
               mode := lit "mock" |};
        isInitialized := isInitialized this |}).

(** A property of an email that [validateEmailData] reads: a string
    or an array of strings. *)
Inductive FieldValue : Type :=
| Text (s : jsstring)
| TextArray (l : list jsstring).

(** [Array.prototype.toString]: the elements joined by commas. *)
Fixpoint join (l : list jsstring) : jsstring :=
  match l with
  | [] => []
  | [s] => s
  | s :: rest => s ++ 44 :: join rest
  end.

Definition toString (v : FieldValue) : jsstring :=
  match v with
  | Text s => s
  | TextArray l => join l
  end.

(** [emailData[field] && emailData[field].toString().trim()], as a
    condition: an array is an object, hence truthy. *)
Definition field_ok (v : option FieldValue) : bool :=
  match v with
  | None => false
  | Some (Text s) => truthy_str s && truthy_str (trim s)
  | Some (TextArray l) => truthy_str (trim (join l))
  end.

Record EmailData : Type := {
  to : option FieldValue;
  subject : option FieldValue;
  body : option FieldValue
}.

Definition validateEmailData (emailData : EmailData) : bool :=
  field_ok (to emailData) && field_ok (subject emailData)
  && field_ok (body emailData).

Inductive SendResult : Type :=
| Sent (messageId message : jsstring)
| SendFailed (error : jsstring).

(** [sendEmail(accountId, emailData)]; [Date_now] is the text of
    [Date.now()] and [random] that of [Math.random().toString(36)]. *)
Definition sendEmail (Date_now random : jsstring) (accountId : jsstring)
    (emailData : EmailData) (this : Service) : SendResult :=
  match Map_get (accounts this) accountId with
  | None => SendFailed (lit "Account not configured")
  | Some account =>
      if negb (validateEmailData emailData) then
        SendFailed (lit "Invalid email data")
      else
        Sent (lit "<" ++ Date_now ++ lit "." ++ random ++ lit "@qumail.mock>")
          (lit "Email sent successfully (Mock)")
  end.

Record Folder : Type := {
  name : jsstring;
  path : jsstring;
  type : jsstring;
  unreadCount : Z
}.

Inductive FoldersResult : Type :=
| Folders (folders : list Folder)
| FoldersFailed (error : jsstring).

Definition getFolders (accountId : jsstring) (this : Service)
  : FoldersResult :=
  match Map_get (accounts this) accountId with
  | None => FoldersFailed (lit "Account not configured")
  | Some account =>
      Folders
        [{| name := lit "INBOX"; path := lit "INBOX"; type := lit "inbox";
            unreadCount := 5 |};
         {| name := lit "Sent"; path := lit "INBOX.Sent";
            type := lit "sent"; unreadCount := 0 |};
         {| name := lit "Drafts"; path := lit "INBOX.Drafts";
            type := lit "drafts"; unreadCount := 0 |};
         {| name := lit "Trash"; path := lit "INBOX.Trash";
            type := lit "trash"; unreadCount := 0 |};
         {| name := lit "Quantum Secure"; path := lit "INBOX.QuantumSecure";
            type := lit "custom"; unreadCount := 2 |};
         {| name := lit "Archive"; path := lit "INBOX.Archive";
            type := lit "custom"; unreadCount := 0 |}]
  end.

(** The object [getConnectionStatus] returns; [imap] and [smtp] hold
    the [lastActivity] of the account, [None] for [null]. *)
Record ConnectionStatus : Type := {
  status_accountId : jsstring;
  imap : option jsstring;
  smtp : option jsstring;
  isConnected : bool;
  status_mode : jsstring
}.

Definition getConnectionStatus (accountId : jsstring) (this : Service)
  : ConnectionStatus :=
  let account := Map_get (accounts this) accountId in
  {| status_accountId := accountId;
     imap := option_map lastActivity account;
     smtp := option_map lastActivity account;
     isConnected := match account with Some _ => true | None => false end;
     status_mode := lit "mock" |}.

Definition disconnectAccount (accountId : jsstring) (this : Service)
  : Service :=
  {| accounts := Map_delete (accounts this) accountId;
     isInitialized := isInitialized this |}.

End EmailService.

(** ** [SecurityService], the mock of the front end *)

Module MockSecurityService.

(** [n.toString(16).padStart(4, "0")] for a code unit. *)
Definition hex4 (c : Z) : jsstring :=
  [KMService.hex_digit (c / 4096); KMService.hex_digit ((c / 256) mod 16);
   KMService.hex_digit ((c / 16) mod 16); KMService.hex_digit (c mod 16)].

(** [\uXXXX]. *)
Definition UnicodeEscape (c : Z) : jsstring := 92 :: 117 :: hex4 c.

(** One code point that is no surrogate, inside a JSON string. *)
Definition quote_unit (c : Z) : jsstring :=
  if c =? 8 then [92; 98]
  else if c =? 9 then [92; 116]
  else if c =? 10 then [92; 110]
  else if c =? 12 then [92; 102]
  else if c =? 13 then [92; 114]
  else if c =? 34 then [92; 34]
  else if c =? 92 then [92; 92]
  else if c <? 32 then UnicodeEscape c
  else [c].

(** The inside of [QuoteJSONString]: a surrogate pair is kept, an
    unpaired surrogate is escaped. *)
Fixpoint quote_units (s : jsstring) : jsstring :=
  match s with
  | [] => []
  | c :: rest =>
      if is_lead c then
        match rest with
        | d :: rest' =>
            if is_trail d then c :: d :: quote_units rest'
            else UnicodeEscape c ++ quote_units rest
        | [] => UnicodeEscape c
        end
      else if is_trail c then UnicodeEscape c ++ quote_units rest
      else quote_unit c ++ quote_units rest
  end.

(** [JSON.stringify] of a string. *)
Definition QuoteJSONString (s : jsstring) : jsstring :=
  34 :: quote_units s ++ [34].

(** [JSON.stringify({ original, timestamp, securityLevel })] for three
    strings. *)
Definition stringify_payload (original timestamp securityLevel : jsstring)
  : jsstring :=
  lit "{" ++ QuoteJSONString (lit "original") ++ lit ":"
  ++ QuoteJSONString original
  ++ lit "," ++ QuoteJSONString (lit "timestamp") ++ lit ":"
  ++ QuoteJSONString timestamp
  ++ lit "," ++ QuoteJSONString (lit "securityLevel") ++ lit ":"
  ++ QuoteJSONString securityLevel ++ lit "}".

Record Service : Type := {
  currentSecurityLevel : jsstring;
  isInitialized : bool
}.

Definition new_Service : Service :=
  {| currentSecurityLevel := SecurityService.QUANTUM_SECURE;
     isInitialized := false |}.

(** [this.supportedAlgorithms[securityLevel] || []]. *)
Definition getSupportedAlgorithms (securityLevel : jsstring)
  : list jsstring :=
  if str_eqb securityLevel SecurityService.QUANTUM_SECURE then [lit "OTP"]
  else if str_eqb securityLevel SecurityService.QUANTUM_AES then
    [lit "AES-256-GCM"; lit "AES-192-GCM"]
  else if str_eqb securityLevel SecurityService.PQC_ENCRYPTION then
    [lit "Kyber"; lit "Dilithium"; lit "AES-256"]
  else if str_eqb securityLevel SecurityService.NO_QUANTUM then
    [lit "AES-256-GCM"; lit "RSA-2048"]
  else [].

(** What one call of [encryptData] reads from the clock and the
    random source: the text of [enc_${Date.now()}_${...}] and the two
    results of [new Date().toISOString()]. *)
Record Reading : Type := {
  encryptionId : jsstring;
  first_timestamp : jsstring;
  second_timestamp : jsstring
}.

Record Metadata : Type := {
  originalSize : Z;
  encryptedSize : Z;
  compressionRatio : Z
}.

Record Encrypted : Type := {
  encryptedData : jsstring;
  encrypted_encryptionId : jsstring;
  securityLevel : jsstring;
  algorithm : option jsstring;
  timestamp : jsstring;
  keyId : jsstring;
  metadata : Metadata
}.

(** [encryptData(data, securityLevel)] for a string [data];
    [securityLevel] is [None] when the caller leaves it out.  The
    service is initialized before anything can throw. *)
Definition encryptData (reading : Reading) (data : jsstring)
    (securityLevel : option jsstring) (this : Service)
  : result Encrypted * Service :=
  let this' :=
    {| currentSecurityLevel := currentSecurityLevel this;
       isInitialized := true |} in
  let securityLevel :=
    match securityLevel with
    | Some l => l
    | None => currentSecurityLevel this
    end in
  match btoa (stringify_payload data (first_timestamp reading)
                securityLevel) with
  | Throw message => (Throw message, this')
  | Ok mockEncryptedData =>
      (Ok {| encryptedData := mockEncryptedData;
             encrypted_encryptionId := encryptionId reading;
             securityLevel := securityLevel;
             algorithm := nth_error (getSupportedAlgorithms securityLevel) 0;
             timestamp := second_timestamp reading;
             keyId := lit "key_" ++ encryptionId reading;
             metadata :=
               {| originalSize := Z.of_nat (length data);
                  encryptedSize := Z.of_nat (length mockEncryptedData);
                  compressionRatio := 1 |} |},
       this')
  end.

End MockSecurityService.

(** * Definitions for the statements and their proofs *)

(** ** Exhaustive checks over a range *)

(** [all_in lo k P]: [P] holds on the [2 ^ k] values from [lo] on. *)
Fixpoint all_in (lo : Z) (k : nat) (P : Z -> bool) : bool :=
  match k with
  | O => P lo
  | S k' => all_in lo k' P && all_in (lo + 2 ^ Z.of_nat k') k' P
  end.

(** ** Base64 *)

Definition sextet (n : Z) : Prop := 0 <= n < 64.

(** The six-bit values [b64_encode] writes, and its padding. *)
Fixpoint b64_sextets (bs : list Z) : list Z :=
  match bs with
  | [] => []
  | [a] => [Z.shiftr a 2; Z.shiftl (Z.land a 3) 4]
  | [a; b] =>
      [Z.shiftr a 2;
       Z.lor (Z.shiftl (Z.land a 3) 4) (Z.shiftr b 4);
       Z.shiftl (Z.land b 15) 2]
  | a :: b :: c :: rest =>
      Z.shiftr a 2
      :: Z.lor (Z.shiftl (Z.land a 3) 4) (Z.shiftr b 4)
      :: Z.lor (Z.shiftl (Z.land b 15) 2) (Z.shiftr c 6)
      :: Z.land c 63
      :: b64_sextets rest
  end.

Fixpoint b64_padding (bs : list Z) : jsstring :=
  match bs with
  | [] => []
  | [_] => [pad_char; pad_char]
  | [_; _] => [pad_char]
  | _ :: _ :: _ :: rest => b64_padding rest
  end.

Definition plain (c : Z) : Prop :=
  is_ascii_whitespace c = false /\ (c =? pad_char) = false.

(** ** UTF-8 *)

Definition is_scalar (cp : Z) : Prop :=
  0 <= cp < 0xD800 \/ 0xE000 <= cp < 0x110000.

Definition is_scalarb (cp : Z) : bool :=
  ((0 <=? cp) && (cp <? 0xD800)) || ((0xE000 <=? cp) && (cp <? 0x110000)).

(** The decoder run over a prefix of the input. *)
Fixpoint utf8_steps (st : utf8_state) (bs : list Z) : list Z * utf8_state :=
  match bs with
  | [] => ([], st)
  | b :: bs' =>
      let (out, st') := utf8_step st b in
      let (out', st'') := utf8_steps st' bs' in
      (out ++ out', st'')
  end.

Definition state_eqb (s t : utf8_state) : bool :=
  (code_point s =? code_point t) && (bytes_seen s =? bytes_seen t)
  && (bytes_needed s =? bytes_needed t)
  && (lower_boundary s =? lower_boundary t)
  && (upper_boundary s =? upper_boundary t).

(** One scalar value: its encoding consists of bytes and decodes to it. *)
Definition utf8_check (cp : Z) : bool :=
  if is_scalarb cp then
    let (out, st) := utf8_steps utf8_init (utf8_encode_cp cp) in
    match out with
    | [c] =>
        (c =? cp) && state_eqb st utf8_init
        && forallb (fun b => (0 <=? b) && (b <? 256)) (utf8_encode_cp cp)
    | _ => false
    end
  else true.

(** ** One-time pad *)

(** What the loop computes: the key runs out where [k] ends. *)
Fixpoint xor_pad (a k : list Z) : list Z :=
  match a, k with
  | [], _ => []
  | x :: a', [] => x :: a'
  | x :: a', y :: k' => Z.lxor x y :: xor_pad a' k'
  end.

(** The key [AQIDBAUGBwg=] holds the bytes 1 to 8. *)
Definition eight_bytes : jsstring := lit "AQIDBAUGBwg=".

Definition lone_surrogate : jsstring := [0xD800].
Definition bom_hi : jsstring := BOM :: lit "hi".

Definition short_key_payload : SecurityService.EncryptedData :=
  {| SecurityService.encryptedData := eight_bytes;
     SecurityService.securityLevel := Some SecurityService.QUANTUM_SECURE;
     SecurityService.algorithm := Some (lit "OTP");
     SecurityService.quantumKeyId := Some (lit "k1");
     SecurityService.iv := None;
     SecurityService.timestamp := None;
     SecurityService.keySize := None;
     SecurityService.metadata := None |}.

(** The cipher bytes E3 80 AF 41. *)
Definition euro_payload : SecurityService.EncryptedData :=
  {| SecurityService.encryptedData := lit "44CvQQ==";
     SecurityService.securityLevel := Some SecurityService.QUANTUM_SECURE;
     SecurityService.algorithm := Some (lit "OTP");
     SecurityService.quantumKeyId := Some (lit "k1");
     SecurityService.iv := None;
     SecurityService.timestamp := None;
     SecurityService.keySize := None;
     SecurityService.metadata := None |}.

Definition stub_payload : SecurityService.EncryptedData :=
  {| SecurityService.encryptedData := lit "aGk=";
     SecurityService.securityLevel := Some SecurityService.QUANTUM_AES;
     SecurityService.algorithm := Some (lit "AES-256-GCM");
     SecurityService.quantumKeyId := Some (lit "k1");
     SecurityService.iv := Some (lit "00");
     SecurityService.timestamp := None;
     SecurityService.keySize := Some 256;
     SecurityService.metadata := None |}.

(** ** Key pool *)

Section PoolDefinitions.
Import KeyManagerServer.

Definition mark (kv : jsstring * KeyEntry) : jsstring * KeyEntry :=
  (fst kv, set_used (snd kv) true).

(** The keys read through a reference, and their ids. *)
Definition key_out_at (db : KeyDatabase) (ref : nat) : list KeyOut :=
  match nth_error db ref with
  | Some (_, e) => [key_out e]
  | None => []
  end.

Definition id_at (db : KeyDatabase) (ref : nat) : list jsstring :=
  match nth_error db ref with
  | Some (_, e) => [keyId e]
  | None => []
  end.

(** No two records of the pool carry the same [keyId]. *)
Definition ids_distinct (db : KeyDatabase) : Prop :=
  forall i j kv kv',
    nth_error db i = Some kv -> nth_error db j = Some kv' ->
    keyId (snd kv) = keyId (snd kv') -> i = j.

(** [id] belongs to a record that has not been handed out. *)
Definition unused_id (db : KeyDatabase) (id : jsstring) : Prop :=
  exists j kv, nth_error db j = Some kv /\ keyId (snd kv) = id
               /\ used (snd kv) = false.

(** From [db] to [db']: every record keeps its place and its [keyId],
    and a record that is used stays used. *)
Definition evolves (db db' : KeyDatabase) : Prop :=
  forall j,
    match nth_error db j, nth_error db' j with
    | Some kv, Some kv' =>
        keyId (snd kv') = keyId (snd kv)
        /\ (used (snd kv) = true -> used (snd kv') = true)
    | None, None => True
    | _, _ => False
    end.

(** The references a successful request takes. *)
Definition taken (e : Endpoint) (req : KeyRequest) (db : KeyDatabase)
  : list nat :=
  firstn (Z.to_nat (requested req))
    (availableKeys (endpoint_type e) (requested_size e req) db).

Definition sample_requests : list (Endpoint * KeyRequest * Draw) :=
  [(OtpKeys, ask 2, fixed_draw); (EncKeys, ask 1, fixed_draw);
   (OtpKeys, ask 1, fixed_draw); (OtpKeys, ask 1, fixed_draw)].

End PoolDefinitions.

(** ** The mock key manager *)

(** A lowercase hexadecimal digit. *)
Definition is_hex (c : Z) : Prop := 48 <= c <= 57 \/ 97 <= c <= 102.

(** ** The four levels *)

Section LevelDefinitions.
Import SecurityService.

(** [options.securityLevel || this.currentSecurityLevel]. *)
Definition level_to_encrypt (this : Service) (options : Options) : jsstring :=
  match opt_securityLevel options with
  | Some (c :: l) => c :: l
  | _ => currentSecurityLevel this
  end.

(** The service after a sequence of calls of [setSecurityLevel]; a call
    that throws leaves the service as it was. *)
Definition after_calls (levels : list (option jsstring)) (this : Service)
  : Service :=
  fold_left
    (fun this level =>
       match setSecurityLevel level this with
       | Ok this' => this'
       | Throw _ => this
       end)
    levels this.

End LevelDefinitions.

(** ** The body of a message *)

(** [s] and [p] differ at a position both have. *)
Fixpoint mismatch (s p : jsstring) : bool :=
  match s, p with
  | c :: s', d :: p' => negb (c =? d) || mismatch s' p'
  | _, _ => false
  end.

(** No position of [a] can begin an occurrence of [p], whatever
    follows [a]. *)
Fixpoint clear_of (a p : jsstring) : bool :=
  match a with
  | [] => true
  | _ :: a' => mismatch a p && clear_of a' p
  end.

Definition marker : jsstring := lit "QuMail-Encrypted-Body:".

(** A character that is neither white space nor [<]. *)
Definition solid (c : Z) : Prop := is_js_space c = false /\ c <> 60.

(** A character of base64 text: a letter, a digit, [+], [/] or [=]. *)
Definition b64_text_char (c : Z) : Prop :=
  65 <= c <= 90 \/ 97 <= c <= 122 \/ 48 <= c <= 57
  \/ c = 43 \/ c = 47 \/ c = 61.

(** ** Encrypted messages *)

Section MessageDefinitions.
Import EncryptionEngine.

(** The email [encryptEmail] builds from the encrypted parts. *)
Definition encrypted_email (emailData : Email)
    (encryptedSubject encryptedBody : EncryptedPart)
    (encryptedAttachments : list Attachment)
    (encryptionId securityLevel now : jsstring) : Email :=
  {| subject := formatEncryptedSubject encryptedSubject;
     body := formatEncryptedBody encryptedBody;
     attachments := Some encryptedAttachments;
     email_encrypted := Some true;
     encryptionMetadata :=
       Some {| encryptionId := encryptionId;
               level := securityLevel;
               created := now;
               version := lit "1.0";
               components :=
                 Some {| subject_metadata := Some (part_meta encryptedSubject);
                         body_metadata := Some (part_meta encryptedBody);
                         attachments_metadata :=
                           Some (map metadata encryptedAttachments) |} |};
     originalEncryptionMetadata := originalEncryptionMetadata emailData;
     headers :=
       obj_set
         (obj_set
            (obj_set
               (obj_set (headers emailData)
                  (lit "X-QuMail-Encrypted") (lit "true"))
               (lit "X-QuMail-Security-Level") securityLevel)
            (lit "X-QuMail-Encryption-Id") encryptionId)
         (lit "X-QuMail-Version") (lit "1.0");
     other := other emailData |}.

(** The attachments of an email that has some, through
    [encryptAttachments]; none otherwise. *)
Definition encrypt_attachments_of {W} (svc : Services W) (emailData : Email)
    (securityLevel : jsstring) : M W (list Attachment) :=
  match attachments emailData with
  | Some (a :: l) => encryptAttachments svc (a :: l) securityLevel
  | _ => ret []
  end.

End MessageDefinitions.

(** ** Validation and accounts *)

(** A string holds a character that is no white space. *)
Definition has_text (s : jsstring) : Prop :=
  exists c, In c s /\ is_js_space c = false.

Section AccountDefinitions.
Import EmailService.

(** What a [Map] guarantees: one entry per key. *)
Definition keys_distinct (m : Accounts) : Prop := NoDup (map fst m).

(** A call of [configureAccount] or of [disconnectAccount]. *)
Inductive Call : Type :=
| Configure (now : jsstring) (accountConfig : AccountConfig)
| Disconnect (accountId : jsstring).

Definition call (this : Service) (c : Call) : Service :=
  match c with
  | Configure now accountConfig =>
      snd (configureAccount now accountConfig this)
  | Disconnect accountId => disconnectAccount accountId this
  end.

End AccountDefinitions.

Section MockSecurityDefinitions.
Import MockSecurityService.

(** The level [encryptData] works with: the argument, or the current
    level when the caller leaves it out. *)
Definition level_used (securityLevel : option jsstring) (this : Service)
  : jsstring :=
  match securityLevel with
  | Some l => l
  | None => currentSecurityLevel this
  end.

End MockSecurityDefinitions.

(** ** Inputs of the further concrete runs *)

Fixpoint all_distinct (l : list jsstring) : bool :=
  match l with
  | [] => true
  | x :: l' => negb (existsb (str_eqb x) l') && all_distinct l'
  end.

Section PoolInputs.
Import KeyManagerServer.

(** A random source whose [i]-th UUID ends in the two digits of [i]. *)
Definition numbered_draw (i : nat) : Draw :=
  {| randomUUID :=
       lit "00000000-0000-4000-8000-0000000000"
       ++ [48 + Z.of_nat (i / 10); 48 + Z.of_nat (i mod 10)];
     randomBytes := fun n => repeat 0 (Z.to_nat n);
     toISOString := lit "2025-01-01T00:00:00.000Z" |}.

End PoolInputs.

Section SecurityInputs.
Import SecurityService.

Definition one_key_env : Env unit := single_key_env (lit "k1") eight_bytes.

End SecurityInputs.

Section EngineInputs.
Import EncryptionEngine QuMail.

Definition one_key_platform : Platform unit :=
  single_key_platform (lit "k1") eight_bytes.

Definition level_1_metadata : Metadata :=
  {| algorithm := Some (lit "OTP");
     securityLevel := Some SecurityService.QUANTUM_SECURE;
     quantumKeyId := Some (lit "k1");
     timestamp := Some (lit "2025-01-01T00:00:00.000Z");
     isHtml := None;
     originalSize := None;
     originalContentType := None |}.

Definition headed_email : Email :=
  {| subject := lit "Hi";
     body := lit "Body text";
     attachments := None;
     email_encrypted := None;
     encryptionMetadata := None;
     originalEncryptionMetadata := None;
     headers := [(lit "X-Mailer", lit "QuMail");
                 (lit "X-QuMail-Version", lit "0.9")];
     other := [] |}.

Definition short_email : Email :=
  {| subject := lit "Hi";
     body := lit "yo";
     attachments := None;
     email_encrypted := None;
     encryptionMetadata := None;
     originalEncryptionMetadata := None;
     headers := [];
     other := [] |}.

Definition level_1_start : State (World unit) :=
  {| isInitialized := false; world := start |}.

End EngineInputs.

Section AccountInputs.
Import EmailService.

Definition alice : AccountConfig :=
  {| id := Some (lit "acc1");
     email := Some (lit "alice@example.com");
     provider := Some (lit "gmail") |}.

Definition greeting : EmailData :=
  {| to := Some (TextArray [lit "bob@example.com"]);
     subject := Some (Text (lit "Hi"));
     body := Some (Text (lit "Body text")) |}.

End AccountInputs.

Section MockSecurityInputs.
Import MockSecurityService.

Definition sample_reading : Reading :=
  {| encryptionId := lit "enc_1735689600000_abcdefghi";
     first_timestamp := lit "2025-01-01T00:00:00.000Z";
     second_timestamp := lit "2025-01-01T00:00:00.001Z" |}.

(** U+03A9, the Greek capital omega. *)
Definition capital_omega : jsstring := [937].

End MockSecurityInputs.

(** * Facts about the platform layer *)

Lemma all_in_spec (P : Z -> bool) (k : nat) :
  forall lo, all_in lo k P = true ->
  forall x, lo <= x < lo + 2 ^ Z.of_nat k -> P x = true.
Proof.
  induction k as [|k IH]; intros lo H x Hx.
  - simpl in *. replace x with lo by lia. exact H.
  - cbn [all_in] in H. apply andb_true_iff in H as [H1 H2].
    rewrite Nat2Z.inj_succ, Z.pow_succ_r in Hx by lia.
    destruct (Z_lt_le_dec x (lo + 2 ^ Z.of_nat k)).
    + apply (IH lo H1). lia.
    + apply (IH _ H2). lia.
Qed.

Lemma b64_value_char (n : Z) : 0 <= n < 64 -> b64_value (b64_char n) = Some n.
Proof.
  intros H.
  pose (chk := fun n =>
    match b64_value (b64_char n) with
    | Some m => m =? n
    | None => false
    end).
  assert (C : chk n = true)
    by (apply (all_in_spec chk 6 0); [vm_compute; reflexivity|cbn; lia]).
  unfold chk in C. destruct (b64_value (b64_char n)); [|discriminate].
  apply Z.eqb_eq in C. now subst.
Qed.

Lemma list_ind3 {A} (P : list A -> Prop) :
  P [] -> (forall a, P [a]) -> (forall a b, P [a; b]) ->
  (forall a b c r, P r -> P (a :: b :: c :: r)) ->
  forall l, P l.
Proof.
  intros H0 H1 H2 H3. fix IH 1.
  intros [|a [|b [|c r]]];
    [exact H0 | apply H1 | apply H2 | apply H3, IH].
Qed.

Lemma b64_char_plain (n : Z) :
  sextet n ->
  is_ascii_whitespace (b64_char n) = false /\ (b64_char n =? pad_char) = false.
Proof.
  intros H.
  apply (all_in_spec
           (fun n => negb (is_ascii_whitespace (b64_char n))
                     && negb (b64_char n =? pad_char)) 6 0) in H.
  - apply andb_true_iff in H as [H1 H2].
    now apply negb_true_iff in H1; apply negb_true_iff in H2.
  - vm_compute. reflexivity.
Qed.

(** The bit arithmetic of one group, checked on every value. *)
Lemma group_first (a x : Z) :
  is_byte a -> 0 <= x < 16 ->
  let s2 := Z.lor (Z.shiftl (Z.land a 3) 4) x in
  sextet (Z.shiftr a 2) /\ sextet s2
  /\ Z.lor (Z.shiftl (Z.shiftr a 2) 2) (Z.shiftr s2 4) = a
  /\ Z.land s2 15 = x.
Proof.
  intros Ha Hx.
  pose (chk := fun a x =>
    let s1 := Z.shiftr a 2 in
    let s2 := Z.lor (Z.shiftl (Z.land a 3) 4) x in
    (0 <=? s1) && (s1 <? 64) && (0 <=? s2) && (s2 <? 64)
    && (Z.lor (Z.shiftl s1 2) (Z.shiftr s2 4) =? a) && (Z.land s2 15 =? x)).
  assert (H : chk a x = true).
  { apply (all_in_spec (chk a) 4 0); [|cbn; lia].
    apply (all_in_spec (fun a => all_in 0 4 (chk a)) 8 0);
      [vm_compute; reflexivity | unfold is_byte in Ha; cbn; lia]. }
  unfold chk in H. cbv zeta in *. unfold sextet.
  repeat (apply andb_true_iff in H; destruct H as [H ?]). lia.
Qed.

Lemma group_second (b y : Z) :
  is_byte b -> 0 <= y < 4 ->
  let s3 := Z.lor (Z.shiftl (Z.land b 15) 2) y in
  0 <= Z.shiftr b 4 < 16 /\ sextet s3
  /\ Z.lor (Z.shiftl (Z.shiftr b 4) 4) (Z.shiftr s3 2) = b
  /\ Z.land s3 3 = y.
Proof.
  intros Hb Hy.
  pose (chk := fun b y =>
    let x := Z.shiftr b 4 in
    let s3 := Z.lor (Z.shiftl (Z.land b 15) 2) y in
    (0 <=? x) && (x <? 16) && (0 <=? s3) && (s3 <? 64)
    && (Z.lor (Z.shiftl x 4) (Z.shiftr s3 2) =? b) && (Z.land s3 3 =? y)).
  assert (H : chk b y = true).
  { apply (all_in_spec (chk b) 2 0); [|cbn; lia].
    apply (all_in_spec (fun b => all_in 0 2 (chk b)) 8 0);
      [vm_compute; reflexivity | unfold is_byte in Hb; cbn; lia]. }
  unfold chk in H. cbv zeta in *. unfold sextet.
  repeat (apply andb_true_iff in H; destruct H as [H ?]). lia.
Qed.

Lemma group_third (c : Z) :
  is_byte c ->
  0 <= Z.shiftr c 6 < 4 /\ sextet (Z.land c 63)
  /\ Z.lor (Z.shiftl (Z.shiftr c 6) 6) (Z.land c 63) = c.
Proof.
  intros Hc.
  pose (chk := fun c =>
    let y := Z.shiftr c 6 in
    let s4 := Z.land c 63 in
    (0 <=? y) && (y <? 4) && (0 <=? s4) && (s4 <? 64)
    && (Z.lor (Z.shiftl y 6) s4 =? c)).
  assert (H : chk c = true).
  { apply (all_in_spec chk 8 0);
      [vm_compute; reflexivity | unfold is_byte in Hc; cbn; lia]. }
  unfold chk in H. cbv zeta in *. unfold sextet.
  repeat (apply andb_true_iff in H; destruct H as [H ?]). lia.
Qed.

Lemma b64_encode_split (bs : list Z) :
  b64_encode bs = map b64_char (b64_sextets bs) ++ b64_padding bs.
Proof.
  induction bs as [|a|a b|a b c r IH] using list_ind3; try reflexivity.
  cbn [b64_encode b64_sextets b64_padding map app]. now rewrite IH.
Qed.

Lemma b64_sextets_range (bs : list Z) :
  Forall is_byte bs -> Forall sextet (b64_sextets bs).
Proof.
  induction bs as [|a|a b|a b c r IH] using list_ind3; intros H.
  - constructor.
  - inversion_clear H as [|? ? Ha _].
    destruct (group_first a 0 Ha ltac:(lia)) as (H1 & H2 & _).
    cbv zeta in H2. rewrite Z.lor_0_r in H2. cbn [b64_sextets].
    repeat (apply Forall_cons; [assumption|]). apply Forall_nil.
  - inversion_clear H as [|? ? Ha H']. inversion_clear H' as [|? ? Hb _].
    destruct (group_second b 0 Hb ltac:(lia)) as (Hx & H3 & _).
    destruct (group_first a _ Ha Hx) as (H1 & H2 & _).
    cbv zeta in H3. rewrite Z.lor_0_r in H3. cbn [b64_sextets].
    repeat (apply Forall_cons; [assumption|]). apply Forall_nil.
  - inversion_clear H as [|? ? Ha H']. inversion_clear H' as [|? ? Hb H''].
    inversion_clear H'' as [|? ? Hc Hr].
    destruct (group_third c Hc) as (Hy & H4 & _).
    destruct (group_second b _ Hb Hy) as (Hx & H3 & _).
    destruct (group_first a _ Ha Hx) as (H1 & H2 & _).
    cbn [b64_sextets]. repeat (apply Forall_cons; [assumption|]). auto.
Qed.

Lemma b64_decode_sextets (bs : list Z) :
  Forall is_byte bs -> b64_decode (b64_sextets bs) = bs.
Proof.
  induction bs as [|a|a b|a b c r IH] using list_ind3; intros H.
  - reflexivity.
  - inversion_clear H as [|? ? Ha _].
    destruct (group_first a 0 Ha ltac:(lia)) as (_ & _ & H1 & _).
    cbv zeta in H1. rewrite Z.lor_0_r in H1.
    cbn [b64_sextets b64_decode]. now rewrite H1.
  - inversion_clear H as [|? ? Ha H']. inversion_clear H' as [|? ? Hb _].
    destruct (group_second b 0 Hb ltac:(lia)) as (Hx & _ & H2 & _).
    destruct (group_first a _ Ha Hx) as (_ & _ & H1 & H1').
    cbv zeta in *. rewrite Z.lor_0_r in H2.
    cbn [b64_sextets b64_decode]. now rewrite H1, H1', H2.
  - inversion_clear H as [|? ? Ha H']. inversion_clear H' as [|? ? Hb H''].
    inversion_clear H'' as [|? ? Hc Hr].
    destruct (group_third c Hc) as (Hy & _ & H3).
    destruct (group_second b _ Hb Hy) as (Hx & _ & H2 & H2').
    destruct (group_first a _ Ha Hx) as (_ & _ & H1 & H1').
    cbv zeta in *.
    cbn [b64_sextets b64_decode]. rewrite H1, H1', H2, H2', H3, IH; auto.
Qed.

Lemma b64_values_chars (vs : list Z) :
  Forall sextet vs -> b64_values (map b64_char vs) = Some vs.
Proof.
  induction 1 as [|v vs Hv _ IH]; [reflexivity|].
  cbn. now rewrite b64_value_char, IH.
Qed.

Lemma plain_chars (vs : list Z) :
  Forall sextet vs -> Forall plain (map b64_char vs).
Proof.
  induction 1 as [|v vs Hv _ IH]; constructor; auto.
  now apply b64_char_plain.
Qed.

Lemma b64_padding_cases (bs : list Z) :
  (b64_padding bs = [] /\ exists n, length (b64_sextets bs) = (4 * n)%nat)
  \/ (b64_padding bs = [pad_char]
      /\ exists n, length (b64_sextets bs) = (4 * n + 3)%nat)
  \/ (b64_padding bs = [pad_char; pad_char]
      /\ exists n, length (b64_sextets bs) = (4 * n + 2)%nat).
Proof.
  induction bs as [|a|a b|a b c r IH] using list_ind3.
  - left. split; [reflexivity|]. now exists 0%nat.
  - right. right. split; [reflexivity|]. now exists 0%nat.
  - right. left. split; [reflexivity|]. now exists 0%nat.
  - cbn [b64_padding b64_sextets length].
    destruct IH as [[-> [n E]]|[[-> [n E]]|[-> [n E]]]]; rewrite E.
    + left. split; [reflexivity|]. exists (S n). lia.
    + right. left. split; [reflexivity|]. exists (S n). lia.
    + right. right. split; [reflexivity|]. exists (S n). lia.
Qed.

Lemma filter_plain (s : jsstring) :
  Forall (fun c => is_ascii_whitespace c = false) s ->
  filter (fun c => negb (is_ascii_whitespace c)) s = s.
Proof.
  induction 1 as [|c s Hc _ IH]; [reflexivity|].
  cbn. now rewrite Hc, IH.
Qed.

Lemma rev_plain (s : jsstring) :
  Forall plain s ->
  rev s = [] \/ exists c r, rev s = c :: r /\ (c =? pad_char) = false.
Proof.
  intros H. apply Forall_rev in H.
  destruct (rev s) as [|c r]; [now left|right].
  exists c, r. split; [reflexivity|]. inversion_clear H as [|? ? [_ Hc] _].
  exact Hc.
Qed.

(** Removing the padding of an encoding leaves its characters. *)
Lemma strip_padding_encode (bs : list Z) :
  Forall is_byte bs ->
  strip_padding (b64_encode bs) = map b64_char (b64_sextets bs).
Proof.
  intros Hb. rewrite b64_encode_split.
  pose proof (plain_chars _ (b64_sextets_range _ Hb)) as Hp.
  pose proof (b64_padding_cases bs) as Hc.
  assert (Hl : length (map b64_char (b64_sextets bs)) = length (b64_sextets bs))
    by apply length_map.
  set (X := map b64_char (b64_sextets bs)) in *.
  unfold strip_padding.
  destruct Hc as [[-> [n E]]|[[-> [n E]]|[-> [n E]]]].
  - rewrite app_nil_r.
    destruct (Z.of_nat (length X) mod 4 =? 0); [|reflexivity].
    destruct (rev_plain X Hp) as [->|(c & r & -> & Hc)]; [reflexivity|].
    now rewrite Hc.
  - rewrite length_app, Hl, E. cbn [length].
    replace (Z.of_nat (4 * n + 3 + 1)) with (Z.of_nat (S n) * 4) by lia.
    rewrite Z.mod_mul by lia. cbn [Z.eqb].
    rewrite rev_app_distr. cbn [rev app]. rewrite Z.eqb_refl.
    destruct (rev_plain X Hp) as [E'|(c & r & E' & Hc)]; rewrite E'.
    + rewrite <- (rev_involutive X), E'. reflexivity.
    + rewrite Hc, <- E'. apply rev_involutive.
  - rewrite length_app, Hl, E. cbn [length].
    replace (Z.of_nat (4 * n + 2 + 2)) with (Z.of_nat (S n) * 4) by lia.
    rewrite Z.mod_mul by lia. cbn [Z.eqb].
    rewrite rev_app_distr. cbn [rev app]. rewrite !Z.eqb_refl.
    apply rev_involutive.
Qed.

Lemma b64_encode_plain (bs : list Z) :
  Forall is_byte bs ->
  Forall (fun c => is_ascii_whitespace c = false) (b64_encode bs).
Proof.
  intros Hb. rewrite b64_encode_split. apply Forall_app. split.
  - eapply Forall_impl; [|apply plain_chars, b64_sextets_range, Hb].
    now intros c [Hc _].
  - destruct (b64_padding_cases bs) as [[-> _]|[[-> _]|[-> _]]];
      repeat constructor.
Qed.

(** [atob] undoes the encoding of [btoa]. *)
Lemma atob_b64_encode (bs : list Z) :
  Forall is_byte bs -> atob (b64_encode bs) = Ok bs.
Proof.
  intros Hb. unfold atob.
  rewrite filter_plain by now apply b64_encode_plain.
  rewrite strip_padding_encode by assumption.
  rewrite length_map.
  assert (Hm : (Z.of_nat (length (b64_sextets bs)) mod 4 =? 1) = false).
  { apply Z.eqb_neq.
    destruct (b64_padding_cases bs) as [[_ [n E]]|[[_ [n E]]|[_ [n E]]]];
      rewrite E.
    - replace (Z.of_nat (4 * n)) with (Z.of_nat n * 4) by lia.
      rewrite Z.mod_mul; lia.
    - replace (Z.of_nat (4 * n + 3)) with (3 + Z.of_nat n * 4) by lia.
      rewrite Z.mod_add by lia. cbn. lia.
    - replace (Z.of_nat (4 * n + 2)) with (2 + Z.of_nat n * 4) by lia.
      rewrite Z.mod_add by lia. cbn. lia. }
  rewrite Hm, b64_values_chars by now apply b64_sextets_range.
  now rewrite b64_decode_sextets.
Qed.

Lemma btoa_bytes (bs : list Z) :
  Forall is_byte bs -> btoa bs = Ok (b64_encode bs).
Proof.
  intros Hb. unfold btoa.
  replace (forallb _ bs) with true; [reflexivity|].
  symmetry. apply forallb_forall. intros c Hc.
  rewrite Forall_forall in Hb. specialize (Hb c Hc). unfold is_byte in Hb.
  apply andb_true_iff. split; [apply Z.leb_le|apply Z.leb_le]; lia.
Qed.

Lemma map_id_on {A} (f : A -> A) (P : A -> Prop) (l : list A) :
  (forall x, P x -> f x = x) -> Forall P l -> map f l = l.
Proof.
  intros Hf. induction 1 as [|x l Hx _ IH]; [reflexivity|].
  cbn. now rewrite Hf, IH.
Qed.

Lemma ToUint8_byte (b : Z) : is_byte b -> ToUint8 b = b.
Proof. unfold is_byte, ToUint8. intros H. now apply Z.mod_small. Qed.

Lemma fromCharCode_byte (b : Z) : is_byte b -> fromCharCode b = b.
Proof. unfold is_byte, fromCharCode. intros H. apply Z.mod_small. lia. Qed.

Lemma ToInt32_byte (b : Z) : is_byte b -> ToInt32 b = b.
Proof.
  unfold is_byte, ToInt32. intros H.
  rewrite Z.mod_small by lia.
  destruct (2 ^ 31 <=? b) eqn:E; [apply Z.leb_le in E; lia|reflexivity].
Qed.

(** ** UTF-8 *)

Lemma utf8_run_app (bs rest : list Z) :
  forall st,
    utf8_run st (bs ++ rest)
    = fst (utf8_steps st bs) ++ utf8_run (snd (utf8_steps st bs)) rest.
Proof.
  induction bs as [|b bs IH]; intros st; [reflexivity|].
  cbn [app utf8_run utf8_steps].
  destruct (utf8_step st b) as [out st'].
  rewrite IH. destruct (utf8_steps st' bs) as [out' st''].
  cbn [fst snd]. now rewrite app_assoc.
Qed.

Lemma state_eqb_eq (s t : utf8_state) : state_eqb s t = true -> s = t.
Proof.
  unfold state_eqb. intros H.
  repeat (apply andb_true_iff in H; destruct H as [H ?]).
  destruct s, t; cbn in *. f_equal; now apply Z.eqb_eq.
Qed.

Lemma utf8_check_low : all_in 0 20 utf8_check = true.
Proof. vm_compute. reflexivity. Qed.

Lemma utf8_check_high : all_in (2 ^ 20) 16 utf8_check = true.
Proof. vm_compute. reflexivity. Qed.

Lemma utf8_check_scalar (cp : Z) :
  is_scalar cp ->
  utf8_steps utf8_init (utf8_encode_cp cp) = ([cp], utf8_init)
  /\ Forall is_byte (utf8_encode_cp cp).
Proof.
  intros H.
  assert (C : utf8_check cp = true).
  { destruct (Z_lt_le_dec cp (2 ^ 20)).
    - apply (all_in_spec utf8_check 20 0 utf8_check_low).
      unfold is_scalar in H. cbn. lia.
    - apply (all_in_spec utf8_check 16 (2 ^ 20) utf8_check_high).
      unfold is_scalar in H. cbn in *. lia. }
  unfold utf8_check in C.
  replace (is_scalarb cp) with true in C.
  - destruct (utf8_steps utf8_init (utf8_encode_cp cp)) as [[|c [|? ?]] st];
      try discriminate.
    apply andb_true_iff in C as [C C3]. apply andb_true_iff in C as [C1 C2].
    apply Z.eqb_eq in C1. apply state_eqb_eq in C2. subst. split; [reflexivity|].
    rewrite forallb_forall in C3. apply Forall_forall. intros b Hb.
    specialize (C3 b Hb). apply andb_true_iff in C3 as [C4 C5].
    unfold is_byte. lia.
  - symmetry. unfold is_scalarb, is_scalar in *.
    apply orb_true_iff.
    destruct H; [left|right]; apply andb_true_iff; split;
      try apply Z.leb_le; try apply Z.ltb_lt; lia.
Qed.

Lemma utf8_steps_encode (cp : Z) :
  is_scalar cp -> utf8_steps utf8_init (utf8_encode_cp cp) = ([cp], utf8_init).
Proof. intros H. now apply utf8_check_scalar. Qed.

Lemma utf8_encode_bytes (cps : list Z) :
  Forall is_scalar cps -> Forall is_byte (flat_map utf8_encode_cp cps).
Proof.
  induction 1 as [|cp cps Hcp _ IH]; [constructor|].
  cbn [flat_map]. apply Forall_app. split; [now apply utf8_check_scalar|exact IH].
Qed.

Lemma utf8_decode_encode (cps : list Z) :
  Forall is_scalar cps ->
  utf8_run utf8_init (flat_map utf8_encode_cp cps) = cps.
Proof.
  induction 1 as [|cp cps Hcp _ IH]; [reflexivity|].
  cbn [flat_map]. rewrite utf8_run_app, utf8_steps_encode by assumption.
  cbn [fst snd app]. now rewrite IH.
Qed.

(** ** UTF-16 *)

Lemma surrogate_pair (c d : Z) :
  is_lead c = true -> is_trail d = true ->
  let cp := 0x10000 + (c - 0xD800) * 0x400 + (d - 0xDC00) in
  is_scalar cp /\ utf16_units cp = [c; d] /\ cp <> BOM.
Proof.
  unfold is_lead, is_trail. intros Hc Hd.
  apply andb_true_iff in Hc as [Hc1 Hc2]. apply andb_true_iff in Hd as [Hd1 Hd2].
  apply Z.leb_le in Hc1, Hc2, Hd1, Hd2. cbv zeta.
  set (cp := 0x10000 + (c - 0xD800) * 0x400 + (d - 0xDC00)).
  assert (Hr : 0x10000 <= cp < 0x110000) by (unfold cp; lia).
  split; [right; lia|]. split; [|unfold BOM; lia].
  unfold utf16_units.
  destruct (cp <=? 0xFFFF) eqn:E; [apply Z.leb_le in E; lia|].
  replace (cp - 0x10000) with ((d - 0xDC00) + (c - 0xD800) * 2 ^ 10)
    by (unfold cp; lia).
  rewrite Z.shiftr_div_pow2 by lia.
  change 0x3FF with (Z.ones 10). rewrite Z.land_ones by lia.
  rewrite Z.div_add, Z.mod_add by lia.
  rewrite Z.div_small, Z.mod_small by lia.
  f_equal; [lia|f_equal; lia].
Qed.

Lemma bmp_scalar (c : Z) :
  is_lead c = false -> is_trail c = false -> 0 <= c <= 0xFFFF ->
  is_scalar c /\ utf16_units c = [c].
Proof.
  unfold is_lead, is_trail, is_scalar, utf16_units. intros Hl Ht Hr.
  apply andb_false_iff in Hl. apply andb_false_iff in Ht.
  rewrite !Z.leb_gt in Hl, Ht.
  split; [lia|]. destruct (c <=? 0xFFFF) eqn:E; [reflexivity|].
  apply Z.leb_gt in E. lia.
Qed.

Lemma to_scalars_well_formed (n : nat) :
  forall s, (length s <= n)%nat -> well_formed s = true ->
  Forall is_scalar (to_scalars s)
  /\ flat_map utf16_units (to_scalars s) = s
  /\ (starts_with_BOM s = false -> strip_bom (to_scalars s) = to_scalars s).
Proof.
  induction n as [|n IH]; intros s Hn Hw.
  - destruct s; [|cbn in Hn; lia]. repeat split; constructor.
  - destruct s as [|c rest]; [repeat split; constructor|].
    cbn [well_formed to_scalars] in *.
    destruct (is_lead c) eqn:Hl.
    + destruct rest as [|d rest']; [discriminate|].
      apply andb_true_iff in Hw as [Hd Hw]. rewrite Hd.
      destruct (surrogate_pair c d Hl Hd) as (H1 & H2 & H3).
      destruct (IH rest' ltac:(cbn in Hn; lia) Hw) as (I1 & I2 & _).
      split; [now constructor|]. split.
      * cbn [flat_map]. rewrite H2, I2. reflexivity.
      * intros _. unfold strip_bom.
        destruct (_ =? BOM) eqn:E; [apply Z.eqb_eq in E; contradiction|].
        reflexivity.
    + apply andb_true_iff in Hw as [Hw Hw'].
      apply andb_true_iff in Hw as [Hw Hhi].
      apply andb_true_iff in Hw as [Ht Hlo].
      apply negb_true_iff in Ht. rewrite Ht.
      apply Z.leb_le in Hlo, Hhi.
      destruct (bmp_scalar c Hl Ht ltac:(lia)) as (H1 & H2).
      destruct (IH rest ltac:(cbn in Hn; lia) Hw') as (I1 & I2 & _).
      split; [now constructor|]. split.
      * cbn [flat_map]. rewrite H2, I2. reflexivity.
      * cbn [starts_with_BOM strip_bom]. now intros ->.
Qed.

Lemma TextEncoder_bytes (s : jsstring) :
  well_formed s = true -> Forall is_byte (TextEncoder_encode s).
Proof.
  intros Hw. apply utf8_encode_bytes.
  now apply (to_scalars_well_formed (length s) s (le_n _) Hw).
Qed.

(** Decoding the encoding of a well-formed string that does not start
    with U+FEFF gives the string back. *)
Lemma TextDecoder_TextEncoder (s : jsstring) :
  well_formed s = true -> starts_with_BOM s = false ->
  TextDecoder_decode (TextEncoder_encode s) = s.
Proof.
  intros Hw Hb.
  destruct (to_scalars_well_formed (length s) s (le_n _) Hw) as (H1 & H2 & H3).
  unfold TextDecoder_decode, TextEncoder_encode.
  now rewrite utf8_decode_encode, H3.
Qed.

(** * One-time pad *)

Lemma lxor_byte (a b : Z) : is_byte a -> is_byte b -> is_byte (Z.lxor a b).
Proof.
  intros Ha Hb.
  pose (chk := fun a b => (0 <=? Z.lxor a b) && (Z.lxor a b <? 256)).
  assert (H : chk a b = true).
  { apply (all_in_spec (chk a) 8 0); [|unfold is_byte in Hb; cbn; lia].
    apply (all_in_spec (fun a => all_in 0 8 (chk a)) 8 0);
      [vm_compute; reflexivity | unfold is_byte in Ha; cbn; lia]. }
  unfold chk in H. apply andb_true_iff in H as [H1 H2]. unfold is_byte. lia.
Qed.

Lemma xor_loop_cons (x y : Z) (a k : list Z) :
  SecurityService.xor_loop (x :: a) (y :: k)
  = ToUint8 (bitxor (Some x) (Some y)) :: SecurityService.xor_loop a k.
Proof.
  unfold SecurityService.xor_loop. cbn [length seq map nth_error]. f_equal.
  rewrite <- seq_shift, map_map. reflexivity.
Qed.

Lemma xor_loop_nil_key (a : list Z) :
  Forall is_byte a -> SecurityService.xor_loop a [] = a.
Proof.
  unfold SecurityService.xor_loop.
  assert (G : forall n,
             map (fun i => ToUint8 (bitxor (nth_error a i) (nth_error [] i)))
               (seq 0 n)
             = map (fun i => ToUint8 (bitxor (nth_error a i) None)) (seq 0 n)).
  { intros n. apply map_ext. intros i. now destruct i. }
  rewrite G. clear G. intros H.
  induction H as [|x a Hx Ha IH]; [reflexivity|].
  cbn [length seq map nth_error]. rewrite <- seq_shift, map_map. cbn [nth_error].
  rewrite IH. f_equal. unfold bitxor. cbn [ToInt32_opt].
  rewrite Z.lxor_0_r, ToInt32_byte, ToUint8_byte; auto.
Qed.

Lemma xor_loop_pad (a : list Z) :
  Forall is_byte a -> forall k, Forall is_byte k ->
  SecurityService.xor_loop a k = xor_pad a k.
Proof.
  induction 1 as [|x a Hx Ha IH]; intros k Hk; [reflexivity|].
  destruct Hk as [|y k Hy Hk].
  - now apply xor_loop_nil_key; constructor.
  - rewrite xor_loop_cons, IH by assumption. cbn [xor_pad]. f_equal.
    unfold bitxor. cbn [ToInt32_opt]. rewrite !ToInt32_byte by assumption.
    apply ToUint8_byte. now apply lxor_byte.
Qed.

Lemma xor_pad_bytes (a : list Z) :
  Forall is_byte a -> forall k, Forall is_byte k -> Forall is_byte (xor_pad a k).
Proof.
  induction 1 as [|x a Hx Ha IH]; intros k Hk; [constructor|].
  destruct Hk as [|y k Hy Hk]; cbn [xor_pad].
  - now constructor.
  - constructor; [now apply lxor_byte|now apply IH].
Qed.

Lemma xor_pad_length (a k : list Z) : length (xor_pad a k) = length a.
Proof.
  revert k. induction a as [|x a IH]; intros [|y k]; cbn; auto.
Qed.

(** With a key at least as long as the data, the pad is an involution. *)
Lemma xor_pad_involutive (a : list Z) :
  forall k, (length a <= length k)%nat -> xor_pad (xor_pad a k) k = a.
Proof.
  induction a as [|x a IH]; intros [|y k] H; cbn in *; try reflexivity; try lia.
  rewrite IH by lia. f_equal.
  rewrite Z.lxor_assoc, Z.lxor_nilpotent. apply Z.lxor_0_r.
Qed.

Lemma xor_pad_nth (a k : list Z) (i : nat) :
  (i < length a)%nat ->
  nth i (xor_pad a k) 0
  = if (i <? length k)%nat then Z.lxor (nth i a 0) (nth i k 0) else nth i a 0.
Proof.
  revert k i. induction a as [|x a IH]; intros k i Hi; [cbn in Hi; lia|].
  destruct k as [|y k]; [reflexivity|].
  destruct i as [|i]; [reflexivity|].
  cbn [xor_pad nth length]. rewrite IH by (cbn in Hi; lia).
  change (S i <? S (length k))%nat with (i <? length k)%nat. reflexivity.
Qed.

Lemma base64ToBytes_bytes (s : jsstring) (bs : list Z) :
  SecurityService.base64ToBytes s = Ok bs -> Forall is_byte bs.
Proof.
  unfold SecurityService.base64ToBytes. destruct (atob s); [|discriminate].
  cbn. intros [= <-]. apply Forall_forall. intros b Hb.
  apply in_map_iff in Hb as (x & <- & _).
  unfold ToUint8, is_byte. apply Z.mod_pos_bound. lia.
Qed.

Lemma base64ToBytes_bytesToBase64 (bs : list Z) :
  Forall is_byte bs ->
  rbind (SecurityService.bytesToBase64 bs) SecurityService.base64ToBytes = Ok bs.
Proof.
  intros H. unfold SecurityService.bytesToBase64, SecurityService.base64ToBytes.
  rewrite (map_id_on fromCharCode is_byte) by (auto using fromCharCode_byte).
  rewrite btoa_bytes by assumption. cbn [rbind].
  rewrite atob_b64_encode by assumption. cbn [rbind].
  now rewrite (map_id_on ToUint8 is_byte) by (auto using ToUint8_byte).
Qed.

(** * Claims on the one-time pad *)

Section OTP.

Context {W : Type} (env : SecurityService.Env W).

Let km := SecurityService.kmService env.

Lemma encryptWithOTP_short (data : jsstring) (w w1 : W)
      (k : KMService.QuantumKey) (keyBytes : list Z) :
  KMService.generateOTPKeys km
    (Z.of_nat (length (TextEncoder_encode data)) * 8) w = (Ok k, w1) ->
  SecurityService.base64ToBytes (KMService.key k) = Ok keyBytes ->
  (length keyBytes < length (TextEncoder_encode data))%nat ->
  SecurityService.encryptWithOTP env data w
  = (Throw (lit "Quantum key too short for OTP encryption"), w1)
  \/ SecurityService.encryptWithOTP env data w
     = (Throw (lit "Failed to obtain quantum key for OTP encryption"), w1).
Proof.
  intros Hk Hb Hlen. unfold SecurityService.encryptWithOTP, bind.
  fold km. rewrite Hk.
  destruct (truthy_str (KMService.key k)); cbn [negb]; [left|now right].
  unfold lift. rewrite Hb.
  replace (_ <? _) with true; [reflexivity|].
  symmetry. apply Z.ltb_lt. lia.
Qed.

Lemma decryptFromOTP_run (encrypted : SecurityService.EncryptedData)
      (id material : jsstring) (C K : list Z) (w w' : W) :
  SecurityService.quantumKeyId encrypted = Some id -> id <> [] ->
  SecurityService.returns_material env id material w w' ->
  SecurityService.base64ToBytes material = Ok K ->
  SecurityService.base64ToBytes (SecurityService.encryptedData encrypted) = Ok C ->
  SecurityService.decryptFromOTP env encrypted w
  = (Ok (SecurityService.decrypted_OTP (TextDecoder_decode (xor_pad C K))), w').
Proof.
  intros Hid Hne (response & k & others & Hget & Hst & Hks & Hmat) HK HC.
  unfold SecurityService.decryptFromOTP. rewrite Hid.
  destruct id as [|c id]; [contradiction|].
  unfold bind. fold km. unfold km. rewrite Hget, Hks, Hst.
  replace (str_eqb (lit "success") (lit "success")) with true by reflexivity.
  cbn [negb]. unfold lift. rewrite Hmat, HK, HC.
  rewrite xor_loop_pad by eauto using base64ToBytes_bytes.
  reflexivity.
Qed.

(** C10, amended.  A key shorter than the ciphertext is no error for
    [decryptFromOTP]: the bytes it computes have the length of the
    ciphertext, are the XOR with the key where the key has bytes, and
    are the ciphertext itself behind the end of the key; the data it
    returns is the [TextDecoder] decoding of these bytes. *)
Theorem decryptFromOTP_short_key
        (encrypted : SecurityService.EncryptedData)
        (id material : jsstring) (C K : list Z) (w w' : W) :
  SecurityService.quantumKeyId encrypted = Some id -> id <> [] ->
  SecurityService.returns_material env id material w w' ->
  SecurityService.base64ToBytes material = Ok K ->
  SecurityService.base64ToBytes (SecurityService.encryptedData encrypted) = Ok C ->
  (length K < length C)%nat ->
  exists output,
    SecurityService.decryptFromOTP env encrypted w
    = (Ok (SecurityService.decrypted_OTP (TextDecoder_decode output)), w')
    /\ length output = length C
    /\ (forall i, (i < length K)%nat ->
          nth i output 0 = Z.lxor (nth i C 0) (nth i K 0))
    /\ (forall i, (length K <= i < length C)%nat ->
          nth i output 0 = nth i C 0).
Proof.
  intros Hid Hne Hret HK HC Hlen. exists (xor_pad C K).
  split; [now apply (decryptFromOTP_run encrypted id material)|].
  split; [apply xor_pad_length|]. split; intros i Hi.
  - rewrite xor_pad_nth by lia.
    destruct (Nat.ltb_spec i (length K)); [reflexivity|lia].
  - rewrite xor_pad_nth by lia.
    destruct (Nat.ltb_spec i (length K)); [lia|reflexivity].
Qed.

(** C2.  When the key material obtained for a plaintext is shorter than
    the plaintext, [encryptWithOTP] throws and returns no ciphertext. *)
Theorem encryptWithOTP_rejects_short_key
        (data : jsstring) (k : KMService.QuantumKey) (keyBytes : list Z)
        (w w1 : W) :
  KMService.generateOTPKeys km
    (Z.of_nat (length (TextEncoder_encode data)) * 8) w = (Ok k, w1) ->
  SecurityService.base64ToBytes (KMService.key k) = Ok keyBytes ->
  (length keyBytes < length (TextEncoder_encode data))%nat ->
  exists message,
    SecurityService.encryptWithOTP env data w = (Throw message, w1)
    /\ (message = lit "Quantum key too short for OTP encryption"
        \/ message = lit "Failed to obtain quantum key for OTP encryption").
Proof.
  intros Hk Hb Hlen.
  destruct (encryptWithOTP_short data w w1 k keyBytes Hk Hb Hlen) as [E|E];
    rewrite E; eauto.
Qed.

Lemma encryptWithOTP_run (data : jsstring) (k : KMService.QuantumKey)
      (K : list Z) (w w1 : W) :
  well_formed data = true ->
  KMService.generateOTPKeys km
    (Z.of_nat (length (TextEncoder_encode data)) * 8) w = (Ok k, w1) ->
  KMService.key k <> [] ->
  SecurityService.base64ToBytes (KMService.key k) = Ok K ->
  (length (TextEncoder_encode data) <= length K)%nat ->
  exists encrypted,
    SecurityService.encryptWithOTP env data w
    = (Ok encrypted, snd (SecurityService.toISOString env w1))
    /\ SecurityService.quantumKeyId encrypted = Some (KMService.key_ID k)
    /\ SecurityService.base64ToBytes (SecurityService.encryptedData encrypted)
       = Ok (xor_pad (TextEncoder_encode data) K).
Proof.
  intros Hw Hk Hne HK Hlen.
  pose proof (TextEncoder_bytes data Hw) as Hd.
  pose proof (base64ToBytes_bytes _ _ HK) as HKb.
  pose proof (base64ToBytes_bytesToBase64 _ (xor_pad_bytes _ Hd _ HKb)) as Hrt.
  unfold SecurityService.encryptWithOTP, bind. fold km. rewrite Hk.
  destruct (KMService.key k) as [|c key] eqn:Ekey; [contradiction|].
  cbn [truthy_str negb]. unfold lift. rewrite HK.
  replace (_ <? _) with false by (symmetry; apply Z.ltb_ge; lia).
  rewrite xor_loop_pad by assumption.
  destruct (SecurityService.bytesToBase64 _) as [encoded|] eqn:Eenc;
    [|discriminate].
  cbn [rbind] in Hrt. unfold clock.
  destruct (SecurityService.toISOString env w1) as [now w2].
  eexists. split; [reflexivity|]. split; [reflexivity|exact Hrt].
Qed.

(** C1, amended.  For a well-formed plaintext that does not begin with
    U+FEFF, a non-empty key string with a non-empty [key_ID] whose
    material is at least as long as the encoded plaintext, and a key
    manager that returns the same key string for the recorded id,
    decrypting the result of the encryption gives the plaintext. *)
Theorem otp_round_trip_correct
        (P : jsstring) (k : KMService.QuantumKey) (K : list Z)
        (w w1 w3 : W) :
  well_formed P = true -> starts_with_BOM P = false ->
  KMService.generateOTPKeys km
    (Z.of_nat (length (TextEncoder_encode P)) * 8) w = (Ok k, w1) ->
  KMService.key k <> [] -> KMService.key_ID k <> [] ->
  SecurityService.base64ToBytes (KMService.key k) = Ok K ->
  (length (TextEncoder_encode P) <= length K)%nat ->
  SecurityService.returns_material env (KMService.key_ID k) (KMService.key k)
    (snd (SecurityService.toISOString env w1)) w3 ->
  SecurityService.otp_round_trip env P w
  = (Ok (SecurityService.decrypted_OTP P), w3).
Proof.
  intros Hw Hbom Hk Hne Hid HK Hlen Hret.
  destruct (encryptWithOTP_run P k K w w1 Hw Hk Hne HK Hlen)
    as (encrypted & Henc & Hqid & Hdata).
  unfold SecurityService.otp_round_trip, bind. rewrite Henc.
  rewrite (decryptFromOTP_run encrypted _ _ _ K _ w3 Hqid Hid Hret HK Hdata).
  rewrite xor_pad_involutive by assumption.
  now rewrite TextDecoder_TextEncoder.
Qed.

End OTP.

(** * The key pool *)

Section PoolFacts.
Import KeyManagerServer.

Lemma evolves_refl (db : KeyDatabase) : evolves db db.
Proof. intros j. now destruct (nth_error db j). Qed.

Lemma evolves_trans (a b c : KeyDatabase) :
  evolves a b -> evolves b c -> evolves a c.
Proof.
  intros H1 H2 j. specialize (H1 j). specialize (H2 j).
  destruct (nth_error a j), (nth_error b j), (nth_error c j);
    try contradiction; auto.
  destruct H1 as [E1 U1], H2 as [E2 U2]. split; [congruence|auto].
Qed.

Lemma mark_used_nth (db : KeyDatabase) :
  forall ref j,
    nth_error (mark_used db ref) j
    = if Nat.eqb ref j then option_map mark (nth_error db j)
      else nth_error db j.
Proof.
  induction db as [|[k e] db IH]; intros ref j.
  - cbn. destruct (Nat.eqb ref j); now destruct j.
  - destruct ref as [|ref]; destruct j as [|j]; cbn; try reflexivity.
    apply IH.
Qed.

Lemma mark_used_out_of_range (db : KeyDatabase) :
  forall ref, nth_error db ref = None -> mark_used db ref = db.
Proof.
  induction db as [|[k e] db IH]; intros [|ref] H; cbn in *;
    try reflexivity; try discriminate.
  now rewrite IH.
Qed.

Lemma mark_all_nth (refs : list nat) :
  forall db j,
    nth_error (fold_left mark_used refs db) j
    = if existsb (fun r => Nat.eqb r j) refs
      then option_map mark (nth_error db j)
      else nth_error db j.
Proof.
  induction refs as [|r refs IH]; intros db j; [reflexivity|].
  cbn [fold_left existsb]. rewrite IH, mark_used_nth.
  destruct (Nat.eqb r j); cbn [orb].
  - destruct (existsb _ refs); [|reflexivity].
    destruct (nth_error db j) as [[k e]|]; reflexivity.
  - reflexivity.
Qed.

Lemma firstn_succ {A} (l : list A) :
  forall n,
    firstn (S n) l
    = firstn n l ++ match nth_error l n with Some x => [x] | None => [] end.
Proof.
  induction l as [|x l IH]; intros [|n]; cbn; try reflexivity.
  - f_equal. now rewrite <- IH.
Qed.

(** The selection loop in closed form: it marks the first [n]
    candidates and returns their keys. *)
Lemma select_loop (available : list nat) (db : KeyDatabase) (n : nat) :
  fold_left (select_key available) (seq 0 n) (db, [])
  = (fold_left mark_used (firstn n available) db,
     flat_map (key_out_at db) (firstn n available)).
Proof.
  induction n as [|n IH]; [reflexivity|].
  rewrite seq_S, fold_left_app, IH. cbn [fold_left Nat.add].
  rewrite firstn_succ. unfold select_key. cbn [fst snd].
  destruct (nth_error available n) as [ref|]; [|now rewrite !app_nil_r].
  rewrite fold_left_app, flat_map_app. cbn [fold_left flat_map].
  rewrite app_nil_r, mark_all_nth.
  destruct (nth_error db ref) as [[k e]|] eqn:E.
  - replace (key_out_at db ref) with [key_out e]
      by (unfold key_out_at; now rewrite E).
    destruct (existsb _ _); reflexivity.
  - replace (key_out_at db ref) with (@nil KeyOut)
      by (unfold key_out_at; now rewrite E).
    destruct (existsb _ _); cbn [option_map]; rewrite app_nil_r;
      f_equal; symmetry; apply mark_used_out_of_range;
      rewrite mark_all_nth, E; now destruct (existsb _ _).
Qed.

Lemma handle_unfold (e : Endpoint) (req : KeyRequest) (d : Draw)
      (db : KeyDatabase) :
  let available :=
    availableKeys (endpoint_type e) (requested_size e req) db in
  handle e req d db
  = if Z.of_nat (length available) <? requested req then
      (InsufficientKeys (endpoint_message e) (Z.of_nat (length available))
         (requested req), db)
    else
      (Keys (flat_map (key_out_at db) (taken e req db))
         (if truthy (key_stream_id req)
          then match key_stream_id req with Some s => s | None => [] end
          else generateKeyId d)
         (toISOString d),
       fold_left mark_used (taken e req db) db).
Proof.
  cbv zeta. unfold taken, requested, requested_size.
  destruct e; cbn [handle]; unfold enc_keys, otp_keys, key_request;
    cbn [endpoint_type endpoint_message];
    destruct (size req); destruct (number req);
    destruct (_ <? _); try reflexivity; now rewrite select_loop.
Qed.

(** C3.  A request for more keys than there are unused matching keys
    is answered with [INSUFFICIENT_KEYS], reporting the number
    available and the number requested, and leaves the pool as it
    was. *)
Theorem insufficient_keys_untouched (e : Endpoint) (req : KeyRequest)
        (d : Draw) (db : KeyDatabase) :
  let available :=
    Z.of_nat (length (availableKeys (endpoint_type e)
                        (requested_size e req) db)) in
  available < requested req ->
  handle e req d db
  = (InsufficientKeys (endpoint_message e) available (requested req), db).
Proof.
  cbv zeta. intros H. rewrite handle_unfold. cbv zeta.
  now apply Z.ltb_lt in H as ->.
Qed.

Lemma availableKeys_spec (type : jsstring) (size : Z) (db : KeyDatabase)
      (ref : nat) :
  In ref (availableKeys type size db) ->
  exists kv, nth_error db ref = Some kv /\ used (snd kv) = false.
Proof.
  unfold availableKeys. intros H. apply filter_In in H as [_ H].
  destruct (nth_error db ref) as [[k e]|]; [|discriminate].
  exists (k, e). split; [reflexivity|].
  apply andb_true_iff in H as [H _]. apply andb_true_iff in H as [H _].
  now apply negb_true_iff in H.
Qed.

Lemma availableKeys_NoDup (type : jsstring) (size : Z) (db : KeyDatabase) :
  NoDup (availableKeys type size db).
Proof. apply NoDup_filter, seq_NoDup. Qed.

Lemma firstn_In {A} (l : list A) (n : nat) (x : A) :
  In x (firstn n l) -> In x l.
Proof.
  intros H. rewrite <- (firstn_skipn n l). apply in_or_app. now left.
Qed.

Lemma firstn_NoDup {A} (l : list A) (n : nat) : NoDup l -> NoDup (firstn n l).
Proof.
  intros H. rewrite <- (firstn_skipn n l) in H.
  now apply NoDup_app_remove_r in H.
Qed.

Lemma taken_spec (e : Endpoint) (req : KeyRequest) (db : KeyDatabase) :
  NoDup (taken e req db)
  /\ forall ref, In ref (taken e req db) ->
       exists kv, nth_error db ref = Some kv /\ used (snd kv) = false.
Proof.
  split.
  - apply firstn_NoDup, availableKeys_NoDup.
  - intros ref H. apply firstn_In in H. eapply availableKeys_spec, H.
Qed.

Lemma In_id_at (db : KeyDatabase) (refs : list nat) (id : jsstring) :
  In id (flat_map (id_at db) refs) <->
  exists ref kv, In ref refs /\ nth_error db ref = Some kv
                 /\ keyId (snd kv) = id.
Proof.
  rewrite in_flat_map. unfold id_at. split.
  - intros (ref & Hin & H).
    destruct (nth_error db ref) as [[k e]|] eqn:E; [|contradiction].
    destruct H as [<-|[]]. now exists ref, (k, e).
  - intros (ref & [k e] & Hin & E & <-). exists ref. split; [assumption|].
    rewrite E. now left.
Qed.

Lemma issued_keys (db : KeyDatabase) (refs : list nat) :
  map key_ID (flat_map (key_out_at db) refs) = flat_map (id_at db) refs.
Proof.
  induction refs as [|r refs IH]; [reflexivity|].
  cbn [flat_map]. rewrite map_app, IH. f_equal.
  unfold key_out_at, id_at. now destruct (nth_error db r) as [[k e]|].
Qed.

Lemma NoDup_id_at (db : KeyDatabase) (refs : list nat) :
  ids_distinct db -> NoDup refs -> NoDup (flat_map (id_at db) refs).
Proof.
  intros Hd. induction 1 as [|r refs Hr Hn IH]; [constructor|].
  cbn [flat_map]. unfold id_at at 1.
  destruct (nth_error db r) as [[k e]|] eqn:E; [|exact IH].
  cbn [app]. constructor; [|exact IH].
  intros Hin. apply In_id_at in Hin as (r' & kv' & Hin & E' & Hid).
  assert (r' = r) by (eapply Hd; eauto). now subst.
Qed.

Lemma existsb_eqb_In (refs : list nat) (j : nat) :
  existsb (fun r => Nat.eqb r j) refs = true <-> In j refs.
Proof.
  rewrite existsb_exists. split.
  - intros (r & Hin & H). apply Nat.eqb_eq in H. now subst.
  - intros H. exists j. split; [assumption|apply Nat.eqb_refl].
Qed.

Lemma mark_all_ids (refs : list nat) (db : KeyDatabase) :
  ids_distinct db -> ids_distinct (fold_left mark_used refs db).
Proof.
  intros Hd i j kv kv' Hi Hj Heq.
  rewrite mark_all_nth in Hi, Hj.
  assert (Gi : exists kv0, nth_error db i = Some kv0
                           /\ keyId (snd kv0) = keyId (snd kv)).
  { destruct (existsb _ refs); [|eauto].
    destruct (nth_error db i) as [kv0|]; [|discriminate].
    injection Hi as <-. now exists kv0. }
  assert (Gj : exists kv0, nth_error db j = Some kv0
                           /\ keyId (snd kv0) = keyId (snd kv')).
  { destruct (existsb (fun r => Nat.eqb r j) refs); [|eauto].
    destruct (nth_error db j) as [kv0|]; [|discriminate].
    injection Hj as <-. now exists kv0. }
  destruct Gi as (a & Ea & Ha), Gj as (b & Eb & Hb).
  eapply Hd; eauto. congruence.
Qed.

(** What one request does to the pool. *)
Lemma handle_step (e : Endpoint) (req : KeyRequest) (d : Draw)
      (db : KeyDatabase) :
  ids_distinct db ->
  let r := fst (handle e req d db) in
  let db' := snd (handle e req d db) in
  ids_distinct db'
  /\ NoDup (issued r)
  /\ (forall id, In id (issued r) -> unused_id db id)
  /\ (forall id, unused_id db' id -> unused_id db id /\ ~ In id (issued r))
  /\ (forall id, In id (issued r) ->
        forall kv, In kv db' -> keyId (snd kv) = id -> used (snd kv) = true)
  /\ evolves db db'.
Proof.
  intros Hd. cbv zeta. rewrite handle_unfold. cbv zeta.
  destruct (_ <? _).
  - cbn [fst snd issued].
    split; [assumption|]. split; [constructor|].
    split; [intros id []|].
    split; [intros id H; split; [assumption|intros []]|].
    split; [intros id []|apply evolves_refl].
  - cbn [fst snd issued]. rewrite issued_keys.
    destruct (taken_spec e req db) as [Hn Hu].
    set (refs := taken e req db) in *.
    split; [now apply mark_all_ids|].
    split; [now apply NoDup_id_at|].
    split; [|split; [|split]].
    + intros id Hin. apply In_id_at in Hin as (ref & kv & Hin & E & Hid).
      destruct (Hu ref Hin) as (kv0 & E0 & Hun).
      rewrite E in E0. injection E0 as <-. now exists ref, kv.
    + intros id (j & kv & E & Hid & Hun). rewrite mark_all_nth in E.
      destruct (existsb _ refs) eqn:Ex.
      * destruct (nth_error db j) as [kv0|]; [|discriminate].
        injection E as <-. cbn in Hun. discriminate.
      * split; [now exists j, kv|].
        intros Hin. apply In_id_at in Hin as (ref & kv' & Hin & E' & Hid').
        assert (ref = j) by (eapply Hd; eauto; congruence). subst ref.
        apply existsb_eqb_In in Hin. congruence.
    + intros id Hin kv Hkv Hid.
      apply In_id_at in Hin as (ref & kv0 & Hin & E0 & Hid0).
      apply In_nth_error in Hkv as (j & E). rewrite mark_all_nth in E.
      destruct (existsb _ refs) eqn:Ex.
      * destruct (nth_error db j) as [kv1|]; [|discriminate].
        now injection E as <-.
      * assert (ref = j) by (eapply Hd; eauto; congruence). subst ref.
        apply existsb_eqb_In in Hin. congruence.
    + intros j. rewrite mark_all_nth.
      destruct (existsb _ refs), (nth_error db j) as [[k0 e0]|]; cbn; auto.
Qed.

Lemma NoDup_app_intro {A} (l l' : list A) :
  NoDup l -> NoDup l' -> (forall x, In x l -> ~ In x l') -> NoDup (l ++ l').
Proof.
  intros Hl Hl' Hd. induction Hl as [|x l Hx Hl IH]; [exact Hl'|].
  cbn. constructor.
  - intros Hin. apply in_app_or in Hin as [Hin|Hin]; [contradiction|].
    apply (Hd x); [now left|assumption].
  - apply IH. intros y Hy. apply Hd. now right.
Qed.

(** What a run of requests does to the pool. *)
Lemma serve_inv (reqs : list (Endpoint * KeyRequest * Draw)) :
  forall db,
    ids_distinct db ->
    let rs := fst (serve reqs db) in
    let db' := snd (serve reqs db) in
    NoDup (concat (map issued rs))
    /\ (forall id, In id (concat (map issued rs)) -> unused_id db id)
    /\ (forall id, In id (concat (map issued rs)) ->
          forall kv, In kv db' -> keyId (snd kv) = id -> used (snd kv) = true)
    /\ evolves db db'.
Proof.
  induction reqs as [|[[e req] d] reqs IH]; intros db Hd; cbv zeta.
  - cbn. split; [constructor|]. split; [intros id []|].
    split; [intros id []|apply evolves_refl].
  - cbn [serve].
    destruct (handle_step e req d db Hd) as (Hd1 & Hn & Hin & Hout & Hmark & Hev).
    destruct (handle e req d db) as [r db1]. cbn [fst snd] in *.
    specialize (IH db1 Hd1). cbv zeta in IH.
    destruct (serve reqs db1) as [rs db2]. cbn [fst snd] in *.
    destruct IH as (In1 & In2 & In3 & Hev').
    cbn [map concat].
    split; [|split; [|split]].
    + apply NoDup_app_intro; auto.
      intros id H1 H2. apply In2, Hout in H2. tauto.
    + intros id H. apply in_app_or in H as [H|H]; [auto|].
      now apply In2, Hout in H.
    + intros id H kv Hkv Hid. apply in_app_or in H as [H|H]; [|eauto].
      apply In_nth_error in Hkv as (j & E).
      specialize (Hev' j). rewrite E in Hev'.
      destruct (nth_error db1 j) as [kv1|] eqn:E1; [|contradiction].
      destruct Hev' as [Hk Hu]. apply Hu.
      apply (Hmark id H kv1); [eapply nth_error_In, E1|congruence].
    + eapply evolves_trans; eauto.
Qed.

Lemma wf_db_ids (db : KeyDatabase) : wf_db db -> ids_distinct db.
Proof.
  intros [Hn Hf] i j kv kv' Hi Hj Heq.
  rewrite Forall_forall in Hf.
  pose proof (Hf kv (nth_error_In _ _ Hi)) as Ei.
  pose proof (Hf kv' (nth_error_In _ _ Hj)) as Ej.
  apply (proj1 (NoDup_nth_error (map fst db)) Hn).
  - apply nth_error_Some. rewrite nth_error_map, Hi. discriminate.
  - rewrite !nth_error_map, Hi, Hj. cbn. congruence.
Qed.

Lemma concat_nth_In {A} (ls : list (list A)) (i : nat) (l : list A) (x : A) :
  nth_error ls i = Some l -> In x l -> In x (concat ls).
Proof.
  intros H Hx. apply in_concat. exists l. split; [|assumption].
  eapply nth_error_In, H.
Qed.

Lemma NoDup_app_apart {A} (l l' : list A) (x : A) :
  NoDup (l ++ l') -> In x l -> ~ In x l'.
Proof.
  induction l as [|y l IH]; intros Hn Hx Hx'; [contradiction|].
  cbn in Hn. inversion_clear Hn as [|? ? Hy Hn'].
  destruct Hx as [->|Hx]; [|now apply IH].
  apply Hy, in_or_app. now right.
Qed.

Lemma NoDup_concat_disjoint {A} (ls : list (list A)) :
  NoDup (concat ls) ->
  forall i j li lj x,
    i <> j -> nth_error ls i = Some li -> nth_error ls j = Some lj ->
    In x li -> ~ In x lj.
Proof.
  induction ls as [|l ls IH]; intros Hn i j li lj x Hij Hi Hj Hxi Hxj.
  - now destruct i.
  - cbn [concat] in Hn.
    pose proof (NoDup_app_remove_l _ _ Hn) as Hn'.
    destruct i as [|i], j as [|j]; cbn in Hi, Hj.
    + congruence.
    + injection Hi as <-.
      apply (NoDup_app_apart _ _ x Hn Hxi). eapply concat_nth_In; eauto.
    + injection Hj as <-.
      apply (NoDup_app_apart _ _ x Hn Hxj). eapply concat_nth_In; eauto.
    + eapply (IH Hn' i j); eauto.
Qed.

(** C6.  Over any run of requests, no [key_ID] is handed out twice,
    neither by two requests nor within one; and every key handed out is
    marked used in the pool, which excludes it from the candidates of
    every later request. *)
Theorem no_key_reuse (reqs : list (Endpoint * KeyRequest * Draw))
        (db : KeyDatabase) :
  wf_db db ->
  let rs := fst (serve reqs db) in
  let db' := snd (serve reqs db) in
  NoDup (concat (map issued rs))
  /\ (forall i j ri rj id,
        i <> j -> nth_error rs i = Some ri -> nth_error rs j = Some rj ->
        In id (issued ri) -> ~ In id (issued rj))
  /\ (forall id, In id (concat (map issued rs)) ->
        forall kv, In kv db' -> keyId (snd kv) = id -> used (snd kv) = true)
  /\ (forall ref kv type size,
        nth_error db' ref = Some kv ->
        In (keyId (snd kv)) (concat (map issued rs)) ->
        ~ In ref (availableKeys type size db')).
Proof.
  intros Hwf. cbv zeta.
  destruct (serve_inv reqs db (wf_db_ids db Hwf)) as (H1 & _ & H3 & _).
  split; [exact H1|]. split; [|split; [exact H3|]].
  - intros i j ri rj id Hij Hi Hj.
    apply (NoDup_concat_disjoint _ H1 i j); auto;
      rewrite nth_error_map; [now rewrite Hi|now rewrite Hj].
  - intros ref kv type size E Hin Hav.
    apply availableKeys_spec in Hav as (kv' & E' & Hun).
    rewrite E in E'. injection E' as <-.
    rewrite (H3 _ Hin kv (nth_error_In _ _ E) eq_refl) in Hun. discriminate.
Qed.

End PoolFacts.

(** * The encryption engine *)

Section Engine.
Import EncryptionEngine.

Context {W : Type} (svc : Services W).

(** A [try] with a handler that returns never throws. *)
Lemma try_catch_total {A} (c : M W A) (h : jsstring -> A) (w : W) :
  try_catch c (fun m => ret (h m)) w
  = match c w with
    | (Ok a, w') => (Ok a, w')
    | (Throw m, w') => (Ok (h m), w')
    end.
Proof. unfold try_catch, ret. now destruct (c w) as [[a|m] w']. Qed.

Lemma encrypt_push_total (level : jsstring) (a : Attachment) (w : W) :
  exists x w', encrypt_push svc level a w = (Ok x, w').
Proof.
  unfold encrypt_push. rewrite try_catch_total.
  destruct (encrypt_one svc level a w) as [[x|m] w']; eauto.
Qed.

Lemma encryptAttachments_total (level : jsstring) (atts : list Attachment) :
  forall w, exists l w',
    encryptAttachments svc atts level w = (Ok l, w')
    /\ length l = length atts.
Proof.
  induction atts as [|a atts IH]; intros w.
  - exists [], w. now split.
  - cbn [encryptAttachments]. unfold bind.
    destruct (encrypt_push_total level a w) as (x & w1 & ->).
    destruct (IH w1) as (l & w2 & -> & Hl).
    exists (x :: l), w2. split; [reflexivity|]. cbn. now rewrite Hl.
Qed.





Lemma decrypt_push_total (a : Attachment) (m : option Metadata) (w : W) :
  exists x w',
    decrypt_push svc a m w = (Ok x, w') /\ decrypt_outcome svc a m x.
Proof.
  unfold decrypt_push, decrypt_outcome. rewrite try_catch_total.
  destruct (decrypt_one svc a m w) as [[x|message] w'] eqn:E; eauto 10.
Qed.

Lemma decryptAttachments_from_spec (metadataArray : list (option Metadata))
      (atts : list Attachment) :
  forall i w, exists l w',
    decryptAttachments_from svc i atts metadataArray w = (Ok l, w')
    /\ length l = length atts
    /\ forall j a, nth_error atts j = Some a ->
         exists x, nth_error l j = Some x
                   /\ decrypt_outcome svc a (metadata_at metadataArray (i + j)) x.
Proof.
  induction atts as [|a atts IH]; intros i w.
  - exists [], w. repeat split. intros [|j] a H; discriminate.
  - cbn [decryptAttachments_from]. unfold bind.
    destruct (decrypt_push_total a (metadata_at metadataArray i) w)
      as (x & w1 & -> & Hx).
    destruct (IH (S i) w1) as (l & w2 & -> & Hl & Hnth).
    exists (x :: l), w2. split; [reflexivity|]. split; [cbn; now rewrite Hl|].
    intros [|j] b Hb; cbn in Hb.
    + injection Hb as <-. exists x. rewrite Nat.add_0_r. now split.
    + destruct (Hnth j b Hb) as (y & Hy & Ho). exists y. split; [exact Hy|].
      now rewrite Nat.add_succ_r.
Qed.

Lemma decryptSubject_total (s : jsstring) (m : option Metadata) (w : W) :
  exists x w',
    decryptSubject svc s m w = (Ok x, w')
    /\ ((exists message, decryptSubject_try svc s m w = (Throw message, w')
                         /\ x = decryption_failed_subject)
        \/ decryptSubject_try svc s m w = (Ok x, w')).
Proof.
  unfold decryptSubject. rewrite try_catch_total.
  destruct (decryptSubject_try svc s m w) as [[x|message] w']; eauto 10.
Qed.

Lemma decryptBody_total (s : jsstring) (m : option Metadata) (w : W) :
  exists x w',
    decryptBody svc s m w = (Ok x, w')
    /\ ((exists message, decryptBody_try svc s m w = (Throw message, w')
                         /\ x = decryption_failed_body)
        \/ decryptBody_try svc s m w = (Ok x, w')).
Proof.
  unfold decryptBody. rewrite try_catch_total.
  destruct (decryptBody_try svc s m w) as [[x|message] w']; eauto 10.
Qed.







(** C9.  An email whose [encrypted] field is absent or false comes back
    as it is, with success and [wasEncrypted: false]; the services are
    at most initialized, and [decryptData] plays no part in the result. *)
Theorem decryptEmail_not_encrypted (e : Email) (st : State W) :
  email_encrypted e = None \/ email_encrypted e = Some false ->
  decryptEmail svc e st
  = (DecryptSuccess e false None, snd (ensure_initialized svc st))
  /\ forall other_decryptData,
       decryptEmail
         {| initialize_services := initialize_services svc;
            getCurrentSecurityLevel := getCurrentSecurityLevel svc;
            encryptData := encryptData svc;
            decryptData := other_decryptData;
            newEncryptionId := newEncryptionId svc;
            toISOString := toISOString svc |} e st
       = decryptEmail svc e st.
Proof.
  intros H.
  assert (Hf : is_true (email_encrypted e) = false)
    by (destruct H as [-> | ->]; reflexivity).
  split; [|intros other_decryptData];
    unfold decryptEmail, decryptEmail_try, bind, ensure_initialized, initialize;
    destruct (isInitialized st); rewrite Hf; reflexivity.
Qed.


End Engine.

(** * Further facts *)

(** With the mock key manager, the one-time pad cannot encrypt the empty
    string: the key of zero bits is the empty string, which the service
    takes for a missing key. *)
Lemma mock_rejects_empty_plaintext (w : KMService.MockWorld) :
  exists w',
    SecurityService.encryptWithOTP SecurityService.mock_env [] w
    = (Throw (lit "Failed to obtain quantum key for OTP encryption"), w').
Proof.
  eexists. unfold SecurityService.encryptWithOTP, bind. cbn. reflexivity.
Qed.

Section QuantumAES.

Context {W : Type} (env : SecurityService.Env W)
        (crypto : SecurityService.CryptoJS).

(** [decryptFromQuantumAES] compares no authentication tag of its own:
    when the key is retrieved and CryptoJS returns a text that is not
    empty, that text is the result, with [verified: true]. *)
Lemma decryptFromQuantumAES_accepts
      (encrypted : SecurityService.EncryptedData) (id material : jsstring)
      (seed iv plain : list Z) (text : jsstring) (w w' : W) :
  SecurityService.quantumKeyId encrypted = Some id -> id <> [] ->
  SecurityService.returns_material env id material w w' ->
  SecurityService.base64ToBytes material = Ok seed ->
  SecurityService.Hex_parse crypto (SecurityService.iv encrypted) = Ok iv ->
  SecurityService.AES_decrypt crypto (SecurityService.encryptedData encrypted)
    (SecurityService.SHA256 crypto seed) iv = Ok plain ->
  SecurityService.Utf8_stringify crypto plain = Ok text ->
  text <> [] ->
  SecurityService.decryptFromQuantumAES env crypto encrypted w
  = (Ok (SecurityService.decrypted_AES text), w').
Proof.
  intros Hid Hne (response & k & others & Hget & Hst & Hks & Hmat)
         Hseed Hiv Hdec Hutf Htext.
  unfold SecurityService.decryptFromQuantumAES. rewrite Hid.
  destruct id as [|c id]; [contradiction|].
  unfold bind. rewrite Hget, Hks, Hst.
  replace (str_eqb (lit "success") (lit "success")) with true by reflexivity.
  cbn [negb]. unfold lift. rewrite Hmat, Hseed, Hiv, Hdec, Hutf.
  destruct text; [contradiction|reflexivity].
Qed.

End QuantumAES.

Section PoolSuccess.
Import KeyManagerServer.

Lemma taken_keys (e : Endpoint) (req : KeyRequest) (db : KeyDatabase) :
  length (flat_map (key_out_at db) (taken e req db))
  = length (taken e req db).
Proof.
  destruct (taken_spec e req db) as [_ Hvalid].
  induction (taken e req db) as [|ref refs IH]; [reflexivity|].
  cbn [flat_map]. rewrite length_app, IH by (intros r Hr; apply Hvalid; now right).
  destruct (Hvalid ref (or_introl eq_refl)) as ([k entry] & E & _).
  unfold key_out_at. now rewrite E.
Qed.


End PoolSuccess.

Section Pool.
Import KeyManagerServer.

Lemma str_eqb_eq (s t : jsstring) : str_eqb s t = true <-> s = t.
Proof.
  revert t. induction s as [|c s IH]; intros [|d t]; cbn; split;
    try discriminate; try reflexivity.
  - intros H. apply andb_true_iff in H as [H1 H2].
    apply Z.eqb_eq in H1. apply IH in H2. now subst.
  - intros [= -> ->]. rewrite Z.eqb_refl. now apply IH.
Qed.

Lemma Map_set_keys (db : KeyDatabase) (k : jsstring) (v : KeyEntry)
      (x : jsstring) :
  In x (map fst (Map_set db k v)) -> In x (map fst db) \/ x = k.
Proof.
  induction db as [|[k' v'] db IH]; cbn.
  - intros [<-|[]]. now right.
  - destruct (str_eqb k' k) eqn:E; cbn.
    + apply str_eqb_eq in E. subst. intros [<-|H]; auto.
    + intros [<-|H]; [auto|]. destruct (IH H); auto.
Qed.

Lemma Map_set_wf (db : KeyDatabase) (k : jsstring) (v : KeyEntry) :
  wf_db db -> keyId v = k -> wf_db (Map_set db k v).
Proof.
  intros [Hn Hf] Hk. induction db as [|[k' v'] db IH]; cbn.
  - split; [repeat constructor; auto|repeat constructor; exact Hk].
  - cbn in Hn. inversion_clear Hn as [|? ? Hk' Hn'].
    inversion_clear Hf as [|? ? Hv' Hf'].
    destruct (str_eqb k' k) eqn:E.
    + apply str_eqb_eq in E. subst k'. split; cbn.
      * now constructor.
      * constructor; [exact Hk|exact Hf'].
    + destruct (IH Hn' Hf') as [In1 In2]. split; cbn.
      * constructor; [|exact In1]. intros Hin.
        apply Map_set_keys in Hin as [Hin | ->]; [contradiction|].
        assert (str_eqb k k = true) by now apply str_eqb_eq. congruence.
      * constructor; assumption.
Qed.

Lemma fold_Map_set_wf (f : nat -> jsstring) (g : nat -> KeyEntry)
      (l : list nat) :
  (forall i, keyId (g i) = f i) ->
  forall db, wf_db db ->
  wf_db (fold_left (fun db i => Map_set db (f i) (g i)) l db).
Proof.
  intros Hfg. induction l as [|i l IH]; intros db Hdb; [exact Hdb|].
  cbn [fold_left]. apply IH. now apply Map_set_wf.
Qed.

(** Whatever the random source delivers, [initializeKeys] builds a pool
    with one record per [keyId]. *)
Lemma initializeKeys_wf (draws : nat -> Draw) : wf_db (initializeKeys draws).
Proof.
  unfold initializeKeys.
  apply (fold_Map_set_wf
           (fun i => generateKeyId (draws (10 + i)%nat))
           (fun i => sample_key (draws (10 + i)%nat) 1024 (lit "otp")));
    [reflexivity|].
  apply (fold_Map_set_wf
           (fun i => generateKeyId (draws i))
           (fun i => sample_key (draws i) 256 (lit "encryption")));
    [reflexivity|].
  split; constructor.
Qed.

End Pool.

(** * The status endpoints and the size of the pool *)

Section PoolAccounting.
Import KeyManagerServer.

Lemma filter_split_length {A} (f : A -> bool) (l : list A) :
  (length (filter f l) + length (filter (fun x => negb (f x)) l))%nat
  = length l.
Proof.
  induction l as [|x l IH]; [reflexivity|].
  cbn. destruct (f x); cbn; lia.
Qed.

Lemma status_endpoints_agree (slave_sae_id : jsstring) (d d' : Draw)
      (db : KeyDatabase) :
  stored_key_count (get_key_status slave_sae_id d db)
  = status_availableKeys (get_status d' db)
  /\ 0 <= stored_key_count (get_key_status slave_sae_id d db)
          <= Z.of_nat (length db).
Proof.
  cbn [get_key_status get_status stored_key_count status_availableKeys].
  pose proof (filter_split_length (fun kv => used (snd kv)) db) as H.
  cbv beta in H. lia.
Qed.

Lemma mark_used_length (db : KeyDatabase) :
  forall ref, length (mark_used db ref) = length db.
Proof.
  induction db as [|[k e] db IH]; intros [|ref]; cbn; auto.
Qed.

Lemma mark_all_length (refs : list nat) :
  forall db, length (fold_left mark_used refs db) = length db.
Proof.
  induction refs as [|r refs IH]; intros db; [reflexivity|].
  cbn [fold_left]. now rewrite IH, mark_used_length.
Qed.

Lemma mark_used_count (db : KeyDatabase) :
  forall ref kv,
    nth_error db ref = Some kv -> used (snd kv) = false ->
    S (length (filter (fun kv => negb (used (snd kv))) (mark_used db ref)))
    = length (filter (fun kv => negb (used (snd kv))) db).
Proof.
  induction db as [|[k e] db IH]; intros [|ref] kv E Hu; cbn in E;
    try discriminate.
  - injection E as <-. cbn [snd] in Hu.
    cbn [mark_used filter snd set_used used]. rewrite Hu. reflexivity.
  - specialize (IH ref kv E Hu). cbn [mark_used filter snd].
    destruct (negb (used e)); cbn [length]; lia.
Qed.

Lemma mark_all_count (refs : list nat) :
  forall db,
    NoDup refs ->
    (forall ref, In ref refs ->
       exists kv, nth_error db ref = Some kv /\ used (snd kv) = false) ->
    (length (filter (fun kv => negb (used (snd kv)))
               (fold_left mark_used refs db)) + length refs)%nat
    = length (filter (fun kv => negb (used (snd kv))) db).
Proof.
  induction refs as [|r refs IH]; intros db Hn Hu.
  - cbn [fold_left length]. lia.
  - inversion_clear Hn as [|? ? Hr Hn'].
    destruct (Hu r (or_introl eq_refl)) as (kv & E & Hkv).
    cbn [fold_left]. pose proof (mark_used_count db r kv E Hkv) as Hc.
    rewrite <- Hc. cbn [length].
    rewrite <- (IH (mark_used db r)); [lia|assumption|].
    intros ref Hin. destruct (Hu ref (or_intror Hin)) as (kv' & E' & Hkv').
    exists kv'. split; [|assumption].
    rewrite mark_used_nth.
    destruct (Nat.eqb r ref) eqn:Er; [|assumption].
    apply Nat.eqb_eq in Er. now subst.
Qed.

Lemma handle_count (e : Endpoint) (req : KeyRequest) (d : Draw)
      (db : KeyDatabase) :
  status_availableKeys (get_status fixed_draw (snd (handle e req d db)))
  = status_availableKeys (get_status fixed_draw db)
    - Z.of_nat (length (issued (fst (handle e req d db))))
  /\ length (snd (handle e req d db)) = length db.
Proof.
  rewrite handle_unfold. cbv zeta. destruct (_ <? _); cbn [fst snd issued].
  - cbn [length]. split; [lia|reflexivity].
  - rewrite length_map, taken_keys, mark_all_length.
    destruct (taken_spec e req db) as [Hn Hu].
    split; [|reflexivity].
    cbn [get_status status_availableKeys].
    pose proof (mark_all_count (taken e req db) db Hn Hu). lia.
Qed.

(** Over any run of key requests the pool keeps its size, and the number
    of unused keys that [/api/v1/status] reports afterwards is the number
    before the run minus the number of keys handed out: nothing refills
    the pool, so no run hands out more keys than were unused at its
    start.  The [stored_key_count] of [/api/v1/keys/:slave_sae_id/status],
    computed as the size of the pool minus the number of used records,
    is the same number. *)
Theorem pool_accounting (reqs : list (Endpoint * KeyRequest * Draw))
        (d d' : Draw) (slave_sae_id : jsstring) (db : KeyDatabase) :
  let rs := fst (serve reqs db) in
  let db' := snd (serve reqs db) in
  let handed_out := Z.of_nat (length (concat (map issued rs))) in
  length db' = length db
  /\ status_availableKeys (get_status d' db')
     = status_availableKeys (get_status d db) - handed_out
  /\ handed_out <= status_availableKeys (get_status d db)
  /\ stored_key_count (get_key_status slave_sae_id d' db')
     = status_availableKeys (get_status d' db').
Proof.
  cbv zeta.
  assert (S : stored_key_count
                (get_key_status slave_sae_id d' (snd (serve reqs db)))
              = status_availableKeys (get_status d' (snd (serve reqs db))))
    by apply status_endpoints_agree.
  cut (length (snd (serve reqs db)) = length db
       /\ status_availableKeys (get_status d' (snd (serve reqs db)))
          = status_availableKeys (get_status d db)
            - Z.of_nat (length (concat (map issued (fst (serve reqs db)))))
       /\ Z.of_nat (length (concat (map issued (fst (serve reqs db)))))
          <= status_availableKeys (get_status d db)).
  { intros (G1 & G2 & G3). repeat split; assumption. }
  clear S.
  assert (G : length (snd (serve reqs db)) = length db
              /\ status_availableKeys (get_status fixed_draw (snd (serve reqs db)))
                 = status_availableKeys (get_status fixed_draw db)
                   - Z.of_nat (length (concat (map issued (fst (serve reqs db)))))).
  { revert db. induction reqs as [|[[e req] dr] reqs IH]; intros db.
    - cbn. split; [reflexivity|lia].
    - cbn [serve]. destruct (handle_count e req dr db) as [Hc Hl].
      destruct (handle e req dr db) as [r db1]. cbn [fst snd] in *.
      destruct (IH db1) as [Hl' Hc'].
      destruct (serve reqs db1) as [rs db2]. cbn [fst snd] in *.
      cbn [map concat]. rewrite length_app. split; [congruence|lia]. }
  destruct G as [Hl Hc]. split; [exact Hl|].
  change (status_availableKeys (get_status d' (snd (serve reqs db))))
    with (status_availableKeys (get_status fixed_draw (snd (serve reqs db)))).
  change (status_availableKeys (get_status d db))
    with (status_availableKeys (get_status fixed_draw db)).
  split; [exact Hc|].
  assert (0 <= status_availableKeys
                 (get_status fixed_draw (snd (serve reqs db))))
    by (cbn; lia).
  lia.
Qed.

Lemma Map_set_fresh (db : KeyDatabase) (k : jsstring) (v : KeyEntry) :
  ~ In k (map fst db) -> Map_set db k v = db ++ [(k, v)].
Proof.
  induction db as [|[k' v'] db IH]; intros H; [reflexivity|].
  cbn in *. destruct (str_eqb k' k) eqn:E.
  - apply str_eqb_eq in E. tauto.
  - now rewrite IH by tauto.
Qed.

Lemma fold_Map_set_fresh (f : nat -> jsstring) (g : nat -> KeyEntry)
      (l : list nat) :
  forall db,
    NoDup (map fst db ++ map f l) ->
    fold_left (fun db i => Map_set db (f i) (g i)) l db
    = db ++ map (fun i => (f i, g i)) l.
Proof.
  induction l as [|i l IH]; intros db H; cbn [fold_left map].
  - now rewrite app_nil_r.
  - cbn [map] in H. rewrite Map_set_fresh.
    + rewrite IH.
      * now rewrite <- app_assoc.
      * rewrite map_app. cbn [map fst]. now rewrite <- app_assoc.
    + intros Hin. apply NoDup_remove_2 in H. apply H, in_or_app. now left.
Qed.

(** The pool as [initializeKeys] builds it when the thirty UUIDs are
    pairwise distinct. *)
Lemma initializeKeys_distinct (draws : nat -> Draw) :
  NoDup (map (fun i => randomUUID (draws i)) (seq 0 30)) ->
  initializeKeys draws
  = map (fun i => (randomUUID (draws i),
                   sample_key (draws i) 256 (lit "encryption"))) (seq 0 10)
    ++ map (fun i => (randomUUID (draws i),
                      sample_key (draws i) 1024 (lit "otp"))) (seq 10 20).
Proof.
  intros H. unfold initializeKeys, generateKeyId.
  replace (seq 0 30) with (seq 0 10 ++ seq 10 20) in H by reflexivity.
  rewrite map_app in H.
  assert (H10 : NoDup (map (fun i => randomUUID (draws i)) (seq 0 10)))
    by (eapply NoDup_app_remove_r, H).
  pose proof (fold_Map_set_fresh (fun i => randomUUID (draws i))
                (fun i => sample_key (draws i) 256 (lit "encryption"))
                (seq 0 10) [] H10) as E1.
  cbv beta in E1. rewrite E1, app_nil_l. clear E1.
  pose proof (fold_Map_set_fresh (fun i => randomUUID (draws (10 + i)%nat))
                (fun i => sample_key (draws (10 + i)%nat) 1024 (lit "otp"))
                (seq 0 20)
                (map (fun i => (randomUUID (draws i),
                                sample_key (draws i) 256 (lit "encryption")))
                   (seq 0 10))) as E2.
  cbv beta in E2. rewrite E2; clear E2.
  - reflexivity.
  - rewrite map_map. cbn [fst]. exact H.
Qed.

Lemma availableKeys_ext (type : jsstring) (size size' : Z)
      (db : KeyDatabase) :
  (forall kv, In kv db -> keyType (snd kv) = type ->
     (size <=? keySize (snd kv)) = (size' <=? keySize (snd kv))) ->
  availableKeys type size db = availableKeys type size' db.
Proof.
  intros H. unfold availableKeys. apply filter_ext_in. intros ref _.
  destruct (nth_error db ref) as [[k e]|] eqn:E; [|reflexivity].
  destruct (str_eqb (keyType e) type) eqn:Et.
  - apply str_eqb_eq in Et.
    pose proof (H (k, e) (nth_error_In _ _ E) Et) as Hs. cbn [snd] in Hs.
    now rewrite Hs.
  - now rewrite !andb_false_r.
Qed.

Lemma initial_sizes (draws : nat -> Draw) (kv : jsstring * KeyEntry) :
  In kv (map (fun i => (randomUUID (draws i),
                        sample_key (draws i) 256 (lit "encryption")))
           (seq 0 10)
         ++ map (fun i => (randomUUID (draws i),
                           sample_key (draws i) 1024 (lit "otp")))
              (seq 10 20)) ->
  (keyType (snd kv) = lit "encryption" /\ keySize (snd kv) = 256)
  \/ (keyType (snd kv) = lit "otp" /\ keySize (snd kv) = 1024).
Proof.
  intros H. apply in_app_or in H as [H|H];
    apply in_map_iff in H as (i & <- & _); [left|right]; split; reflexivity.
Qed.

(** With pairwise distinct UUIDs the pool starts with thirty unused
    keys: the ten encryption keys of 256 bits are the candidates of
    [enc_keys] for every size up to 256 (none for a larger size), the
    twenty one-time-pad keys of 1024 bits those of [otp_keys] for every
    size up to 1024. *)
Theorem initializeKeys_capacity (draws : nat -> Draw) (d : Draw) (size : Z) :
  NoDup (map (fun i => randomUUID (draws i)) (seq 0 30)) ->
  let db := initializeKeys draws in
  length db = 30%nat
  /\ status_availableKeys (get_status d db) = 30
  /\ availableKeys (lit "encryption") size db
     = (if size <=? 256 then seq 0 10 else [])
  /\ availableKeys (lit "otp") size db
     = (if size <=? 1024 then seq 10 20 else []).
Proof.
  intros H. cbv zeta. rewrite (initializeKeys_distinct draws H).
  split; [vm_compute; reflexivity|]. split; [vm_compute; reflexivity|].
  split.
  - destruct (size <=? 256) eqn:E.
    + rewrite (availableKeys_ext _ size 256); [vm_compute; reflexivity|].
      intros kv Hin Ht.
      destruct (initial_sizes draws kv Hin) as [[_ ->]|[Ht' _]].
      * rewrite E. reflexivity.
      * rewrite Ht in Ht'. discriminate.
    + rewrite (availableKeys_ext _ size 257); [vm_compute; reflexivity|].
      intros kv Hin Ht.
      destruct (initial_sizes draws kv Hin) as [[_ ->]|[Ht' _]].
      * rewrite E. reflexivity.
      * rewrite Ht in Ht'. discriminate.
  - destruct (size <=? 1024) eqn:E.
    + rewrite (availableKeys_ext _ size 1024); [vm_compute; reflexivity|].
      intros kv Hin Ht.
      destruct (initial_sizes draws kv Hin) as [[Ht' _]|[_ ->]].
      * rewrite Ht in Ht'. discriminate.
      * rewrite E. reflexivity.
    + rewrite (availableKeys_ext _ size 1025); [vm_compute; reflexivity|].
      intros kv Hin Ht.
      destruct (initial_sizes draws kv Hin) as [[Ht' _]|[_ ->]].
      * rewrite Ht in Ht'. discriminate.
      * rewrite E. reflexivity.
Qed.

End PoolAccounting.

(** * The mock key manager of the front end *)

Section MockKeys.
Import KMService.

Lemma hex2_hex (n : Z) : 0 <= n < 256 -> Forall is_hex (hex2 n).
Proof.
  intros H. unfold hex2, hex_digit, is_hex.
  assert (0 <= n / 16 < 16)
    by (split; [apply Z.div_pos|apply Z.div_lt_upper_bound]; lia).
  assert (0 <= n mod 16 < 16) by (apply Z.mod_pos_bound; lia).
  apply Forall_cons; [|apply Forall_cons; [|apply Forall_nil]];
    match goal with |- context [?a <? 10] => destruct (Z.ltb_spec a 10) end;
    lia.
Qed.

Lemma mock_hex_shape (count : nat) :
  forall w,
    length (fst (mock_hex count w)) = (2 * count)%nat
    /\ Forall is_hex (fst (mock_hex count w))
    /\ drawn (snd (mock_hex count w)) = (drawn w + count)%nat
    /\ random_byte (snd (mock_hex count w)) = random_byte w
    /\ random_id (snd (mock_hex count w)) = random_id w.
Proof.
  induction count as [|count IH]; intros w.
  - cbn. repeat split; [constructor|lia].
  - cbn [mock_hex].
    specialize (IH {| random_byte := random_byte w; random_id := random_id w;
                      drawn := S (drawn w) |}).
    destruct (mock_hex count _) as [more w']. cbn [fst snd] in *.
    destruct IH as (Hl & Hh & Hd & Hb & Hi). cbn [drawn random_byte random_id] in *.
    rewrite length_app, Hl. cbn [hex2 length].
    split; [lia|]. split; [|split; [lia|split; assumption]].
    apply Forall_app. split; [|assumption].
    apply hex2_hex, Z.mod_pos_bound. lia.
Qed.

Lemma generateMockKey_facts (keyId : option jsstring) (keySize : Z)
        (w : MockWorld) :
  let k := fst (generateMockKey keyId keySize w) in
  key_ID k = (if truthy keyId then match keyId with Some id => id | None => [] end
              else random_id w (drawn w))
  /\ Z.of_nat (length (key k)) = 2 * Z.max 0 (ceil_div8 keySize)
  /\ Forall is_hex (key k).
Proof.
  cbv zeta. unfold generateMockKey.
  set (w1 := match keyId with
             | Some (c :: rest) => (c :: rest, w)
             | _ => (random_id w (drawn w),
                     {| random_byte := random_byte w; random_id := random_id w;
                        drawn := S (drawn w) |})
             end).
  assert (Hid : fst w1 = if truthy keyId
                         then match keyId with Some id => id | None => [] end
                         else random_id w (drawn w))
    by (unfold w1; destruct keyId as [[|c rest]|]; reflexivity).
  destruct w1 as [id w1]. cbn [fst] in Hid.
  destruct (mock_hex_shape (Z.to_nat (ceil_div8 keySize)) w1) as (Hl & Hh & _).
  destruct (mock_hex _ w1) as [digits w2]. cbn [fst snd key_ID key] in *.
  split; [exact Hid|]. split; [|exact Hh]. rewrite Hl. lia.
Qed.

(** The mock makes its key out of lowercase hexadecimal digits, two for
    each of the [keySize / 8] bytes it draws (none for a size that is not
    positive), and gives it the id asked for, or a fresh one when the id
    is missing or empty. *)
Theorem generateMockKey_shape (keyId : option jsstring) (keySize : Z)
        (w : MockWorld) :
  let k := fst (generateMockKey keyId keySize w) in
  key_ID k = (if truthy keyId then match keyId with Some id => id | None => [] end
              else random_id w (drawn w))
  /\ Z.of_nat (length (key k)) = 2 * Z.max 0 (ceil_div8 keySize)
  /\ Forall is_hex (key k).
Proof. exact (generateMockKey_facts keyId keySize w). Qed.

Lemma generateMockKeys_facts (ids : list (option jsstring)) :
  forall w,
    length (fst (generateMockKeys ids w)) = length ids
    /\ (forall i id,
          nth_error ids i = Some (Some id) -> id <> [] ->
          exists k, nth_error (fst (generateMockKeys ids w)) i = Some k
                    /\ key_ID k = id)
    /\ Forall (fun k => length (key k) = 64%nat /\ Forall is_hex (key k))
         (fst (generateMockKeys ids w)).
Proof.
  induction ids as [|id0 ids IH]; intros w.
  - cbn. split; [reflexivity|]. split; [|constructor].
    intros [|i] id H; discriminate.
  - cbn [generateMockKeys].
    pose proof (generateMockKey_facts id0 256 w) as Hk. cbv zeta in Hk.
    destruct (generateMockKey id0 256 w) as [k w1]. cbn [fst] in Hk.
    destruct Hk as (Hid & Hlen & Hhex).
    specialize (IH w1). destruct (generateMockKeys ids w1) as [ks w2].
    cbn [fst] in *. destruct IH as (Hl & Hids & Hall).
    split; [cbn; now rewrite Hl|]. split.
    + intros [|i] id H Hne; cbn in H.
      * injection H as ->. exists k. split; [reflexivity|].
        rewrite Hid. destruct id; [contradiction|reflexivity].
      * cbn. now apply Hids.
    + constructor; [|assumption]. split; [|assumption].
      change (ceil_div8 256) with 32 in Hlen. lia.
Qed.

Lemma generateMockKey_material (id id' : option jsstring) (keySize : Z)
      (w : MockWorld) :
  truthy id' = truthy id ->
  key (fst (generateMockKey id' keySize w))
  = key (fst (generateMockKey id keySize w))
  /\ snd (generateMockKey id' keySize w) = snd (generateMockKey id keySize w).
Proof.
  intros H. unfold generateMockKey.
  destruct id as [[|c rest]|], id' as [[|c' rest']|]; try discriminate H;
    match goal with
    | |- context [mock_hex ?n ?w1] => destruct (mock_hex n w1)
    end; now split.
Qed.

Lemma generateMockKeys_material (ids : list (option jsstring)) :
  forall ids' w,
    map truthy ids' = map truthy ids ->
    map key (fst (generateMockKeys ids' w))
    = map key (fst (generateMockKeys ids w))
    /\ snd (generateMockKeys ids' w) = snd (generateMockKeys ids w).
Proof.
  induction ids as [|id ids IH]; intros [|id' ids'] w H; try discriminate H.
  - now split.
  - cbn [map] in H. injection H as H0 H.
    cbn [generateMockKeys].
    destruct (generateMockKey_material id id' 256 w H0) as [Hk Hw].
    destruct (generateMockKey id' 256 w) as [k' w1'].
    destruct (generateMockKey id 256 w) as [k w1].
    cbn [fst snd] in Hk, Hw. subst w1'.
    destruct (IH ids' w1 H) as [Hks Hws].
    destruct (generateMockKeys ids' w1) as [ks' w2'].
    destruct (generateMockKeys ids w1) as [ks w2].
    cbn [fst snd map] in *. split; congruence.
Qed.

(** The mock answers a request for decryption keys with one key per
    id, in the order of the ids and under the ids asked for, each of
    sixty-four hexadecimal digits.  The key material comes from the
    random source alone: a request with other ids, missing or empty at
    the same positions, gets the same key material in the same state of
    the random source.  The mock looks up no key it handed out. *)
Theorem mock_requestDecryptionKey_keys (keyIds : KeyIds) (w : MockWorld) :
  let ids := match keyIds with IdArray ids => ids | OneId id => [id] end in
  let response := fst (mock_requestDecryptionKey keyIds w) in
  status response = lit "success"
  /\ length (keys response) = length ids
  /\ (forall i id,
        nth_error ids i = Some (Some id) -> id <> [] ->
        exists k, nth_error (keys response) i = Some k /\ key_ID k = id)
  /\ Forall (fun k => length (key k) = 64%nat /\ Forall is_hex (key k))
       (keys response)
  /\ (forall ids',
        map truthy ids' = map truthy ids ->
        map key (keys (fst (mock_requestDecryptionKey (IdArray ids') w)))
        = map key (keys response)).
Proof.
  cbv zeta. unfold mock_requestDecryptionKey.
  set (ids := match keyIds with IdArray ids => ids | OneId id => [id] end).
  pose proof (generateMockKeys_facts ids w) as H.
  pose proof (fun ids' => generateMockKeys_material ids ids' w) as Hm.
  destruct (generateMockKeys ids w) as [ks w'] eqn:E. cbn [fst keys status] in *.
  split; [reflexivity|].
  destruct H as (H1 & H2 & H3). split; [exact H1|]. split; [exact H2|].
  split; [exact H3|].
  intros ids' Hids. destruct (Hm ids' Hids) as [Hk _].
  destruct (generateMockKeys ids' w) as [ks' w'']. exact Hk.
Qed.

Lemma mock_key_verdict (keyId : option jsstring) (keySize : Z)
        (w : MockWorld) (Date_parse : jsstring -> option Z)
        (timestamp : jsstring) (keyTime now : Z) :
  timestamp <> [] -> Date_parse timestamp = Some keyTime ->
  random_id w (drawn w) <> [] ->
  validateKey Date_parse now
    (Some (mock_key_object (fst (generateMockKey keyId keySize w)) timestamp))
  = (0 <? keySize) && (now - keyTime <=? 3600 * 1000).
Proof.
  intros Hts Hparse Hrid.
  pose proof (generateMockKey_facts keyId keySize w) as Hk. cbv zeta in Hk.
  destruct (generateMockKey keyId keySize w) as [k w1]. cbn [fst] in *.
  destruct Hk as (Hid & Hlen & _).
  unfold validateKey, mock_key_object.
  cbn [ko_key_ID ko_key ko_timestamp ko_status].
  assert (Hidne : truthy (Some (key_ID k)) = true).
  { rewrite Hid. destruct keyId as [[|c id]|]; cbn [truthy];
      try reflexivity; destruct (random_id w (drawn w)); congruence. }
  rewrite Hidne. cbn [negb orb].
  replace (str_eqb AVAILABLE AVAILABLE) with true by reflexivity.
  rewrite Hparse.
  assert (Hts' : truthy (Some timestamp) = true)
    by (destruct timestamp; [contradiction|reflexivity]).
  rewrite Hts'. cbn [andb].
  assert (Hc : 0 < ceil_div8 keySize <-> 0 < keySize).
  { unfold ceil_div8.
    pose proof (Z.div_mod (- keySize) 8 ltac:(lia)).
    pose proof (Z.mod_pos_bound (- keySize) 8 ltac:(lia)). lia. }
  destruct (Z.ltb_spec 0 keySize) as [Hpos|Hneg].
  - assert (Hkey : truthy (Some (key k)) = true).
    { destruct (key k); [cbn [length] in Hlen; lia|reflexivity]. }
    rewrite Hkey. cbn [negb andb].
    destruct (Z.ltb_spec (3600 * 1000) (now - keyTime));
      destruct (Z.leb_spec (now - keyTime) (3600 * 1000)); try lia; reflexivity.
  - assert (Hkey : truthy (Some (key k)) = false).
    { destruct (key k); [reflexivity|cbn [length] in Hlen; lia]. }
    rewrite Hkey. reflexivity.
Qed.

Lemma server_key_verdict (Date_parse : jsstring -> option Z)
        (now : Z) (k : KeyManagerServer.KeyOut) :
  validateKey Date_parse now (Some (server_key_object k)) = false.
Proof.
  unfold validateKey, server_key_object.
  cbn [ko_key_ID ko_key ko_timestamp ko_status].
  destruct (negb _ || negb _); [reflexivity|].
  now destruct (truthy _ && _).
Qed.

(** [validateKey] by the origin of the key.  A key the mock has just
    made passes exactly when its size is positive (the key of a size that
    is not positive is the empty string) and it is at most an hour old.
    No key of a response of the key-manager server passes: the server
    sends [key_ID], [key], [key_size] and [timestamp], but no [status]. *)
Theorem validateKey_by_origin (keyId : option jsstring) (keySize : Z)
        (w : MockWorld) (Date_parse : jsstring -> option Z)
        (timestamp : jsstring) (keyTime now : Z) :
  timestamp <> [] -> Date_parse timestamp = Some keyTime ->
  random_id w (drawn w) <> [] ->
  validateKey Date_parse now
    (Some (mock_key_object (fst (generateMockKey keyId keySize w)) timestamp))
  = (0 <? keySize) && (now - keyTime <=? 3600 * 1000)
  /\ forall k : KeyManagerServer.KeyOut,
       validateKey Date_parse now (Some (server_key_object k)) = false.
Proof.
  intros Hts Hparse Hrid. split.
  - now apply mock_key_verdict.
  - intros k. apply server_key_verdict.
Qed.

End MockKeys.

(** ** The one-time pad over the mock *)

Lemma is_hex_value (c : Z) : is_hex c -> exists v, b64_value c = Some v.
Proof.
  intros [H|H]; unfold b64_value.
  - replace ((65 <=? c) && (c <=? 90)) with false
      by (symmetry; apply andb_false_iff; left; apply Z.leb_gt; lia).
    replace ((97 <=? c) && (c <=? 122)) with false
      by (symmetry; apply andb_false_iff; left; apply Z.leb_gt; lia).
    replace ((48 <=? c) && (c <=? 57)) with true
      by (symmetry; apply andb_true_iff; split; apply Z.leb_le; lia).
    eauto.
  - replace ((65 <=? c) && (c <=? 90)) with false
      by (symmetry; apply andb_false_iff; right; apply Z.leb_gt; lia).
    replace ((97 <=? c) && (c <=? 122)) with true
      by (symmetry; apply andb_true_iff; split; apply Z.leb_le; lia).
    eauto.
Qed.

Lemma is_hex_plain (c : Z) : is_hex c -> plain c.
Proof.
  intros H. unfold plain, is_ascii_whitespace, pad_char.
  split; [|apply Z.eqb_neq; destruct H; lia].
  repeat (apply orb_false_iff; split); apply Z.eqb_neq; destruct H; lia.
Qed.

Lemma b64_values_hex (s : jsstring) :
  Forall is_hex s -> exists vs, b64_values s = Some vs /\ length vs = length s.
Proof.
  induction 1 as [|c s Hc _ (vs & E & Hl)]; [now exists []|].
  destruct (is_hex_value c Hc) as [v Ev].
  exists (v :: vs). cbn. rewrite Ev, E. split; [reflexivity|]. now rewrite Hl.
Qed.

(** Read as base64, [2 * n] characters give at least [n] bytes. *)
Lemma b64_decode_pairs (n : nat) :
  forall vs, length vs = (2 * n)%nat -> (n <= length (b64_decode vs))%nat.
Proof.
  induction n as [n IH] using (well_founded_induction lt_wf). intros vs Hl.
  destruct n as [|[|n]].
  - lia.
  - destruct vs as [|a [|b [|c r]]]; cbn in Hl; try lia. cbn. lia.
  - destruct vs as [|a [|b [|c [|d r]]]]; cbn in Hl; try lia.
    cbn [b64_decode length].
    assert (n <= length (b64_decode r))%nat by (apply IH; lia). lia.
Qed.

Lemma strip_padding_plain (s : jsstring) : Forall plain s -> strip_padding s = s.
Proof.
  intros H. unfold strip_padding.
  destruct (Z.of_nat (length s) mod 4 =? 0); [|reflexivity].
  destruct (rev_plain s H) as [->|(c & r & -> & Hc)]; [reflexivity|].
  now rewrite Hc.
Qed.

Lemma base64ToBytes_hex (s : jsstring) (n : nat) :
  Forall is_hex s -> length s = (2 * n)%nat ->
  exists bs, SecurityService.base64ToBytes s = Ok bs /\ (n <= length bs)%nat.
Proof.
  intros Hh Hl. unfold SecurityService.base64ToBytes, atob.
  assert (Hp : Forall plain s)
    by (eapply Forall_impl; [|exact Hh]; apply is_hex_plain).
  rewrite filter_plain
    by (eapply Forall_impl; [|exact Hp]; now intros c [Hc _]).
  rewrite strip_padding_plain by assumption.
  replace (Z.of_nat (length s) mod 4 =? 1) with false.
  - destruct (b64_values_hex s Hh) as (vs & -> & Hvs). cbn [rbind].
    eexists. split; [reflexivity|]. rewrite length_map.
    apply b64_decode_pairs. lia.
  - symmetry. apply Z.eqb_neq. rewrite Hl.
    replace (Z.of_nat (2 * n)) with (2 * Z.of_nat n) by lia.
    intros E.
    pose proof (Z.div_mod (2 * Z.of_nat n) 4 ltac:(lia)). lia.
Qed.

Lemma xor_loop_bytes (a k : list Z) :
  Forall is_byte (SecurityService.xor_loop a k).
Proof.
  unfold SecurityService.xor_loop. apply Forall_forall. intros b Hb.
  apply in_map_iff in Hb as (i & <- & _).
  unfold ToUint8, is_byte. apply Z.mod_pos_bound. lia.
Qed.

Lemma xor_loop_length (a k : list Z) :
  length (SecurityService.xor_loop a k) = length a.
Proof. unfold SecurityService.xor_loop. now rewrite length_map, length_seq. Qed.

Lemma to_scalars_nil (s : jsstring) : to_scalars s = [] -> s = [].
Proof.
  destruct s as [|c s]; [reflexivity|]. cbn.
  destruct (is_lead c).
  - destruct s as [|d s]; [discriminate|]. destruct (is_trail d); discriminate.
  - destruct (is_trail c); discriminate.
Qed.

Lemma TextEncoder_encode_nil (s : jsstring) :
  TextEncoder_encode s = [] -> s = [].
Proof.
  unfold TextEncoder_encode. intros H. apply to_scalars_nil.
  destruct (to_scalars s) as [|cp cps]; [reflexivity|].
  cbn in H. apply app_eq_nil in H as [H _].
  unfold utf8_encode_cp in H.
  destruct (cp <=? 0x7F); [discriminate|].
  destruct (cp <=? 0x7FF); [discriminate|].
  destruct (cp <=? 0xFFFF); discriminate.
Qed.

(** With the mock key manager the one-time pad encrypts every text
    that is not empty: the hexadecimal key of [2 * n] digits for [n]
    bytes of text, read as base64, gives at least [n] bytes.  The result
    carries the id of the new key, and its cipher text has as many bytes
    as the encoded text. *)
Theorem mock_encryptWithOTP_succeeds (data : jsstring)
        (w : KMService.MockWorld) :
  data <> [] ->
  exists encrypted w' cipherBytes,
    SecurityService.encryptWithOTP SecurityService.mock_env data w
    = (Ok encrypted, w')
    /\ SecurityService.quantumKeyId encrypted
       = Some (KMService.random_id w (KMService.drawn w))
    /\ SecurityService.securityLevel encrypted
       = Some SecurityService.QUANTUM_SECURE
    /\ SecurityService.base64ToBytes (SecurityService.encryptedData encrypted)
       = Ok cipherBytes
    /\ length cipherBytes = length (TextEncoder_encode data).
Proof.
  intros Hne.
  set (n := length (TextEncoder_encode data)).
  assert (Hn : (0 < n)%nat).
  { destruct (TextEncoder_encode data) eqn:E;
      [apply TextEncoder_encode_nil in E; contradiction|cbn; lia]. }
  unfold SecurityService.encryptWithOTP, bind. fold n.
  unfold KMService.generateOTPKeys, bind.
  cbn [SecurityService.kmService SecurityService.mock_env
       KMService.requestEncryptionKey KMService.mock].
  assert (Hs : KMService.ceil_div8 (Z.of_nat n * 8) * 8 = Z.of_nat n * 8).
  { unfold KMService.ceil_div8.
    replace (- (Z.of_nat n * 8)) with ((- Z.of_nat n) * 8) by lia.
    rewrite Z.div_mul by lia. lia. }
  rewrite Hs.
  pose proof (generateMockKey_facts None (Z.of_nat n * 8) w) as Hk.
  cbv zeta in Hk. cbn [truthy] in Hk.
  destruct (KMService.generateMockKey None (Z.of_nat n * 8) w) as [k w1].
  cbn [fst] in Hk. destruct Hk as (Hid & Hlen & Hhex).
  assert (Hc : KMService.ceil_div8 (Z.of_nat n * 8) = Z.of_nat n) by lia.
  rewrite Hc in Hlen.
  cbn [KMService.first_key KMService.mock_success KMService.keys
       KMService.status].
  replace (str_eqb (lit "success") (lit "success")) with true by reflexivity.
  unfold ret.
  destruct (KMService.key k) as [|c key] eqn:Ek; [cbn [length] in Hlen; lia|].
  cbn [truthy_str negb]. rewrite <- Ek in *.
  destruct (base64ToBytes_hex (KMService.key k) n Hhex ltac:(lia))
    as (keyBytes & HK & Hkl).
  unfold lift. rewrite HK.
  replace (_ <? _) with false by (symmetry; apply Z.ltb_ge; lia).
  pose proof (base64ToBytes_bytesToBase64 _
                (xor_loop_bytes (TextEncoder_encode data) keyBytes)) as Hrt.
  destruct (SecurityService.bytesToBase64 _) as [encoded|] eqn:Eenc;
    [|discriminate].
  cbn [rbind] in Hrt. unfold clock.
  cbn [SecurityService.toISOString SecurityService.mock_env].
  do 3 eexists. split; [reflexivity|].
  cbn [SecurityService.quantumKeyId SecurityService.securityLevel
       SecurityService.encryptedData].
  split; [now rewrite Hid|]. split; [reflexivity|].
  split; [exact Hrt|apply xor_loop_length].
Qed.

(** * The levels of the security service *)

(** Runs a computation in a hypothesis to its end, one step at a time. *)
Ltac run_in H :=
  repeat (unfold bind, lift, clock, ret, throw in H;
          match type of H with
          | context [match ?c with _ => _ end] =>
              destruct c eqn:?; try discriminate H
          end).

Section Levels.
Import SecurityService.

Context {W : Type} (env : Env W) (cipher : Cipher W).

Lemma level_cases (l : jsstring) :
  In l SECURITY_LEVELS <->
  str_eqb l QUANTUM_SECURE = true \/ str_eqb l QUANTUM_AES = true
  \/ str_eqb l PQC_ENCRYPTION = true \/ str_eqb l NO_QUANTUM = true.
Proof.
  unfold SECURITY_LEVELS. cbn [In]. rewrite !str_eqb_eq.
  split; intros H; repeat destruct H as [H|H]; subst; auto 6; contradiction.
Qed.

Lemma existsb_levels (l : jsstring) :
  existsb (str_eqb l) SECURITY_LEVELS = true <-> In l SECURITY_LEVELS.
Proof.
  rewrite level_cases. unfold SECURITY_LEVELS. cbn [existsb].
  rewrite !orb_true_iff. intuition discriminate.
Qed.

Lemma encryptWithOTP_level (data : jsstring) (w w' : W) (e : EncryptedData) :
  encryptWithOTP env data w = (Ok e, w') ->
  securityLevel e = Some QUANTUM_SECURE.
Proof.
  unfold encryptWithOTP. intros H. run_in H. now injection H as <- <-.
Qed.

Lemma encryptWithQuantumAES_level (data : jsstring) (w w' : W) (s : Sealed) :
  encryptWithQuantumAES env cipher data w = (Ok s, w') ->
  securityLevel (common s) = Some QUANTUM_AES.
Proof.
  unfold encryptWithQuantumAES. intros H. run_in H. now injection H as <- <-.
Qed.

Lemma encryptWithPQC_level (data : jsstring) (w w' : W) (s : Sealed) :
  encryptWithPQC env cipher data w = (Ok s, w') ->
  securityLevel (common s) = Some PQC_ENCRYPTION.
Proof.
  unfold encryptWithPQC, generateSimulatedPQCKeyPair, generateSimulatedKeyPair.
  intros H. run_in H. now injection H as <- <-.
Qed.

Lemma encryptWithStandard_level (data : jsstring) (w w' : W) (s : Sealed) :
  encryptWithStandard env cipher data w = (Ok s, w') ->
  securityLevel (common s) = Some NO_QUANTUM.
Proof.
  unfold encryptWithStandard, generateSimulatedRSAKeyPair,
    generateSimulatedKeyPair.
  intros H. run_in H. now injection H as <- <-.
Qed.

Lemma encryptData_level (this : Service) (data : jsstring)
      (options : Options) (w w' : W) (s : Sealed) :
  encryptData env cipher this data options w = (Ok s, w') ->
  In (level_to_encrypt this options) SECURITY_LEVELS
  /\ securityLevel (common s) = Some (level_to_encrypt this options).
Proof.
  unfold encryptData. fold (level_to_encrypt this options).
  set (l := level_to_encrypt this options). rewrite level_cases.
  destruct (str_eqb l QUANTUM_SECURE) eqn:E1.
  { intros H. split; [auto|]. apply str_eqb_eq in E1. rewrite E1.
    unfold bind in H.
    destruct (encryptWithOTP env data w) as [[e|m] w1] eqn:E; [|discriminate].
    injection H as <- <-. exact (encryptWithOTP_level _ _ _ _ E). }
  destruct (str_eqb l QUANTUM_AES) eqn:E2.
  { intros H. split; [auto|]. apply str_eqb_eq in E2. rewrite E2.
    exact (encryptWithQuantumAES_level _ _ _ _ H). }
  destruct (str_eqb l PQC_ENCRYPTION) eqn:E3.
  { intros H. split; [auto|]. apply str_eqb_eq in E3. rewrite E3.
    exact (encryptWithPQC_level _ _ _ _ H). }
  destruct (str_eqb l NO_QUANTUM) eqn:E4.
  { intros H. split; [auto 6|]. apply str_eqb_eq in E4. rewrite E4.
    exact (encryptWithStandard_level _ _ _ _ H). }
  discriminate.
Qed.

(** A result of [encryptData] carries the level that encrypted it, one
    of the four, and [decryptData] goes by that level alone: a level
    passed in the options of [decryptData] changes nothing. *)
Theorem encrypted_level_decides (this : Service) (data : jsstring)
        (options : Options) (w w' : W) (s : Sealed) :
  encryptData env cipher this data options w = (Ok s, w') ->
  In (level_to_encrypt this options) SECURITY_LEVELS
  /\ securityLevel (common s) = Some (level_to_encrypt this options)
  /\ forall other_level pqc rsa,
       decryptData env cipher s
         {| opt_securityLevel := other_level; pqcPrivateKey := pqc;
            rsaPrivateKey := rsa |}
       = decryptData env cipher s
           {| opt_securityLevel := None; pqcPrivateKey := pqc;
              rsaPrivateKey := rsa |}.
Proof.
  intros H. destruct (encryptData_level _ _ _ _ _ _ H) as [Hin Hl].
  split; [exact Hin|]. split; [exact Hl|].
  intros other pqc rsa. unfold decryptData, level_to_decrypt.
  rewrite Hl. cbn [opt_securityLevel or_else].
  assert (Ht : truthy_str (level_to_encrypt this options) = true).
  { apply level_cases in Hin.
    destruct (level_to_encrypt this options); [|reflexivity].
    vm_compute in Hin. destruct Hin as [G|[G|[G|G]]]; discriminate G. }
  rewrite Ht. reflexivity.
Qed.

Lemma decryptFromQuantumAES_text (e : EncryptedData) (w w' : W)
      (d : DecryptedData) :
  decryptFromQuantumAES env (core cipher) e w = (Ok d, w') -> data d <> [].
Proof.
  unfold decryptFromQuantumAES. intros H. run_in H.
  injection H as <- <-. cbn [data decrypted_AES].
  match goal with |- ?t <> [] => destruct t; [discriminate|discriminate] end.
Qed.

Lemma decryptFromPQC_text (s : Sealed) (options : Options) (w w' : W)
      (d : DecryptedData) :
  decryptFromPQC cipher s options w = (Ok d, w') -> data d <> [].
Proof.
  unfold decryptFromPQC. intros H.
  destruct (negb (truthy_str _)); [discriminate|].
  run_in H. injection H as <- <-. cbn [data decrypted_PQC].
  match goal with |- ?t <> [] => destruct t; [discriminate|discriminate] end.
Qed.

Lemma decryptFromStandard_text (s : Sealed) (options : Options) (w w' : W)
      (d : DecryptedData) :
  decryptFromStandard cipher s options w = (Ok d, w') -> data d <> [].
Proof.
  unfold decryptFromStandard. intros H.
  destruct (negb (truthy_str _)); [discriminate|].
  run_in H. injection H as <- <-. cbn [data decrypted_Standard].
  match goal with |- ?t <> [] => destruct t; [discriminate|discriminate] end.
Qed.

(** At the levels 2 to 4 [decryptData] never returns the empty text:
    whatever CryptoJS computes, a decryption that yields the empty string
    is reported as a failure.  An empty subject or body encrypted at one
    of these levels therefore cannot be decrypted. *)
Theorem no_empty_text_above_level_1 (s : Sealed) (options : Options)
        (w w' : W) (d : DecryptedData) :
  decryptData env cipher s options w = (Ok d, w') ->
  level_to_decrypt s options <> Some QUANTUM_SECURE ->
  data d <> [].
Proof.
  unfold decryptData. intros H Hl.
  destruct (level_to_decrypt s options) as [l|]; [|discriminate].
  destruct (str_eqb l QUANTUM_SECURE) eqn:E1.
  { apply str_eqb_eq in E1. congruence. }
  destruct (str_eqb l QUANTUM_AES);
    [exact (decryptFromQuantumAES_text _ _ _ _ H)|].
  destruct (str_eqb l PQC_ENCRYPTION);
    [exact (decryptFromPQC_text _ _ _ _ _ H)|].
  destruct (str_eqb l NO_QUANTUM);
    [exact (decryptFromStandard_text _ _ _ _ _ H)|].
  discriminate.
Qed.

Lemma setSecurityLevel_keeps (level : option jsstring) (this : Service) :
  In (currentSecurityLevel this) SECURITY_LEVELS ->
  In (currentSecurityLevel
        match setSecurityLevel level this with
        | Ok this' => this'
        | Throw _ => this
        end) SECURITY_LEVELS.
Proof.
  intros H. unfold setSecurityLevel. destruct level as [l|]; [|exact H].
  destruct (existsb _ _) eqn:E; [|exact H].
  now apply existsb_levels in E.
Qed.

(** Whatever levels [setSecurityLevel] is called with, the current
    level stays one of the four, so that [encryptData] without a level in
    its options always runs one of the four encrypt functions and never
    ends in [Unsupported security level]. *)
Theorem current_level_supported (levels : list (option jsstring))
        (data : jsstring) (pqc rsa : option jsstring) :
  let this := after_calls levels new_Service in
  let options := {| opt_securityLevel := None; pqcPrivateKey := pqc;
                    rsaPrivateKey := rsa |} in
  In (currentSecurityLevel this) SECURITY_LEVELS
  /\ (encryptData env cipher this data options
      = (encrypted <- encryptWithOTP env data ;; ret (sealed_OTP encrypted))
      \/ encryptData env cipher this data options
         = encryptWithQuantumAES env cipher data
      \/ encryptData env cipher this data options
         = encryptWithPQC env cipher data
      \/ encryptData env cipher this data options
         = encryptWithStandard env cipher data).
Proof.
  cbv zeta.
  assert (G : In (currentSecurityLevel (after_calls levels new_Service))
                SECURITY_LEVELS).
  { unfold after_calls.
    assert (H0 : In (currentSecurityLevel new_Service) SECURITY_LEVELS)
      by (now left).
    revert H0. generalize new_Service.
    induction levels as [|l ls IH]; intros this H; [exact H|].
    cbn [fold_left]. apply IH. now apply setSecurityLevel_keeps. }
  split; [exact G|].
  unfold encryptData. cbn [opt_securityLevel].
  apply level_cases in G.
  destruct (str_eqb _ QUANTUM_SECURE); [now left|].
  destruct (str_eqb _ QUANTUM_AES); [now right; left|].
  destruct (str_eqb _ PQC_ENCRYPTION); [now right; right; left|].
  destruct (str_eqb _ NO_QUANTUM); [now right; right; right|].
  destruct G as [G|[G|[G|G]]]; discriminate G.
Qed.

(** A level outside the four is refused: [setSecurityLevel] throws and
    leaves the current level alone, and [encryptData] throws before it
    asks the key manager for anything. *)
Theorem unsupported_level_refused (this : Service) (data l : jsstring)
        (pqc rsa : option jsstring) (w : W) :
  l <> [] -> ~ In l SECURITY_LEVELS ->
  setSecurityLevel (Some l) this
  = Throw (lit "Invalid security level: " ++ l)
  /\ encryptData env cipher this data
       {| opt_securityLevel := Some l; pqcPrivateKey := pqc;
          rsaPrivateKey := rsa |} w
     = (Throw (lit "Unsupported security level: " ++ l), w).
Proof.
  intros Hne Hout. split.
  - unfold setSecurityLevel.
    destruct (existsb _ _) eqn:E; [|reflexivity].
    now apply existsb_levels in E.
  - unfold encryptData. cbn [opt_securityLevel].
    destruct l as [|c l]; [contradiction|].
    rewrite level_cases in Hout.
    destruct (str_eqb _ QUANTUM_SECURE); [tauto|].
    destruct (str_eqb _ QUANTUM_AES); [tauto|].
    destruct (str_eqb _ PQC_ENCRYPTION); [tauto|].
    destruct (str_eqb _ NO_QUANTUM); [tauto|].
    reflexivity.
Qed.

End Levels.

(** * The engine over the security service *)

(** ** Strings *)

Lemma startsWith_app (p s : jsstring) : startsWith (p ++ s) p = true.
Proof.
  induction p as [|c p IH]; [now destruct s|].
  cbn. now rewrite Z.eqb_refl, IH.
Qed.

Lemma includes_app (a p b : jsstring) : includes (a ++ p ++ b) p = true.
Proof.
  induction a as [|c a IH].
  - cbn [app]. destruct (p ++ b) eqn:E; cbn [includes];
      rewrite <- E, startsWith_app; reflexivity.
  - cbn [app includes]. rewrite IH. apply orb_true_r.
Qed.

Lemma skipn_app_exact {A} (a b : list A) : skipn (length a) (a ++ b) = b.
Proof. induction a; cbn; auto. Qed.

Lemma replace_first_prefix (p s r : jsstring) :
  replace_first (p ++ s) p r = r ++ s.
Proof.
  destruct (p ++ s) eqn:E; cbn [replace_first]; rewrite <- E;
    now rewrite startsWith_app, skipn_app_exact.
Qed.

Lemma mismatch_startsWith (s p x : jsstring) :
  mismatch s p = true -> startsWith (s ++ x) p = false.
Proof.
  revert p. induction s as [|c s IH]; intros [|d p] H; try discriminate.
  cbn in *. rewrite Z.eqb_sym. destruct (c =? d); cbn in *; [auto|reflexivity].
Qed.

Lemma mismatch_app (s p x : jsstring) :
  mismatch s p = true -> mismatch (s ++ x) p = true.
Proof.
  revert p. induction s as [|c s IH]; intros [|d p] H; try discriminate.
  cbn in *. destruct (c =? d); cbn in *; auto.
Qed.

Lemma clear_of_app (a b p : jsstring) :
  clear_of a p = true -> clear_of b p = true -> clear_of (a ++ b) p = true.
Proof.
  intros Ha Hb. induction a as [|c a IH]; [exact Hb|].
  cbn [app clear_of] in *. apply andb_true_iff in Ha as [H1 H2].
  apply andb_true_iff. split; [|auto].
  now apply (mismatch_app (c :: a)).
Qed.

Lemma clear_of_without (a p : jsstring) (q : Z) :
  Forall (fun c => c <> q) a -> clear_of a (q :: p) = true.
Proof.
  induction 1 as [|c a Hc _ IH]; [reflexivity|].
  cbn [clear_of mismatch]. rewrite IH, andb_true_r.
  apply orb_true_iff. left. apply negb_true_iff, Z.eqb_neq. exact Hc.
Qed.

Section Extraction.
Import EncryptionEngine.

Lemma match_body_clear (a x : jsstring) :
  clear_of a marker = true -> match_body (a ++ x) = match_body x.
Proof.
  induction a as [|c a IH]; intros H; [reflexivity|].
  cbn [clear_of] in H. apply andb_true_iff in H as [H1 H2].
  cbn [app match_body]. fold marker.
  change (c :: a ++ x) with ((c :: a) ++ x).
  rewrite (mismatch_startsWith _ _ _ H1). auto.
Qed.

Lemma match_body_here (r : jsstring) (group : jsstring) :
  body_group r = Some group -> match_body (marker ++ r) = Some group.
Proof.
  intros H. destruct (marker ++ r) eqn:E; cbn [match_body]; fold marker;
    rewrite <- E, startsWith_app, skipn_app_exact, H; reflexivity.
Qed.

Lemma take_while_solid (f : Z -> bool) (a b : jsstring) :
  Forall (fun c => f c = true) a ->
  take_while f (a ++ b) = a ++ take_while f b.
Proof. induction 1 as [|c a Hc _ IH]; cbn; [|rewrite Hc, IH]; reflexivity. Qed.

Lemma trim_start_solid (c : Z) (s : jsstring) :
  is_js_space c = false -> trim_start (c :: s) = c :: s.
Proof. intros H. cbn. now rewrite H. Qed.

Lemma trim_start_spaces (a b : jsstring) :
  Forall (fun c => is_js_space c = true) a ->
  trim_start (a ++ b) = trim_start b.
Proof. induction 1 as [|c a Hc _ IH]; cbn [app trim_start]; [|rewrite Hc]; auto. Qed.

(** The text that follows the marker in a formatted body: a blank, the
    cipher text, and a line break with four blanks before the next tag. *)
Lemma body_group_trim (data tail : jsstring) :
  Forall solid data ->
  exists group,
    body_group (32 :: data ++ 10 :: 32 :: 32 :: 32 :: 32 :: 60 :: tail)
    = Some group
    /\ trim group = data.
Proof.
  intros Hd. unfold body_group.
  destruct data as [|c data].
  - cbn. eexists. split; reflexivity.
  - inversion_clear Hd as [|? ? [Hc Hc'] Hd'].
    cbn [app take_while drop_while].
    replace (is_js_space 32) with true by reflexivity. rewrite Hc.
    cbn [take_while drop_while].
    replace (negb (c =? 60)) with true
      by (symmetry; apply negb_true_iff, Z.eqb_neq; exact Hc').
    rewrite (take_while_solid (fun c => negb (c =? 60)) data)
      by (eapply Forall_impl; [|exact Hd']; intros y [_ Hy];
          apply negb_true_iff, Z.eqb_neq; exact Hy).
    change (take_while (fun c0 : Z => negb (c0 =? 60))
              (10 :: 32 :: 32 :: 32 :: 32 :: 60 :: tail))
      with [10; 32; 32; 32; 32].
    eexists. split; [reflexivity|].
    unfold trim. rewrite trim_start_solid by assumption.
    change (c :: data ++ [10; 32; 32; 32; 32])
      with ((c :: data) ++ [10; 32; 32; 32; 32]).
    rewrite rev_app_distr.
    rewrite trim_start_spaces by (repeat constructor).
    assert (Hrev : exists y r, rev (c :: data) = y :: r /\ is_js_space y = false).
    { assert (Hall : Forall (fun y => is_js_space y = false) (rev (c :: data))).
      { apply Forall_rev. constructor; [assumption|].
        eapply Forall_impl; [|exact Hd']. now intros y [Hy _]. }
      destruct (rev (c :: data)) as [|y r] eqn:E.
      - apply (f_equal (@length Z)) in E. rewrite length_rev in E. discriminate.
      - inversion_clear Hall. eauto. }
    destruct Hrev as (y & r & E & Hy). rewrite E, trim_start_solid by assumption.
    rewrite <- E. apply rev_involutive.
Qed.

(** A formatted body: what precedes the marker cannot begin an
    occurrence of it, provided the three interpolated properties of the
    metadata hold no [Q]. *)
Lemma formatEncryptedBody_shape (part : EncryptedPart) :
  Forall (fun c => c <> 81) (interpolate (securityLevel (part_meta part))) ->
  Forall (fun c => c <> 81) (interpolate (algorithm (part_meta part))) ->
  Forall (fun c => c <> 81) (interpolate (timestamp (part_meta part))) ->
  exists pre tail,
    formatEncryptedBody part
    = pre ++ marker
        ++ (32 :: part_data part ++ 10 :: 32 :: 32 :: 32 :: 32 :: 60 :: tail)
    /\ clear_of pre marker = true.
Proof.
  intros H1 H2 H3. unfold formatEncryptedBody.
  match goal with
  | |- exists pre tail,
      ?t1 ++ ?e ++ ?t2 ++ ?i1 ++ ?t3 ++ ?i2 ++ ?t4 ++ ?i3 ++ ?t5 ++ ?d ++ ?t6
      = _ /\ _ =>
      set (T1 := t1); set (T2 := t2); set (T3 := t3); set (T4 := t4);
      set (T5 := t5); set (T6 := t6)
  end.
  assert (E5 : T5 = firstn (length T5 - 23) T5 ++ marker ++ [32])
    by (vm_compute; reflexivity).
  assert (E6 : T6 = 10 :: 32 :: 32 :: 32 :: 32 :: 60 :: skipn 6 T6)
    by (vm_compute; reflexivity).
  set (T5' := firstn (length T5 - 23) T5) in *.
  exists (T1 ++ lock_emoji ++ T2
          ++ interpolate (securityLevel (part_meta part)) ++ T3
          ++ interpolate (algorithm (part_meta part)) ++ T4
          ++ interpolate (timestamp (part_meta part)) ++ T5'),
    (skipn 6 T6).
  split.
  - rewrite E5 at 1. rewrite E6 at 1. rewrite <- !app_assoc. reflexivity.
  - unfold marker.
    repeat (apply clear_of_app;
            [first [ now apply clear_of_without
                   | vm_compute; reflexivity ]|]).
    vm_compute; reflexivity.
Qed.

Context {W : Type} (svc : Services W).

Lemma decryptBody_try_extracts_data (part : EncryptedPart) (md : Metadata) :
  Forall solid (part_data part) ->
  Forall (fun c => c <> 81) (interpolate (securityLevel (part_meta part))) ->
  Forall (fun c => c <> 81) (interpolate (algorithm (part_meta part))) ->
  Forall (fun c => c <> 81) (interpolate (timestamp (part_meta part))) ->
  decryptBody_try svc (formatEncryptedBody part) (Some md)
  = (decrypted <-
       decryptData svc
         {| req_encryptedData := StringData (part_data part);
            req_securityLevel := securityLevel md;
            req_quantumKeyId := quantumKeyId md;
            req_algorithm := algorithm md |} ;;
     ret (SecurityService.data decrypted)).
Proof.
  intros Hd H1 H2 H3.
  destruct (formatEncryptedBody_shape part H1 H2 H3) as (pre & tail & E & Hc).
  destruct (body_group_trim (part_data part) tail Hd) as (group & Hg & Ht).
  unfold decryptBody_try. rewrite E.
  replace (includes _ (lit "QuMail-Encrypted-Body")) with true.
  - cbn [negb]. rewrite (match_body_clear _ _ Hc), (match_body_here _ _ Hg), Ht.
    reflexivity.
  - symmetry.
    replace marker with (lit "QuMail-Encrypted-Body" ++ [58]) by reflexivity.
    rewrite <- app_assoc. apply includes_app.
Qed.

(** [decryptBody] hands to [decryptData] exactly the cipher text that
    [formatEncryptedBody] put into the message, when that text holds
    neither white space nor [<] (as base64 text does), and the level,
    algorithm and time stamp shown above it hold no [Q]. *)
Theorem decryptBody_extracts (part : EncryptedPart) (md : Metadata) :
  Forall solid (part_data part) ->
  Forall (fun c => c <> 81) (interpolate (securityLevel (part_meta part))) ->
  Forall (fun c => c <> 81) (interpolate (algorithm (part_meta part))) ->
  Forall (fun c => c <> 81) (interpolate (timestamp (part_meta part))) ->
  decryptBody_try svc (formatEncryptedBody part) (Some md)
  = (decrypted <-
       decryptData svc
         {| req_encryptedData := StringData (part_data part);
            req_securityLevel := securityLevel md;
            req_quantumKeyId := quantumKeyId md;
            req_algorithm := algorithm md |} ;;
     ret (SecurityService.data decrypted)).
Proof. exact (decryptBody_try_extracts_data part md). Qed.

End Extraction.

(** ** Base64 text *)

Lemma b64_char_range (n : Z) :
  sextet n ->
  65 <= b64_char n <= 90 \/ 97 <= b64_char n <= 122
  \/ 48 <= b64_char n <= 57 \/ b64_char n = 43 \/ b64_char n = 47.
Proof.
  unfold sextet, b64_char. intros H.
  destruct (Z.ltb_spec n 26); [lia|].
  destruct (Z.ltb_spec n 52); [lia|].
  destruct (Z.ltb_spec n 62); [lia|].
  destruct (Z.eqb_spec n 62); lia.
Qed.

Lemma b64_encode_text (bs : list Z) :
  Forall is_byte bs -> Forall b64_text_char (b64_encode bs).
Proof.
  intros Hb. rewrite b64_encode_split. apply Forall_app. split.
  - pose proof (b64_sextets_range bs Hb) as Hs.
    induction Hs as [|v vs Hv _ IH]; [constructor|].
    cbn [map]. constructor; [|exact IH].
    unfold b64_text_char. pose proof (b64_char_range v Hv). lia.
  - destruct (b64_padding_cases bs) as [[-> _]|[[-> _]|[-> _]]];
      repeat (apply Forall_cons; [unfold b64_text_char, pad_char; lia|]);
      apply Forall_nil.
Qed.

Lemma b64_text_solid (c : Z) : b64_text_char c -> solid c.
Proof.
  unfold b64_text_char, solid, is_js_space. intros H. split; [|lia].
  repeat (apply orb_false_iff; split);
    try (apply andb_false_iff;
         destruct (Z.leb_spec 9 c); [right|left; reflexivity];
         apply Z.leb_gt; lia);
    try (apply andb_false_iff; left; apply Z.leb_gt; lia);
    apply Z.eqb_neq; lia.
Qed.

Lemma b64_text_ascii (s : jsstring) :
  Forall b64_text_char s ->
  TextEncoder_encode s = s /\ well_formed s = true
  /\ starts_with_BOM s = false.
Proof.
  intros H. split; [|split].
  - unfold TextEncoder_encode.
    induction H as [|c s Hc _ IH]; [reflexivity|].
    cbn [to_scalars]. unfold is_lead, is_trail.
    replace (0xD800 <=? c) with false
      by (symmetry; apply Z.leb_gt; unfold b64_text_char in Hc; lia).
    replace (0xDC00 <=? c) with false
      by (symmetry; apply Z.leb_gt; unfold b64_text_char in Hc; lia).
    cbn [andb flat_map]. rewrite IH. unfold utf8_encode_cp.
    replace (c <=? 0x7F) with true
      by (symmetry; apply Z.leb_le; unfold b64_text_char in Hc; lia).
    reflexivity.
  - induction H as [|c s Hc _ IH]; [reflexivity|].
    cbn [well_formed]. unfold is_lead, is_trail.
    replace (0xD800 <=? c) with false
      by (symmetry; apply Z.leb_gt; unfold b64_text_char in Hc; lia).
    replace (0xDC00 <=? c) with false
      by (symmetry; apply Z.leb_gt; unfold b64_text_char in Hc; lia).
    cbn [andb negb]. rewrite IH.
    replace (0 <=? c) with true
      by (symmetry; apply Z.leb_le; unfold b64_text_char in Hc; lia).
    replace (c <=? 0xFFFF) with true
      by (symmetry; apply Z.leb_le; unfold b64_text_char in Hc; lia).
    reflexivity.
  - destruct H as [|c s Hc _]; [reflexivity|].
    cbn [starts_with_BOM]. apply Z.eqb_neq.
    unfold b64_text_char, BOM in *. lia.
Qed.

(** ** The one-time pad behind the engine *)

Lemma b64_values_bad (a b : jsstring) (c : Z) :
  b64_value c = None -> b64_values (a ++ c :: b) = None.
Proof.
  intros H. induction a as [|x a IH]; cbn [app b64_values].
  - now rewrite H.
  - rewrite IH. now destruct (b64_value x).
Qed.

(** Text that ends in three dots is no base64. *)
Lemma atob_dots (s : jsstring) :
  atob (s ++ lit "...") = Throw InvalidCharacterError.
Proof.
  unfold atob. rewrite filter_app.
  change (filter _ (lit "...")) with [46; 46; 46].
  set (d := filter _ s).
  assert (Hs : strip_padding (d ++ [46; 46; 46]) = d ++ [46; 46; 46]).
  { unfold strip_padding. destruct (_ =? 0); [|reflexivity].
    rewrite rev_app_distr. reflexivity. }
  rewrite Hs. destruct (_ =? 1); [reflexivity|].
  now rewrite (b64_values_bad d [46; 46] 46).
Qed.

Section OneTimePad.

Context {W : Type} (env : SecurityService.Env W).

Lemma decryptFromOTP_bad_text (e : SecurityService.EncryptedData)
      (message : jsstring) (w : W) :
  SecurityService.base64ToBytes (SecurityService.encryptedData e)
  = Throw message ->
  exists message' w',
    SecurityService.decryptFromOTP env e w = (Throw message', w').
Proof.
  intros H. unfold SecurityService.decryptFromOTP.
  destruct (SecurityService.quantumKeyId e) as [[|c id]|];
    [unfold throw; eauto| |unfold throw; eauto].
  unfold bind.
  destruct (KMService.getKey _ _ w) as [[response|m] w1]; [|eauto].
  destruct (KMService.keys response) as [|q l]; [unfold throw; eauto|].
  destruct (negb _); [unfold throw; eauto|].
  unfold lift.
  destruct (SecurityService.base64ToBytes (KMService.key q)); [|eauto].
  rewrite H. eauto.
Qed.

(** The result of the one-time pad, field by field. *)
Lemma encryptWithOTP_result (data : jsstring) (k : KMService.QuantumKey)
      (K : list Z) (w w1 : W) :
  Forall is_byte (TextEncoder_encode data) ->
  KMService.generateOTPKeys (SecurityService.kmService env)
    (Z.of_nat (length (TextEncoder_encode data)) * 8) w = (Ok k, w1) ->
  KMService.key k <> [] ->
  SecurityService.base64ToBytes (KMService.key k) = Ok K ->
  (length (TextEncoder_encode data) <= length K)%nat ->
  SecurityService.encryptWithOTP env data w
  = (Ok {| SecurityService.encryptedData :=
             b64_encode (xor_pad (TextEncoder_encode data) K);
           SecurityService.securityLevel :=
             Some SecurityService.QUANTUM_SECURE;
           SecurityService.algorithm := Some (lit "OTP");
           SecurityService.quantumKeyId := Some (KMService.key_ID k);
           SecurityService.iv := None;
           SecurityService.timestamp :=
             Some (fst (SecurityService.toISOString env w1));
           SecurityService.keySize := KMService.key_size k;
           SecurityService.metadata :=
             Some (SecurityService.OTP_metadata
                     (Z.of_nat (length (TextEncoder_encode data)))) |},
     snd (SecurityService.toISOString env w1)).
Proof.
  intros Hd Hk Hne HK Hlen.
  pose proof (base64ToBytes_bytes _ _ HK) as HKb.
  pose proof (xor_pad_bytes _ Hd _ HKb) as Hx.
  unfold SecurityService.encryptWithOTP, bind. rewrite Hk.
  destruct (KMService.key k) as [|c key] eqn:Ekey; [contradiction|].
  cbn [truthy_str negb]. unfold lift. rewrite HK.
  replace (_ <? _) with false by (symmetry; apply Z.ltb_ge; lia).
  rewrite xor_loop_pad by assumption.
  unfold SecurityService.bytesToBase64.
  rewrite (map_id_on fromCharCode is_byte) by (auto using fromCharCode_byte).
  rewrite btoa_bytes by assumption. unfold clock.
  destruct (SecurityService.toISOString env w1) as [now w2]. reflexivity.
Qed.

(** Encryption of [data] and decryption of its cipher text, given
    under the id and with the algorithm of the result. *)
Lemma otp_there_and_back (data : jsstring) (k : KMService.QuantumKey)
      (K : list Z) (w w1 w3 : W) (level algorithm : option jsstring) :
  well_formed data = true -> starts_with_BOM data = false ->
  KMService.generateOTPKeys (SecurityService.kmService env)
    (Z.of_nat (length (TextEncoder_encode data)) * 8) w = (Ok k, w1) ->
  KMService.key k <> [] -> KMService.key_ID k <> [] ->
  SecurityService.base64ToBytes (KMService.key k) = Ok K ->
  (length (TextEncoder_encode data) <= length K)%nat ->
  SecurityService.returns_material env (KMService.key_ID k) (KMService.key k)
    (snd (SecurityService.toISOString env w1)) w3 ->
  SecurityService.decryptFromOTP env
    {| SecurityService.encryptedData :=
         b64_encode (xor_pad (TextEncoder_encode data) K);
       SecurityService.securityLevel := level;
       SecurityService.algorithm := algorithm;
       SecurityService.quantumKeyId := Some (KMService.key_ID k);
       SecurityService.iv := None;
       SecurityService.timestamp := None;
       SecurityService.keySize := None;
       SecurityService.metadata := None |}
    (snd (SecurityService.toISOString env w1))
  = (Ok (SecurityService.decrypted_OTP data), w3).
Proof.
  intros Hw Hbom Hk Hne Hid HK Hlen Hret.
  pose proof (TextEncoder_bytes data Hw) as Hd.
  pose proof (base64ToBytes_bytes _ _ HK) as HKb.
  pose proof (xor_pad_bytes _ Hd _ HKb) as Hx.
  assert (HC : SecurityService.base64ToBytes
                 (b64_encode (xor_pad (TextEncoder_encode data) K))
               = Ok (xor_pad (TextEncoder_encode data) K)).
  { unfold SecurityService.base64ToBytes.
    rewrite atob_b64_encode by assumption. cbn [rbind].
    now rewrite (map_id_on ToUint8 is_byte) by (auto using ToUint8_byte). }
  match goal with
  | |- SecurityService.decryptFromOTP env ?e _ = _ =>
      rewrite (decryptFromOTP_run env e (KMService.key_ID k) (KMService.key k)
                 (xor_pad (TextEncoder_encode data) K) K _ w3
                 eq_refl Hid Hret HK HC)
  end.
  rewrite xor_pad_involutive by assumption.
  now rewrite TextDecoder_TextEncoder.
Qed.

End OneTimePad.

(** ** Subject, body and attachments at level 1 *)

Section Wired.
Import EncryptionEngine QuMail.

Context {W : Type} (p : Platform W).

Lemma services_encrypt_level_1 (data : jsstring) (ww : World W) :
  encryptData (services p) data SecurityService.QUANTUM_SECURE ww
  = outside_world (SecurityService.encryptWithOTP (env p) data) ww.
Proof.
  cbn [encryptData services]. unfold outside_world, SecurityService.encryptData.
  change (match SecurityService.opt_securityLevel _ with
          | Some (c :: l) => c :: l
          | _ => SecurityService.currentSecurityLevel (security ww)
          end) with SecurityService.QUANTUM_SECURE.
  replace (str_eqb SecurityService.QUANTUM_SECURE
             SecurityService.QUANTUM_SECURE) with true by reflexivity.
  unfold bind, ret.
  now destruct (SecurityService.encryptWithOTP (env p) data (outside ww))
    as [[e|m] w'].
Qed.

Lemma services_decrypt_level_1 (s : jsstring)
      (id algorithm : option jsstring) (ww : World W) :
  decryptData (services p)
    {| req_encryptedData := StringData s;
       req_securityLevel := Some SecurityService.QUANTUM_SECURE;
       req_quantumKeyId := id;
       req_algorithm := algorithm |} ww
  = outside_world
      (SecurityService.decryptFromOTP (env p)
         {| SecurityService.encryptedData := s;
            SecurityService.securityLevel :=
              Some SecurityService.QUANTUM_SECURE;
            SecurityService.algorithm := algorithm;
            SecurityService.quantumKeyId := id;
            SecurityService.iv := None;
            SecurityService.timestamp := None;
            SecurityService.keySize := None;
            SecurityService.metadata := None |}) ww.
Proof.
  cbn [decryptData services req_encryptedData].
  unfold outside_world, SecurityService.decryptData,
    SecurityService.level_to_decrypt, sealed_request.
  cbn [SecurityService.common SecurityService.sealed_OTP
       SecurityService.securityLevel req_securityLevel req_algorithm
       req_quantumKeyId].
  change (or_else truthy_str (Some SecurityService.QUANTUM_SECURE)
            (SecurityService.opt_securityLevel SecurityService.no_options))
    with (Some SecurityService.QUANTUM_SECURE).
  replace (str_eqb SecurityService.QUANTUM_SECURE
             SecurityService.QUANTUM_SECURE) with true by reflexivity.
  reflexivity.
Qed.

Lemma subject_fails (part : EncryptedPart) (md : Metadata) (ww : World W) :
  securityLevel md = Some SecurityService.QUANTUM_SECURE ->
  exists ww',
    decryptSubject (services p) (formatEncryptedSubject part) (Some md) ww
    = (Ok decryption_failed_subject, ww').
Proof.
  intros Hl. unfold decryptSubject. rewrite try_catch_total.
  unfold decryptSubject_try, formatEncryptedSubject.
  assert (Hs : startsWith
                 (lit "[QuMail-Encrypted] "
                  ++ substring0 (part_data part) 50 ++ lit "...")
                 (lit "[QuMail-Encrypted]") = true).
  { replace (lit "[QuMail-Encrypted] ")
      with (lit "[QuMail-Encrypted]" ++ [32]) by reflexivity.
    rewrite <- app_assoc. apply startsWith_app. }
  rewrite Hs. cbn [negb]. rewrite replace_first_prefix. cbn [app].
  unfold bind. rewrite Hl, services_decrypt_level_1.
  unfold outside_world.
  match goal with
  | |- context [SecurityService.decryptFromOTP (env p) ?e (outside ww)] =>
      destruct (decryptFromOTP_bad_text (env p) e InvalidCharacterError
                  (outside ww)) as (m & w' & E)
  end.
  - cbn [SecurityService.encryptedData].
    unfold SecurityService.base64ToBytes. now rewrite atob_dots.
  - rewrite E. eauto.
Qed.

(** An encrypted subject never comes back at level 1.
    [formatEncryptedSubject] keeps fifty characters of the cipher text
    and appends three dots; [decryptSubject] takes off the prefix only, so
    that the one-time pad is handed text that is no base64.  Whatever the
    cipher text and the key manager, the result is [[Decryption Failed]]. *)
Theorem subject_lost_at_level_1 (part : EncryptedPart) (md : Metadata)
        (ww : World W) :
  securityLevel md = Some SecurityService.QUANTUM_SECURE ->
  exists ww',
    decryptSubject (services p) (formatEncryptedSubject part) (Some md) ww
    = (Ok decryption_failed_subject, ww').
Proof. exact (subject_fails part md ww). Qed.

Lemma encryptBody_level_1 (body : jsstring) (k : KMService.QuantumKey)
      (K : list Z) (ww : World W) (w1 : W) :
  well_formed body = true ->
  KMService.generateOTPKeys (SecurityService.kmService (env p))
    (Z.of_nat (length (TextEncoder_encode body)) * 8) (outside ww)
  = (Ok k, w1) ->
  KMService.key k <> [] ->
  SecurityService.base64ToBytes (KMService.key k) = Ok K ->
  (length (TextEncoder_encode body) <= length K)%nat ->
  exists part,
    encryptBody (services p) body SecurityService.QUANTUM_SECURE ww
    = (Ok part,
       {| security := security ww;
          outside := snd (SecurityService.toISOString (env p) w1) |})
    /\ part_data part = b64_encode (xor_pad (TextEncoder_encode body) K)
    /\ securityLevel (part_meta part) = Some SecurityService.QUANTUM_SECURE
    /\ algorithm (part_meta part) = Some (lit "OTP")
    /\ quantumKeyId (part_meta part) = Some (KMService.key_ID k)
    /\ timestamp (part_meta part)
       = Some (fst (SecurityService.toISOString (env p) w1)).
Proof.
  intros Hw Hk Hne HK Hlen.
  unfold encryptBody, bind. rewrite services_encrypt_level_1.
  unfold outside_world.
  rewrite (encryptWithOTP_result (env p) body k K (outside ww) w1
             (TextEncoder_bytes body Hw) Hk Hne HK Hlen).
  eexists. split; [reflexivity|]. repeat split.
Qed.

(** The body of a message comes back at level 1.  For a well-formed
    body that does not begin with U+FEFF, a key long enough for it with a
    non-empty key string and id, a key manager that returns the same key
    string for that id, and a time stamp without [Q] (as every ISO time
    stamp is): [decryptBody] of the formatted result of [encryptBody],
    with the metadata [encryptBody] returned, is the body. *)
Theorem body_round_trip_level_1 (body : jsstring) (k : KMService.QuantumKey)
        (K : list Z) (ww : World W) (w1 w3 : W) :
  well_formed body = true -> starts_with_BOM body = false ->
  KMService.generateOTPKeys (SecurityService.kmService (env p))
    (Z.of_nat (length (TextEncoder_encode body)) * 8) (outside ww)
  = (Ok k, w1) ->
  KMService.key k <> [] -> KMService.key_ID k <> [] ->
  SecurityService.base64ToBytes (KMService.key k) = Ok K ->
  (length (TextEncoder_encode body) <= length K)%nat ->
  Forall (fun c => c <> 81) (fst (SecurityService.toISOString (env p) w1)) ->
  SecurityService.returns_material (env p) (KMService.key_ID k)
    (KMService.key k) (snd (SecurityService.toISOString (env p) w1)) w3 ->
  exists part ww1,
    encryptBody (services p) body SecurityService.QUANTUM_SECURE ww
    = (Ok part, ww1)
    /\ decryptBody (services p) (formatEncryptedBody part)
         (Some (part_meta part)) ww1
       = (Ok body, {| security := security ww; outside := w3 |}).
Proof.
  intros Hw Hbom Hk Hne Hid HK Hlen Hq Hret.
  destruct (encryptBody_level_1 body k K ww w1 Hw Hk Hne HK Hlen)
    as (part & Henc & Hdata & Hl & Ha & Hi & Ht).
  exists part. eexists. split; [exact Henc|].
  assert (Hsolid : Forall solid (part_data part)).
  { rewrite Hdata. eapply Forall_impl; [apply b64_text_solid|].
    apply b64_encode_text, xor_pad_bytes;
      eauto using TextEncoder_bytes, base64ToBytes_bytes. }
  unfold decryptBody. rewrite try_catch_total.
  rewrite (decryptBody_try_extracts_data (services p) part (part_meta part)
             Hsolid);
    [|rewrite Hl; vm_compute; repeat constructor; discriminate
     |rewrite Ha; vm_compute; repeat constructor; discriminate
     |rewrite Ht; exact Hq].
  unfold bind. rewrite Hl, services_decrypt_level_1.
  unfold outside_world. cbn [outside security].
  rewrite Hdata, Hi, Ha.
  rewrite (otp_there_and_back (env p) body k K (outside ww) w1 w3
             (Some SecurityService.QUANTUM_SECURE) (Some (lit "OTP"))
             Hw Hbom Hk Hne Hid HK Hlen Hret).
  reflexivity.
Qed.

Lemma or_else_same {A} (truth : A -> bool) (x : option A) :
  or_else truth x x = x.
Proof. destruct x as [a|]; cbn; [destruct (truth a)|]; reflexivity. Qed.

(** An [ArrayBuffer] attachment at level 1, through [encryptAttachments]
    and [decryptAttachments] with the metadata of the encrypted
    attachment.  With a key long enough for the base64 text of its bytes
    and a key manager that returns the same key string for the id of that
    key, an attachment whose content type does not begin with [text/] comes
    back with its bytes; one of type [text/...] (or without a type) comes
    back with the base64 text of its bytes as a string.  File name, size
    and content type are those of the original. *)
Theorem buffer_attachment_round_trip_level_1 (a : Attachment)
        (bytes : list Z) (k : KMService.QuantumKey) (K : list Z)
        (ww : World W) (w1 w3 : W) :
  data a = BufferData bytes -> Forall is_byte bytes ->
  KMService.generateOTPKeys (SecurityService.kmService (env p))
    (Z.of_nat (length (b64_encode bytes)) * 8) (outside ww) = (Ok k, w1) ->
  KMService.key k <> [] -> KMService.key_ID k <> [] ->
  SecurityService.base64ToBytes (KMService.key k) = Ok K ->
  (length (b64_encode bytes) <= length K)%nat ->
  SecurityService.returns_material (env p) (KMService.key_ID k)
    (KMService.key k) (snd (SecurityService.toISOString (env p) w1)) w3 ->
  exists sealed ww1,
    encrypt_one (services p) SecurityService.QUANTUM_SECURE a ww
    = (Ok sealed, ww1)
    /\ encrypted sealed = Some true
    /\ decrypt_one (services p) sealed (metadata sealed) ww1
       = (Ok {| filename := filename a;
                data := if is_binary_type (contentType a)
                        then BufferData bytes
                        else StringData (b64_encode bytes);
                size := size a;
                contentType := contentType a;
                encrypted := Some false;
                metadata := metadata sealed;
                encryptionError := encryptionError a;
                decryptionError := decryptionError a |},
          {| security := security ww; outside := w3 |}).
Proof.
  intros Hdata Hb Hk Hne Hid HK Hlen Hret.
  destruct (b64_text_ascii _ (b64_encode_text bytes Hb)) as (Henc & Hw & Hbom).
  assert (Hbytes : Forall is_byte (TextEncoder_encode (b64_encode bytes)))
    by (now apply TextEncoder_bytes).
  rewrite <- Henc in Hk at 1. rewrite <- Henc in Hlen at 1.
  unfold encrypt_one. rewrite Hdata. unfold bind at 1.
  unfold arrayBufferToBase64, lift.
  rewrite (map_id_on fromCharCode is_byte) by (auto using fromCharCode_byte).
  rewrite btoa_bytes by assumption.
  unfold bind. rewrite services_encrypt_level_1. unfold outside_world.
  rewrite (encryptWithOTP_result (env p) _ k K (outside ww) w1
             Hbytes Hk Hne HK Hlen).
  unfold ret. do 2 eexists. split; [reflexivity|]. split; [reflexivity|].
  unfold decrypt_one.
  cbn [encrypted encrypted_attachment is_true negb metadata
       EncryptionEngine.data SecurityService.encryptedData
       SecurityService.securityLevel SecurityService.algorithm
       SecurityService.quantumKeyId SecurityService.timestamp
       securityLevel algorithm quantumKeyId originalContentType
       originalSize].
  unfold bind.
  match goal with
  | |- context [decryptData (services p) ?r ?x] =>
      replace (decryptData (services p) r x)
        with (Ok (SecurityService.decrypted_OTP (b64_encode bytes)),
              {| security := security ww; outside := w3 |})
  end.
  - cbn [SecurityService.data SecurityService.decrypted_OTP].
    destruct (is_binary_type (contentType a)).
    + unfold base64ToArrayBuffer, lift.
      rewrite atob_b64_encode by assumption. cbn [rbind].
      rewrite (map_id_on ToUint8 is_byte) by (auto using ToUint8_byte).
      unfold ret, decrypted_attachment.
      cbn [filename size contentType encrypted metadata encryptionError
           decryptionError encrypted_attachment originalSize
           originalContentType].
      now rewrite !or_else_same.
    + unfold ret, decrypted_attachment.
      cbn [filename size contentType encrypted metadata encryptionError
           decryptionError encrypted_attachment originalSize
           originalContentType].
      now rewrite !or_else_same.
  - symmetry. rewrite services_decrypt_level_1.
    unfold outside_world. cbn [outside security].
    rewrite (otp_there_and_back (env p) (b64_encode bytes) k K (outside ww)
               w1 w3 (Some SecurityService.QUANTUM_SECURE) (Some (lit "OTP"))
               Hw Hbom Hk Hne Hid HK Hlen Hret).
    reflexivity.
Qed.

End Wired.

(** * The engine: whole messages *)

Section Messages.
Import EncryptionEngine.

Context {W : Type} (svc : Services W).

Lemma encrypt_attachments_of_total (emailData : Email) (level : jsstring)
      (w : W) :
  exists l w',
    encrypt_attachments_of svc emailData level w = (Ok l, w')
    /\ length l = length (attachment_list emailData).
Proof.
  unfold encrypt_attachments_of, attachment_list.
  destruct (attachments emailData) as [[|a l]|].
  - exists [], w. now split.
  - apply encryptAttachments_total.
  - exists [], w. now split.
Qed.

Lemma ensure_initialized_run (st : State W) :
  ensure_initialized svc st = (Ok tt, snd (ensure_initialized svc st))
  /\ isInitialized (snd (ensure_initialized svc st)) = true.
Proof.
  unfold ensure_initialized, initialize.
  destruct (isInitialized st) eqn:E; cbn; auto.
Qed.

(** [encryptEmail], step by step. *)
Lemma encryptEmail_run (emailData : Email) (option_level : option jsstring)
      (st : State W) :
  let w0 := world (snd (ensure_initialized svc st)) in
  let securityLevel := chosen_level svc option_level w0 in
  let encryptionId := fst (newEncryptionId svc w0) in
  let w1 := snd (newEncryptionId svc w0) in
  encryptEmail svc emailData option_level st
  = match encryptSubject svc (subject emailData) securityLevel w1 with
    | (Throw message, w2) =>
        (EncryptFailure message, {| isInitialized := true; world := w2 |})
    | (Ok encryptedSubject, w2) =>
        match encryptBody svc (body emailData) securityLevel w2 with
        | (Throw message, w3) =>
            (EncryptFailure message, {| isInitialized := true; world := w3 |})
        | (Ok encryptedBody, w3) =>
            match encrypt_attachments_of svc emailData securityLevel w3 with
            | (Throw message, w4) =>
                (EncryptFailure message,
                 {| isInitialized := true; world := w4 |})
            | (Ok encryptedAttachments, w4) =>
                (EncryptSuccess
                   (encrypted_email emailData encryptedSubject encryptedBody
                      encryptedAttachments encryptionId securityLevel
                      (fst (toISOString svc w4)))
                   encryptionId securityLevel,
                 {| isInitialized := true;
                    world := snd (toISOString svc w4) |})
            end
        end
    end.
Proof.
  cbv zeta. unfold encryptEmail, encryptEmail_try. unfold bind at 1.
  destruct (ensure_initialized_run st) as [Hinit Htrue].
  set (st0 := snd (ensure_initialized svc st)) in *. clearbody st0.
  rewrite Hinit. destruct st0 as [init w0]. cbn [isInitialized world] in *.
  subst init.
  unfold bind, on_world, clock. cbn [world isInitialized].
  destruct (newEncryptionId svc w0) as [encryptionId w1].
  cbn [fst snd world isInitialized].
  destruct (encryptSubject svc (subject emailData) _ w1) as [[es|m] w2];
    [|reflexivity].
  cbn [world isInitialized].
  destruct (encryptBody svc (body emailData) _ w2) as [[eb|m] w3];
    [|reflexivity].
  cbn [world isInitialized]. unfold encrypt_attachments_of.
  destruct (attachments emailData) as [[|a l]|].
  - unfold ret. cbn [world isInitialized].
    destruct (toISOString svc w3) as [now w4]. reflexivity.
  - cbn [world isInitialized].
    destruct (encryptAttachments svc (a :: l) _ w3) as [[ea|m] w4];
      [|reflexivity].
    cbn [world isInitialized].
    destruct (toISOString svc w4) as [now w5]. reflexivity.
  - unfold ret. cbn [world isInitialized].
    destruct (toISOString svc w3) as [now w4]. reflexivity.
Qed.

(** Subject and body are all or nothing.  When the encryption of the
    subject throws, [encryptEmail] returns a failure with the message of
    the error and attempts neither body nor attachments; when that of the
    body throws, the result is a failure as well, and the encrypted
    subject is dropped. *)
Theorem encryptEmail_subject_or_body_failure (emailData : Email)
        (option_level : option jsstring) (st : State W) :
  let w0 := world (snd (ensure_initialized svc st)) in
  let securityLevel := chosen_level svc option_level w0 in
  let w1 := snd (newEncryptionId svc w0) in
  (forall message w2,
     encryptSubject svc (subject emailData) securityLevel w1
     = (Throw message, w2) ->
     encryptEmail svc emailData option_level st
     = (EncryptFailure message, {| isInitialized := true; world := w2 |}))
  /\ (forall encryptedSubject w2 message w3,
        encryptSubject svc (subject emailData) securityLevel w1
        = (Ok encryptedSubject, w2) ->
        encryptBody svc (body emailData) securityLevel w2
        = (Throw message, w3) ->
        encryptEmail svc emailData option_level st
        = (EncryptFailure message, {| isInitialized := true; world := w3 |})).
Proof.
  cbv zeta. split.
  - intros message w2 H. rewrite encryptEmail_run. cbv zeta. now rewrite H.
  - intros es w2 message w3 Hs Hb. rewrite encryptEmail_run. cbv zeta.
    now rewrite Hs, Hb.
Qed.

Lemma encryptEmail_success (emailData : Email)
      (option_level : option jsstring) (st st' : State W)
      (encryptedEmail : Email) (encryptionId securityLevel : jsstring) :
  encryptEmail svc emailData option_level st
  = (EncryptSuccess encryptedEmail encryptionId securityLevel, st') ->
  exists es eb ea now w1 w2,
    encryptedEmail
    = encrypted_email emailData es eb ea encryptionId securityLevel now
    /\ encryptSubject svc (subject emailData) securityLevel w1 = (Ok es, w2)
    /\ length ea = length (attachment_list emailData)
    /\ securityLevel
       = chosen_level svc option_level
           (world (snd (ensure_initialized svc st))).
Proof.
  rewrite encryptEmail_run. cbv zeta.
  destruct (encryptSubject svc _ _ _) as [[es|m] w2] eqn:Es; [|discriminate].
  destruct (encryptBody svc _ _ _) as [[eb|m] w3]; [|discriminate].
  destruct (encrypt_attachments_of_total emailData
              (chosen_level svc option_level
                 (world (snd (ensure_initialized svc st)))) w3)
    as (ea & w4 & Ea & Hl).
  rewrite Ea. intros [= <- <- <- <-].
  exists es, eb, ea. do 3 eexists.
  split; [reflexivity|]. split; [exact Es|]. split; [exact Hl|reflexivity].
Qed.

Lemma obj_get_set_same (o : list (jsstring * jsstring)) (k v : jsstring) :
  obj_get (obj_set o k v) k = Some v.
Proof.
  assert (Hk : str_eqb k k = true) by now apply str_eqb_eq.
  induction o as [|[k' v'] o IH]; cbn; [now rewrite Hk|].
  destruct (str_eqb k' k) eqn:E; cbn; [now rewrite Hk|now rewrite E].
Qed.

Lemma obj_get_set_other (o : list (jsstring * jsstring)) (k v k' : jsstring) :
  k <> k' -> obj_get (obj_set o k v) k' = obj_get o k'.
Proof.
  intros Hne.
  assert (Hk : str_eqb k k' = false).
  { destruct (str_eqb k k') eqn:E; [|reflexivity].
    apply str_eqb_eq in E. contradiction. }
  induction o as [|[k0 v0] o IH]; cbn; [now rewrite Hk|].
  destruct (str_eqb k0 k) eqn:E; cbn.
  - apply str_eqb_eq in E. subst k0. now rewrite Hk.
  - now rewrite IH.
Qed.

(** The headers of an encrypted email: the four [X-QuMail-...] headers
    carry the values of the result, replacing values the email had under
    these names, and every other header of the email is kept.  The id and
    the level in the headers are those of the result and of the
    metadata. *)
Theorem encryptEmail_headers (emailData : Email)
        (option_level : option jsstring) (st st' : State W)
        (encryptedEmail : Email) (encryptionId securityLevel : jsstring) :
  encryptEmail svc emailData option_level st
  = (EncryptSuccess encryptedEmail encryptionId securityLevel, st') ->
  obj_get (headers encryptedEmail) (lit "X-QuMail-Encrypted")
  = Some (lit "true")
  /\ obj_get (headers encryptedEmail) (lit "X-QuMail-Security-Level")
     = Some securityLevel
  /\ obj_get (headers encryptedEmail) (lit "X-QuMail-Encryption-Id")
     = Some encryptionId
  /\ obj_get (headers encryptedEmail) (lit "X-QuMail-Version")
     = Some (lit "1.0")
  /\ (forall name,
        ~ In name [lit "X-QuMail-Encrypted"; lit "X-QuMail-Security-Level";
                   lit "X-QuMail-Encryption-Id"; lit "X-QuMail-Version"] ->
        obj_get (headers encryptedEmail) name
        = obj_get (headers emailData) name)
  /\ exists md,
       encryptionMetadata encryptedEmail = Some md
       /\ EncryptionEngine.encryptionId md = encryptionId
       /\ level md = securityLevel.
Proof.
  intros H.
  destruct (encryptEmail_success _ _ _ _ _ _ _ H)
    as (es & eb & ea & now & w1 & w2 & -> & _).
  unfold encrypted_email. cbn [headers encryptionMetadata].
  split; [|split; [|split; [|split; [|split]]]].
  - rewrite !obj_get_set_other by (intros E; discriminate E).
    apply obj_get_set_same.
  - rewrite !obj_get_set_other by (intros E; discriminate E).
    apply obj_get_set_same.
  - rewrite !obj_get_set_other by (intros E; discriminate E).
    apply obj_get_set_same.
  - apply obj_get_set_same.
  - intros name Hn. cbn [In] in Hn.
    rewrite !obj_get_set_other; [reflexivity|..]; intros E; apply Hn; auto.
  - eexists. split; [reflexivity|]. split; reflexivity.
Qed.

(** The report of an encryption counts every attachment of the message
    as encrypted, including those that [encryptAttachments] passed on
    unencrypted after a failure; the report of a failed encryption counts
    none and still marks subject and body as encrypted. *)
Theorem report_counts_every_attachment (emailData : Email)
        (option_level : option jsstring) (st : State W) (w : W) :
  let result := fst (encryptEmail svc emailData option_level st) in
  exists report,
    generateEncryptionReport svc result w
    = (Ok report, snd (toISOString svc w))
    /\ subject_encrypted report = true /\ body_encrypted report = true
    /\ match result with
       | EncryptSuccess _ _ _ =>
           report_success report = true
           /\ attachments_encrypted report
              = Z.of_nat (length (attachment_list emailData))
       | EncryptFailure message =>
           report_success report = false
           /\ attachments_encrypted report = 0
       end.
Proof.
  cbv zeta. unfold generateEncryptionReport, bind, clock, ret.
  destruct (toISOString svc w) as [now w'] eqn:En. cbn [snd].
  destruct (encryptEmail svc emailData option_level st) as [r st'] eqn:E.
  cbn [fst]. destruct r as [enc id l|m].
  - destruct (encryptEmail_success _ _ _ _ _ _ _ E)
      as (es & eb & ea & t & w1 & w2 & -> & _ & Hl & _).
    eexists. split; [reflexivity|].
    cbn [subject_encrypted body_encrypted report_success
         attachments_encrypted encrypted_email attachments].
    rewrite Hl. auto.
  - eexists. split; [reflexivity|]. cbn. auto.
Qed.

Lemma decryptEmail_parts (e : Email) (md : EncryptionMetadata)
      (parts : Components) (st : State W) :
  is_true (email_encrypted e) = true ->
  encryptionMetadata e = Some md ->
  components md = Some parts ->
  (attachments_metadata parts = None -> attachment_list e = []) ->
  exists subject' w1 body' atts' st',
    decryptEmail svc e st
    = (DecryptSuccess
         {| subject := subject';
            body := body';
            attachments := Some atts';
            email_encrypted := Some false;
            encryptionMetadata := Some md;
            originalEncryptionMetadata := Some md;
            headers := headers e;
            other := other e |}
         true (Some (level md)), st')
    /\ decryptSubject svc (subject e) (subject_metadata parts)
         (world (snd (ensure_initialized svc st))) = (Ok subject', w1).
Proof.
  intros Henc Hmd Hparts Harray.
  destruct (ensure_initialized_run st) as [Hinit _].
  set (st0 := snd (ensure_initialized svc st)) in *. clearbody st0.
  destruct (decryptSubject_total svc (subject e) (subject_metadata parts)
              (world st0)) as (subject' & w1 & Hs & _).
  destruct (decryptBody_total svc (body e) (body_metadata parts) w1)
    as (body' & w2 & Hb & _).
  destruct (decryptAttachments_from_spec svc
              (match attachments_metadata parts with
               | Some array => array
               | None => []
               end) (attachment_list e) 0 w2)
    as (atts' & w3 & Ha & _).
  exists subject', w1, body', atts',
    {| isInitialized := isInitialized st0; world := w3 |}.
  split; [|exact Hs].
  unfold decryptEmail, decryptEmail_try. unfold bind at 1. rewrite Hinit.
  rewrite Henc, Hmd, Hparts. cbn [negb]. unfold bind, on_world.
  rewrite Hs. cbn [world isInitialized]. rewrite Hb. cbn [world isInitialized].
  unfold attachment_list in *.
  destruct (attachments e) as [[|a l]|].
  - cbn in Ha. unfold ret in *. injection Ha as <- <-. reflexivity.
  - destruct (attachments_metadata parts) as [array|];
      [|now specialize (Harray eq_refl)].
    unfold decryptAttachments. cbn [world isInitialized].
    rewrite Ha. reflexivity.
  - cbn in Ha. unfold ret in *. injection Ha as <- <-. reflexivity.
Qed.

(** [decryptEmail] fails in three cases only, all of an email marked as
    encrypted: without [encryptionMetadata] the error is
    [Missing encryption metadata]; with metadata that has no [components]
    it is the [TypeError] of reading [subject]; with components that have
    no [attachments] array, for an email with attachments, it is the
    [TypeError] of reading index 0.  A subject, a body or an attachment
    that does not decrypt never makes [decryptEmail] fail. *)
Theorem decryptEmail_failure_cases (e : Email) (st : State W)
        (message : jsstring) :
  fst (decryptEmail svc e st) = DecryptFailure message <->
  is_true (email_encrypted e) = true
  /\ match encryptionMetadata e with
     | None => message = lit "Missing encryption metadata"
     | Some md =>
         match components md with
         | None => message = TypeError_undefined "subject"
         | Some parts =>
             attachments_metadata parts = None
             /\ attachment_list e <> []
             /\ message = TypeError_undefined "0"
         end
     end.
Proof.
  destruct (ensure_initialized_run st) as [Hinit _].
  destruct (is_true (email_encrypted e)) eqn:Henc.
  - destruct (encryptionMetadata e) as [md|] eqn:Hmd.
    + destruct (components md) as [parts|] eqn:Hparts.
      * destruct (attachments_metadata parts) as [array|] eqn:Harray.
        -- destruct (decryptEmail_parts e md parts st Henc Hmd Hparts)
             as (s & w1 & b & a & st' & -> & _);
             [rewrite Harray; discriminate|].
           cbn [fst].
           split; [discriminate|intros (_ & H & _); discriminate].
        -- destruct (attachment_list e) as [|a0 l0] eqn:Hl.
           ++ destruct (decryptEmail_parts e md parts st Henc Hmd Hparts)
                as (s & w1 & b & a & st' & -> & _); [now rewrite Hl|].
              cbn [fst].
              split; [discriminate|intros (_ & _ & H & _); now elim H].
           ++ unfold decryptEmail, decryptEmail_try. unfold bind at 1.
              rewrite Hinit, Henc, Hmd, Hparts. cbn [negb].
              unfold bind, on_world.
              destruct (decryptSubject_total svc (subject e)
                          (subject_metadata parts)
                          (world (snd (ensure_initialized svc st))))
                as (s' & w1 & -> & _).
              cbn [world isInitialized].
              destruct (decryptBody_total svc (body e) (body_metadata parts)
                          w1) as (b' & w2 & -> & _).
              cbn [world isInitialized].
              unfold attachment_list in Hl.
              destruct (attachments e) as [[|a l]|]; try discriminate Hl.
              rewrite Harray. cbn [decryptAttachments throw fst].
              split.
              ** intros [= <-]. split; [reflexivity|].
                 split; [reflexivity|]. split; [discriminate|reflexivity].
              ** intros (_ & _ & _ & ->). reflexivity.
      * unfold decryptEmail, decryptEmail_try. unfold bind at 1.
        rewrite Hinit, Henc, Hmd, Hparts. cbn [negb throw fst].
        split; [intros [= <-]; auto|intros (_ & ->); reflexivity].
    + unfold decryptEmail, decryptEmail_try. unfold bind at 1.
      rewrite Hinit, Henc, Hmd. cbn [negb throw fst].
      split; [intros [= <-]; auto|intros (_ & ->); reflexivity].
  - unfold decryptEmail, decryptEmail_try. unfold bind at 1.
    rewrite Hinit, Henc. cbn [negb ret fst].
    split; [discriminate|intros (H & _); discriminate].
Qed.

End Messages.

(** ** Whole messages at level 1 *)

Section WiredMessages.
Import EncryptionEngine QuMail.

Context {W : Type} (p : Platform W).

Lemma encryptSubject_level_1 (text : jsstring) (ww ww' : World W)
      (part : EncryptedPart) :
  encryptSubject (services p) text SecurityService.QUANTUM_SECURE ww
  = (Ok part, ww') ->
  securityLevel (part_meta part) = Some SecurityService.QUANTUM_SECURE.
Proof.
  unfold encryptSubject, bind. rewrite services_encrypt_level_1.
  unfold outside_world.
  destruct (SecurityService.encryptWithOTP (env p) text (outside ww))
    as [[e|m] w'] eqn:E; [|discriminate].
  unfold ret. intros [= <- <-]. cbn [part_meta part_metadata securityLevel].
  exact (encryptWithOTP_level (env p) _ _ _ _ E).
Qed.

(** No subject survives level 1.  Whenever [encryptEmail] succeeds at
    the level [quantum_secure], [decryptEmail] of its result succeeds with
    the subject [[Decryption Failed]], whatever the subject was and
    whatever the key manager answers. *)
Theorem email_subject_lost_at_level_1 (emailData encryptedEmail : Email)
        (st st' st2 : State (World W)) (encryptionId securityLevel : jsstring) :
  encryptEmail (services p) emailData (Some SecurityService.QUANTUM_SECURE) st
  = (EncryptSuccess encryptedEmail encryptionId securityLevel, st') ->
  exists decryptedEmail st3,
    decryptEmail (services p) encryptedEmail st2
    = (DecryptSuccess decryptedEmail true
         (Some SecurityService.QUANTUM_SECURE), st3)
    /\ subject decryptedEmail = decryption_failed_subject.
Proof.
  intros H.
  destruct (encryptEmail_success _ _ _ _ _ _ _ _ H)
    as (es & eb & ea & now & w1 & w2 & -> & Hs & _ & Hl).
  change (chosen_level (services p) (Some SecurityService.QUANTUM_SECURE)
            (world (snd (ensure_initialized (services p) st))))
    with SecurityService.QUANTUM_SECURE in Hl.
  subst securityLevel.
  pose proof (encryptSubject_level_1 _ _ _ _ Hs) as Hlevel.
  match goal with
  | |- context [decryptEmail (services p) ?e st2] =>
      destruct (decryptEmail_parts (services p) e
                  {| EncryptionEngine.encryptionId := encryptionId;
                     level := SecurityService.QUANTUM_SECURE;
                     created := now;
                     version := lit "1.0";
                     components :=
                       Some {| subject_metadata := Some (part_meta es);
                               body_metadata := Some (part_meta eb);
                               attachments_metadata :=
                                 Some (map metadata ea) |} |}
                  {| subject_metadata := Some (part_meta es);
                     body_metadata := Some (part_meta eb);
                     attachments_metadata := Some (map metadata ea) |}
                  st2 eq_refl eq_refl eq_refl ltac:(discriminate))
        as (subject' & ww1 & body' & atts' & st3 & E & Hsub)
  end.
  rewrite E. do 2 eexists. split; [reflexivity|].
  cbn [subject encrypted_email components subject_metadata] in *.
  destruct (subject_fails p es (part_meta es)
              (world (snd (ensure_initialized (services p) st2))) Hlevel)
    as (ww' & Hfail).
  rewrite Hfail in Hsub. now injection Hsub as <- _.
Qed.

End WiredMessages.

(** * Validation *)

Lemma trim_start_cases (s : jsstring) :
  (trim_start s = [] /\ Forall (fun c => is_js_space c = true) s)
  \/ exists c r, trim_start s = c :: r /\ is_js_space c = false /\ In c s.
Proof.
  induction s as [|c s IH]; [left; now split|].
  cbn [trim_start]. destruct (is_js_space c) eqn:E.
  - destruct IH as [[H1 H2]|(x & r & H1 & H2 & H3)].
    + left. split; [exact H1|now constructor].
    + right. exists x, r. repeat split; auto. now right.
  - right. exists c, s. repeat split; auto. now left.
Qed.

Lemma has_text_spaces (s : jsstring) :
  Forall (fun c => is_js_space c = true) s -> ~ has_text s.
Proof.
  intros H (c & Hin & Hc). rewrite Forall_forall in H.
  specialize (H c Hin). congruence.
Qed.

Lemma trim_nil (s : jsstring) : trim s = [] <-> ~ has_text s.
Proof.
  unfold trim. split.
  - intros H. apply (f_equal (@rev Z)) in H. rewrite rev_involutive in H.
    cbn [rev] in H.
    destruct (trim_start_cases s) as [[_ Hs]|(c & r & E & Hc & Hin)];
      [now apply has_text_spaces|].
    rewrite E in H.
    destruct (trim_start_cases (rev (c :: r))) as [[_ Hr]|(x & q & E' & _)];
      [|congruence].
    apply Forall_rev in Hr. rewrite rev_involutive in Hr.
    inversion_clear Hr. congruence.
  - intros H.
    destruct (trim_start_cases s) as [[-> _]|(c & r & E & Hc & Hin)];
      [reflexivity|].
    exfalso. apply H. now exists c.
Qed.

Lemma truthy_trim (s : jsstring) : truthy_str (trim s) = true <-> has_text s.
Proof.
  destruct (trim s) eqn:E; cbn [truthy_str].
  - apply trim_nil in E. split; [discriminate|contradiction].
  - split; [intros _|reflexivity].
    destruct (trim_start_cases s) as [[Hs _]|(c & r & _ & Hc & Hin)].
    + unfold trim in E. rewrite Hs in E. discriminate.
    + now exists c.
Qed.

Section Validation.
Import EncryptionEngine.

Lemma blank_spec (s : option jsstring) :
  blank s = false <-> exists text, s = Some text /\ has_text text.
Proof.
  destruct s as [[|c s]|]; cbn [blank].
  - split; [discriminate|]. intros (t & [= <-] & (c & [] & _)).
  - destruct (trim (c :: s)) eqn:E.
    + cbn. split; [discriminate|]. intros (t & [= <-] & Ht).
      apply trim_nil in E. contradiction.
    + cbn. split; [intros _|reflexivity].
      exists (c :: s). split; [reflexivity|].
      apply truthy_trim. now rewrite E.
  - split; [discriminate|]. intros (t & H & _). discriminate.
Qed.

Lemma forEach_errors_nil (attachments : list DraftAttachment) :
  forall index,
    forEach_errors index attachments = [] <->
    forall attachment, In attachment attachments ->
      truthy (draft_filename attachment) = true
      /\ data_missing (draft_data attachment) = false.
Proof.
  induction attachments as [|a l IH]; intros index.
  - cbn. split; [intros _ x []|reflexivity].
  - cbn [forEach_errors In]. split.
    + intros H. apply app_eq_nil in H as [Ha Hl].
      intros x [->|Hx]; [|now apply (IH (S index))].
      unfold attachment_errors in Ha.
      destruct (truthy (draft_filename x)); [|discriminate].
      destruct (data_missing (draft_data x)); [discriminate|]. now split.
    + intros H. destruct (H a (or_introl eq_refl)) as [H1 H2].
      unfold attachment_errors. rewrite H1, H2. cbn [negb app].
      apply IH. intros x Hx. apply H. now right.
Qed.

(** [validateEmailForEncryption] accepts an email exactly when subject
    and body hold a character that is no white space, [to] is a string or
    an array that is not empty, and every attachment has a file name and
    data.  Neither the content of the recipients nor the content type of
    an attachment (a type outside [supportedMimeTypes] only gives a
    warning) plays a part. *)
Theorem validateEmailForEncryption_accepts (emailData : Draft) :
  isValid (validateEmailForEncryption emailData) = true <->
  (exists subject, draft_subject emailData = Some subject /\ has_text subject)
  /\ (exists body, draft_body emailData = Some body /\ has_text body)
  /\ ((exists c s, draft_to emailData = Some (RecipientText (c :: s)))
      \/ (exists x l, draft_to emailData = Some (RecipientArray (x :: l))))
  /\ forall attachment,
       In attachment (match draft_attachments emailData with
                      | Some l => l
                      | None => []
                      end) ->
       (exists c name, draft_filename attachment = Some (c :: name))
       /\ (draft_data attachment <> None
           /\ draft_data attachment <> Some (StringData [])).
Proof.
  unfold validateEmailForEncryption. cbn [isValid].
  rewrite Z.eqb_eq. rewrite <- !blank_spec.
  assert (Hto : no_recipient (draft_to emailData) = false <->
                (exists c s, draft_to emailData = Some (RecipientText (c :: s)))
                \/ (exists x l,
                       draft_to emailData = Some (RecipientArray (x :: l)))).
  { destruct (draft_to emailData) as [[[|c s]|[|x l]]|]; cbn; split;
      try discriminate; try reflexivity; eauto;
      intros [(? & ? & H)|(? & ? & H)]; discriminate H. }
  rewrite <- Hto.
  assert (Hatt : forall a : DraftAttachment,
             (truthy (draft_filename a) = true
              /\ data_missing (draft_data a) = false) <->
             ((exists c name, draft_filename a = Some (c :: name))
              /\ (draft_data a <> None
                  /\ draft_data a <> Some (StringData [])))).
  { intros a. destruct (draft_filename a) as [[|c n]|];
      destruct (draft_data a) as [[[|d s]|b]|]; cbn; split;
      try (intros [H1 H2]; discriminate);
      try (intros [(? & ? & H) _]; discriminate H);
      try (intros [_ [H1 H2]]; congruence);
      intros _; repeat split; eauto; discriminate. }
  split.
  - intros H. assert (E : forall l : list jsstring, Z.of_nat (length l) = 0 -> l = [])
      by (intros [|? ?] ?; [reflexivity|cbn [length] in *; lia]).
    apply E in H. apply app_eq_nil in H as [H1 H].
    apply app_eq_nil in H as [H2 H]. apply app_eq_nil in H as [H3 H4].
    split; [now destruct (blank (draft_subject emailData))|].
    split; [now destruct (blank (draft_body emailData))|].
    split; [now destruct (no_recipient (draft_to emailData))|].
    intros a Ha. apply Hatt.
    destruct (draft_attachments emailData) as [l|]; [|contradiction].
    now apply (forEach_errors_nil l 0).
  - intros (H1 & H2 & H3 & H4). rewrite H1, H2, H3. cbn [app].
    destruct (draft_attachments emailData) as [l|]; [|reflexivity].
    replace (forEach_errors 0 l) with (@nil jsstring); [reflexivity|].
    symmetry. apply forEach_errors_nil. intros a Ha. apply Hatt. now apply H4.
Qed.

End Validation.

(** * The accounts of the email service *)

Section Accounts.
Import EmailService.

Lemma Map_get_set_same (m : Accounts) (k : jsstring) (v : Account) :
  Map_get (Map_set m k v) k = Some v.
Proof.
  assert (Hk : str_eqb k k = true) by now apply str_eqb_eq.
  induction m as [|[k' v'] m IH]; cbn; [now rewrite Hk|].
  destruct (str_eqb k' k) eqn:E; cbn; [now rewrite Hk|now rewrite E].
Qed.

Lemma str_eqb_neq (k k' : jsstring) : k <> k' -> str_eqb k k' = false.
Proof.
  intros H. destruct (str_eqb k k') eqn:E; [|reflexivity].
  apply str_eqb_eq in E. contradiction.
Qed.

Lemma Map_get_set_other (m : Accounts) (k k' : jsstring) (v : Account) :
  k <> k' -> Map_get (Map_set m k v) k' = Map_get m k'.
Proof.
  intros Hne. pose proof (str_eqb_neq k k' Hne) as Hk.
  induction m as [|[k0 v0] m IH]; cbn; [now rewrite Hk|].
  destruct (str_eqb k0 k) eqn:E; cbn.
  - apply str_eqb_eq in E. subst k0. now rewrite Hk.
  - now rewrite IH.
Qed.

Lemma Map_get_none (m : Accounts) (k : jsstring) :
  ~ In k (map fst m) -> Map_get m k = None.
Proof.
  induction m as [|[k' v] m IH]; intros H; [reflexivity|].
  cbn in *. rewrite str_eqb_neq by tauto. apply IH. tauto.
Qed.

Lemma Map_get_delete_same (m : Accounts) (k : jsstring) :
  keys_distinct m -> Map_get (Map_delete m k) k = None.
Proof.
  unfold keys_distinct.
  induction m as [|[k' v] m IH]; intros H; [reflexivity|].
  cbn in *. inversion_clear H as [|? ? Hk Hn].
  destruct (str_eqb k' k) eqn:E.
  - apply str_eqb_eq in E. subst k'. now apply Map_get_none.
  - cbn. rewrite E. now apply IH.
Qed.

Lemma Map_get_delete_other (m : Accounts) (k k' : jsstring) :
  k <> k' -> Map_get (Map_delete m k) k' = Map_get m k'.
Proof.
  intros Hne. pose proof (str_eqb_neq k k' Hne) as Hk.
  induction m as [|[k0 v0] m IH]; cbn; [reflexivity|].
  destruct (str_eqb k0 k) eqn:E; cbn.
  - apply str_eqb_eq in E. subst k0. now rewrite Hk.
  - now rewrite IH.
Qed.

Lemma Map_set_keys_in (m : Accounts) (k : jsstring) (v : Account)
      (x : jsstring) :
  In x (map fst (Map_set m k v)) -> In x (map fst m) \/ x = k.
Proof.
  induction m as [|[k' v'] m IH]; cbn.
  - intros [<-|[]]. now right.
  - destruct (str_eqb k' k) eqn:E; cbn.
    + apply str_eqb_eq in E. subst. intros [<-|H]; auto.
    + intros [<-|H]; [auto|]. destruct (IH H); auto.
Qed.

Lemma Map_set_keys_distinct (m : Accounts) (k : jsstring) (v : Account) :
  keys_distinct m -> keys_distinct (Map_set m k v).
Proof.
  unfold keys_distinct.
  induction m as [|[k' v'] m IH]; intros H; cbn.
  - repeat constructor. intros [].
  - cbn in H. inversion_clear H as [|? ? Hk Hn].
    destruct (str_eqb k' k) eqn:E; cbn.
    + apply str_eqb_eq in E. subst k'. now constructor.
    + constructor; [|now apply IH].
      intros Hin. destruct (Map_set_keys_in _ _ _ _ Hin) as [Hm | ->];
        [contradiction|].
      rewrite (proj2 (str_eqb_eq k k) eq_refl) in E. discriminate.
Qed.

Lemma Map_delete_keys_in (m : Accounts) (k x : jsstring) :
  In x (map fst (Map_delete m k)) -> In x (map fst m).
Proof.
  induction m as [|[k' v'] m IH]; cbn; [auto|].
  destruct (str_eqb k' k); cbn; [auto|]. intros [<-|H]; auto.
Qed.

Lemma Map_delete_keys_distinct (m : Accounts) (k : jsstring) :
  keys_distinct m -> keys_distinct (Map_delete m k).
Proof.
  unfold keys_distinct.
  induction m as [|[k' v'] m IH]; intros H; cbn; [constructor|].
  cbn in H. inversion_clear H as [|? ? Hk Hn].
  destruct (str_eqb k' k); cbn; [assumption|].
  constructor; [|now apply IH].
  intros Hin. now apply Hk, (Map_delete_keys_in m k).
Qed.

Lemma calls_keys_distinct (calls : list Call) :
  keys_distinct (accounts (fold_left call calls new_Service)).
Proof.
  assert (H0 : keys_distinct (accounts new_Service)) by constructor.
  revert H0. generalize new_Service.
  induction calls as [|c calls IH]; intros this H; [exact H|].
  cbn [fold_left]. apply IH. destruct c as [now cfg|k]; cbn [call].
  - unfold configureAccount. destruct (negb _); cbn [snd accounts];
      [exact H|now apply Map_set_keys_distinct].
  - cbn [disconnectAccount accounts]. now apply Map_delete_keys_distinct.
Qed.

Lemma field_ok_spec (v : option FieldValue) :
  field_ok v = true <-> exists value, v = Some value /\ has_text (toString value).
Proof.
  destruct v as [[s|l]|]; cbn [field_ok].
  - rewrite andb_true_iff, truthy_trim. split.
    + intros [_ H]. eauto.
    + intros (value & [= <-] & H). split; [|exact H].
      destruct H as (c & Hin & _). now destruct s.
  - rewrite truthy_trim. split; [eauto|]. now intros (value & [= <-] & H).
  - split; [discriminate|]. intros (value & H & _). discriminate.
Qed.

(** The life of an account, in any state the service reaches by
    [configureAccount] and [disconnectAccount] calls.  After
    [configureAccount] of a configuration with [id], [email] and
    [provider] the account is connected, and [sendEmail] from it succeeds
    exactly when [to], [subject] and [body] are set and their text holds
    a character that is no white space; after [disconnectAccount] the
    account is not connected and [sendEmail] answers
    [Account not configured] whatever the email.  Neither call touches
    another account. *)
Theorem account_lifecycle (calls : list Call) (now Date_now random : jsstring)
        (accountConfig : AccountConfig) (accountId : jsstring)
        (emailData : EmailData) :
  id accountConfig = Some accountId -> accountId <> [] ->
  truthy (email accountConfig) = true ->
  truthy (provider accountConfig) = true ->
  let this := fold_left call calls new_Service in
  let configured := snd (configureAccount now accountConfig this) in
  let disconnected := disconnectAccount accountId configured in
  isConnected (getConnectionStatus accountId configured) = true
  /\ ((exists messageId message,
          sendEmail Date_now random accountId emailData configured
          = Sent messageId message) <->
      (exists t s b,
          to emailData = Some t /\ subject emailData = Some s
          /\ body emailData = Some b /\ has_text (toString t)
          /\ has_text (toString s) /\ has_text (toString b)))
  /\ isConnected (getConnectionStatus accountId disconnected) = false
  /\ sendEmail Date_now random accountId emailData disconnected
     = SendFailed (lit "Account not configured")
  /\ forall other, other <> accountId ->
       getConnectionStatus other configured = getConnectionStatus other this
       /\ getConnectionStatus other disconnected
          = getConnectionStatus other this.
Proof.
  intros Hid Hne Hemail Hprovider. cbv zeta.
  pose proof (calls_keys_distinct calls) as Hd.
  set (this := fold_left call calls new_Service) in *.
  assert (Hvalid : validateAccountConfig accountConfig = true).
  { unfold validateAccountConfig. rewrite Hid, Hemail, Hprovider.
    destruct accountId; [contradiction|reflexivity]. }
  unfold configureAccount. rewrite Hvalid, Hid. cbn [negb snd].
  set (account := {| config := accountConfig; status := lit "connected";
                     lastActivity := now; mode := lit "mock" |}).
  unfold getConnectionStatus, sendEmail, disconnectAccount. cbn [accounts].
  rewrite Map_get_set_same.
  rewrite Map_get_delete_same by now apply Map_set_keys_distinct.
  split; [reflexivity|]. split; [|split; [reflexivity|split; [reflexivity|]]].
  - unfold validateEmailData.
    destruct (field_ok (to emailData)) eqn:Et;
      destruct (field_ok (subject emailData)) eqn:Es;
      destruct (field_ok (body emailData)) eqn:Eb; cbn [andb negb];
      try (split; [intros (? & ? & H); discriminate H|];
           intros (t & s & b & Ht & Hs & Hb & H1 & H2 & H3);
           try (assert (field_ok (to emailData) = true)
                  by (apply field_ok_spec; eauto); congruence);
           try (assert (field_ok (subject emailData) = true)
                  by (apply field_ok_spec; eauto); congruence);
           assert (field_ok (body emailData) = true)
             by (apply field_ok_spec; eauto); congruence).
    split; [intros _|eauto].
    apply field_ok_spec in Et as (t & Ht & H1).
    apply field_ok_spec in Es as (s & Hs & H2).
    apply field_ok_spec in Eb as (b & Hb & H3).
    exists t, s, b. auto 10.
  - intros other Hother.
    rewrite Map_get_delete_other by congruence.
    rewrite Map_get_set_other by congruence. split; reflexivity.
Qed.

End Accounts.

(** * The mock of the security service *)

Section MockSecurity.
Import MockSecurityService.

Lemma quote_unit_literal (c : Z) : 255 < c -> quote_unit c = [c].
Proof.
  intros H. unfold quote_unit.
  repeat match goal with
         | |- context [?a =? ?b] =>
             destruct (Z.eqb_spec a b); [lia|]
         end.
  destruct (Z.ltb_spec c 32); [lia|reflexivity].
Qed.

Lemma quote_units_keeps (c : Z) :
  255 < c -> is_lead c = false -> is_trail c = false ->
  forall n s, (length s <= n)%nat -> In c s -> In c (quote_units s).
Proof.
  intros Hc Hl Ht. induction n as [|n IH]; intros s Hlen Hin.
  - destruct s; [contradiction|cbn in Hlen; lia].
  - destruct s as [|x rest]; [contradiction|]. cbn [length] in Hlen.
    cbn [quote_units]. destruct (is_lead x) eqn:Ex.
    + destruct rest as [|d rest'].
      * destruct Hin as [->|[]]. congruence.
      * cbn [length] in Hlen. destruct (is_trail d) eqn:Ed.
        -- destruct Hin as [->|[->|Hin]]; try congruence.
           right. right. apply IH; [lia|assumption].
        -- destruct Hin as [->|Hin]; [congruence|].
           apply in_or_app. right. apply IH; [cbn [length]; lia|assumption].
    + destruct (is_trail x) eqn:Ex'.
      * destruct Hin as [->|Hin]; [congruence|].
        apply in_or_app. right. apply IH; [lia|assumption].
      * apply in_or_app. destruct Hin as [->|Hin].
        -- left. rewrite quote_unit_literal by assumption. now left.
        -- right. apply IH; [lia|assumption].
Qed.

Lemma hex_digit_byte (n : Z) : 0 <= n < 16 -> is_byte (KMService.hex_digit n).
Proof.
  intros H. unfold KMService.hex_digit, is_byte.
  destruct (Z.ltb_spec n 10); lia.
Qed.

Lemma quote_unit_bytes (c : Z) : is_byte c -> Forall is_byte (quote_unit c).
Proof.
  intros H. unfold quote_unit.
  repeat match goal with
         | |- context [if ?a =? ?b then _ else _] =>
             destruct (Z.eqb_spec a b);
             [repeat (apply Forall_cons; [unfold is_byte; lia|]);
              apply Forall_nil|]
         end.
  destruct (Z.ltb_spec c 32).
  - unfold UnicodeEscape, hex4, is_byte in *.
    apply Forall_cons; [lia|]. apply Forall_cons; [lia|].
    repeat (apply Forall_cons;
            [apply hex_digit_byte;
             first [apply Z.mod_pos_bound; lia
                   | split; [apply Z.div_pos; lia
                            |apply Z.div_lt_upper_bound; lia]]|]).
    apply Forall_nil.
  - apply Forall_cons; [exact H|apply Forall_nil].
Qed.

Lemma quote_units_bytes (s : jsstring) :
  Forall is_byte s -> Forall is_byte (quote_units s).
Proof.
  induction 1 as [|c s Hc _ IH]; [constructor|].
  cbn [quote_units]. unfold is_lead, is_trail.
  replace (0xD800 <=? c) with false
    by (symmetry; apply Z.leb_gt; unfold is_byte in Hc; lia).
  replace (0xDC00 <=? c) with false
    by (symmetry; apply Z.leb_gt; unfold is_byte in Hc; lia).
  cbn [andb]. apply Forall_app. split; [now apply quote_unit_bytes|exact IH].
Qed.

Lemma QuoteJSONString_bytes (s : jsstring) :
  Forall is_byte s -> Forall is_byte (QuoteJSONString s).
Proof.
  intros H. unfold QuoteJSONString.
  apply Forall_cons; [unfold is_byte; lia|].
  apply Forall_app. split; [now apply quote_units_bytes|].
  apply Forall_cons; [unfold is_byte; lia|apply Forall_nil].
Qed.

Lemma bytes_check (s : jsstring) :
  forallb (fun c => (0 <=? c) && (c <? 256)) s = true -> Forall is_byte s.
Proof.
  intros H. rewrite forallb_forall in H. apply Forall_forall. intros c Hc.
  specialize (H c Hc). apply andb_true_iff in H as [H1 H2].
  apply Z.leb_le in H1. apply Z.ltb_lt in H2. now split.
Qed.

Lemma stringify_payload_bytes (original timestamp securityLevel : jsstring) :
  Forall is_byte original -> Forall is_byte timestamp ->
  Forall is_byte securityLevel ->
  Forall is_byte (stringify_payload original timestamp securityLevel).
Proof.
  intros H1 H2 H3. unfold stringify_payload.
  repeat (apply Forall_app; split);
    try (now apply QuoteJSONString_bytes);
    apply bytes_check; reflexivity.
Qed.

(** The mock encrypts text of code units up to 255 only.  A text with
    a code unit above 255 that is no surrogate (a Devanagari or Greek
    letter, say) makes [btoa] throw, so that [encryptData] fails; a text
    of code units up to 255 is encrypted, with a time stamp and a level
    of such code units, and [atob] of the result is the JSON text of the
    payload. *)
Theorem mock_encryptData_latin1 (reading : Reading) (data : jsstring)
        (securityLevel : option jsstring) (this : Service) :
  let initialized :=
    {| currentSecurityLevel := currentSecurityLevel this;
       isInitialized := true |} in
  ((exists c, In c data /\ 255 < c /\ is_lead c = false
              /\ is_trail c = false) ->
   encryptData reading data securityLevel this
   = (Throw InvalidCharacterError, initialized))
  /\ (Forall is_byte data -> Forall is_byte (first_timestamp reading) ->
      Forall is_byte (level_used securityLevel this) ->
      exists encrypted,
        encryptData reading data securityLevel this = (Ok encrypted, initialized)
        /\ atob (encryptedData encrypted)
           = Ok (stringify_payload data (first_timestamp reading)
                   (level_used securityLevel this))
        /\ originalSize (metadata encrypted) = Z.of_nat (length data)).
Proof.
  cbv zeta. unfold encryptData. fold (level_used securityLevel this). split.
  - intros (c & Hin & Hc & Hl & Ht).
    assert (Hq : In c (stringify_payload data (first_timestamp reading)
                         (level_used securityLevel this))).
    { unfold stringify_payload, QuoteJSONString.
      do 3 (apply in_or_app; right). apply in_or_app. left.
      right. apply in_or_app. left.
      now apply (quote_units_keeps c Hc Hl Ht (length data)). }
    unfold btoa.
    replace (forallb _ _) with false; [reflexivity|].
    symmetry. apply not_true_is_false. intros H.
    rewrite forallb_forall in H. specialize (H c Hq).
    apply andb_true_iff in H as [_ H]. apply Z.leb_le in H. lia.
  - intros H1 H2 H3.
    pose proof (stringify_payload_bytes _ _ _ H1 H2 H3) as Hb.
    rewrite btoa_bytes by assumption.
    eexists. split; [reflexivity|].
    cbn [encryptedData metadata originalSize].
    split; [now apply atob_b64_encode|reflexivity].
Qed.

End MockSecurity.

(** * Concrete runs *)

Lemma otp_round_trip_witness :
  SecurityService.otp_round_trip
    (SecurityService.single_key_env (lit "k1") eight_bytes) (lit "hello") tt
  = (Ok (SecurityService.decrypted_OTP (lit "hello")), tt).
Proof.
  apply (otp_round_trip_correct
           (SecurityService.single_key_env (lit "k1") eight_bytes)
           (lit "hello") (SecurityService.single_key (lit "k1") eight_bytes)
           [1; 2; 3; 4; 5; 6; 7; 8] tt tt tt).
  - reflexivity.
  - reflexivity.
  - reflexivity.
  - discriminate.
  - discriminate.
  - reflexivity.
  - vm_compute. lia.
  - exists (SecurityService.single_key_response (lit "k1") eight_bytes),
      (SecurityService.single_key (lit "k1") eight_bytes), [].
    repeat split.
Defined.

(** C1 as stated fails in four ways.  With an empty plaintext and an
    empty key, which is the key the mock key manager makes for it, the
    encryption throws; with an empty [key_ID] the decryption throws; a
    leading U+FEFF is lost; an unpaired surrogate comes back as U+FFFD.
    In each case the key is at least as long as the plaintext, and where
    the decryption asks for the key it gets the key of the encryption. *)
Lemma otp_round_trip_counterexample :
  (SecurityService.base64ToBytes [] = Ok []
   /\ (length (TextEncoder_encode []) <= length (@nil Z))%nat
   /\ SecurityService.otp_round_trip
        (SecurityService.single_key_env (lit "k1") []) [] tt
      = (Throw (lit "Failed to obtain quantum key for OTP encryption"), tt)
   /\ fst (SecurityService.otp_round_trip SecurityService.mock_env []
             SecurityService.mock_start)
      = Throw (lit "Failed to obtain quantum key for OTP encryption"))
  /\ (SecurityService.base64ToBytes eight_bytes = Ok [1; 2; 3; 4; 5; 6; 7; 8]
      /\ (length (TextEncoder_encode (lit "hi")) <= 8)%nat
      /\ SecurityService.otp_round_trip
           (SecurityService.single_key_env [] eight_bytes) (lit "hi") tt
         = (Throw (lit "Missing quantum key ID for OTP decryption"), tt))
  /\ ((length (TextEncoder_encode bom_hi) <= 8)%nat
      /\ SecurityService.otp_round_trip
           (SecurityService.single_key_env (lit "k1") eight_bytes)
           bom_hi tt
         = (Ok (SecurityService.decrypted_OTP (lit "hi")), tt))
  /\ ((length (TextEncoder_encode lone_surrogate) <= 8)%nat
      /\ SecurityService.otp_round_trip
           (SecurityService.single_key_env (lit "k1") eight_bytes)
           lone_surrogate tt
         = (Ok (SecurityService.decrypted_OTP [REPLACEMENT]), tt)).
Proof.
  repeat split; try reflexivity; vm_compute; lia.
Qed.

Lemma encryptWithOTP_rejects_short_key_witness :
  exists message,
    SecurityService.encryptWithOTP
      (SecurityService.single_key_env (lit "k1") (lit "AQID"))
      (lit "hello") tt = (Throw message, tt)
    /\ (message = lit "Quantum key too short for OTP encryption"
        \/ message = lit "Failed to obtain quantum key for OTP encryption").
Proof.
  apply (encryptWithOTP_rejects_short_key
           (SecurityService.single_key_env (lit "k1") (lit "AQID"))
           (lit "hello") (SecurityService.single_key (lit "k1") (lit "AQID"))
           [1; 2; 3] tt tt).
  - reflexivity.
  - reflexivity.
  - vm_compute. lia.
Defined.

Lemma decryptFromOTP_short_key_witness :
  exists output,
    SecurityService.decryptFromOTP
      (SecurityService.single_key_env (lit "k1") (lit "AQID"))
      short_key_payload tt
    = (Ok (SecurityService.decrypted_OTP (TextDecoder_decode output)), tt)
    /\ length output = 8%nat
    /\ (forall i, (i < 3)%nat ->
          nth i output 0
          = Z.lxor (nth i [1; 2; 3; 4; 5; 6; 7; 8] 0) (nth i [1; 2; 3] 0))
    /\ (forall i, (3 <= i < 8)%nat ->
          nth i output 0 = nth i [1; 2; 3; 4; 5; 6; 7; 8] 0).
Proof.
  apply (decryptFromOTP_short_key
           (SecurityService.single_key_env (lit "k1") (lit "AQID"))
           short_key_payload (lit "k1") (lit "AQID")
           [1; 2; 3; 4; 5; 6; 7; 8] [1; 2; 3] tt tt).
  - reflexivity.
  - discriminate.
  - exists (SecurityService.single_key_response (lit "k1") (lit "AQID")),
      (SecurityService.single_key (lit "k1") (lit "AQID")), [].
    repeat split.
  - reflexivity.
  - reflexivity.
  - simpl. lia.
Defined.

(** C10 as stated fails on the output.  With the key bytes 1, 2, 3 and
    the four cipher bytes E3 80 AF 41 the bytes after the XOR are
    E2 82 AC 41, and what [decryptFromOTP] returns is their decoding:
    the two code units U+20AC and U+0041, neither four in number nor the
    XOR of the cipher bytes. *)
Lemma decryptFromOTP_output_counterexample :
  SecurityService.base64ToBytes (lit "44CvQQ==") = Ok [227; 128; 175; 65]
  /\ SecurityService.base64ToBytes (lit "AQID") = Ok [1; 2; 3]
  /\ SecurityService.xor_loop [227; 128; 175; 65] [1; 2; 3]
     = [226; 130; 172; 65]
  /\ SecurityService.decryptFromOTP
       (SecurityService.single_key_env (lit "k1") (lit "AQID"))
       euro_payload tt
     = (Ok (SecurityService.decrypted_OTP [8364; 65]), tt)
  /\ length (SecurityService.data (SecurityService.decrypted_OTP [8364; 65]))
     = 2%nat
  /\ length [227; 128; 175; 65] = 4%nat.
Proof.
  repeat split.
Qed.

Lemma decryptFromQuantumAES_accepts_witness :
  SecurityService.decryptFromQuantumAES
    (SecurityService.single_key_env (lit "k1") eight_bytes)
    SecurityService.stub_crypto stub_payload tt
  = (Ok (SecurityService.decrypted_AES (lit "hi")), tt).
Proof.
  apply (decryptFromQuantumAES_accepts
           (SecurityService.single_key_env (lit "k1") eight_bytes)
           SecurityService.stub_crypto stub_payload (lit "k1") eight_bytes
           [1; 2; 3; 4; 5; 6; 7; 8] [] (lit "hi") (lit "hi") tt tt).
  - reflexivity.
  - discriminate.
  - exists (SecurityService.single_key_response (lit "k1") eight_bytes),
      (SecurityService.single_key (lit "k1") eight_bytes), [].
    repeat split.
  - reflexivity.
  - reflexivity.
  - reflexivity.
  - reflexivity.
  - discriminate.
Defined.

Section PoolRuns.
Import KeyManagerServer.

Lemma three_keys_wf : wf_db three_keys.
Proof.
  split.
  - cbn. repeat constructor; cbn; intuition discriminate.
  - repeat constructor.
Qed.

Lemma insufficient_keys_untouched_witness :
  handle OtpKeys (ask 5) fixed_draw three_keys
  = (InsufficientKeys (lit "Not enough OTP keys available") 3 5, three_keys).
Proof.
  apply (insufficient_keys_untouched OtpKeys (ask 5) fixed_draw three_keys).
  vm_compute. reflexivity.
Defined.

Lemma no_key_reuse_witness :
  NoDup (concat (map issued (fst (serve sample_requests three_keys)))).
Proof.
  exact (proj1 (no_key_reuse sample_requests three_keys three_keys_wf)).
Defined.


End PoolRuns.

Section EngineRuns.
Import EncryptionEngine.




Lemma decryptEmail_not_encrypted_witness :
  decryptEmail stub_services sample_email fresh
  = (DecryptSuccess sample_email false None,
     snd (ensure_initialized stub_services fresh)).
Proof.
  exact (proj1 (decryptEmail_not_encrypted stub_services sample_email fresh
                  (or_introl eq_refl))).
Defined.



End EngineRuns.

(** * Further concrete runs *)

Lemma all_distinct_NoDup (l : list jsstring) :
  all_distinct l = true -> NoDup l.
Proof.
  induction l as [|x l IH]; cbn [all_distinct]; intros H; [constructor|].
  apply andb_true_iff in H as [Hx Hl]. constructor; [|now apply IH].
  intros Hin. apply negb_true_iff in Hx.
  assert (E : existsb (str_eqb x) l = true).
  { apply existsb_exists. exists x. split; [exact Hin|].
    now apply str_eqb_eq. }
  congruence.
Qed.

Lemma Forall_check {A} (f : A -> bool) (P : A -> Prop) (l : list A) :
  (forall x, f x = true -> P x) -> forallb f l = true -> Forall P l.
Proof.
  intros HP H. apply Forall_forall. intros x Hin.
  apply HP. rewrite forallb_forall in H. now apply H.
Qed.

Lemma no_Q_check (l : jsstring) :
  forallb (fun c => negb (c =? 81)) l = true -> Forall (fun c => c <> 81) l.
Proof.
  apply Forall_check. intros x H E. subst x. discriminate H.
Qed.

Lemma solid_check (l : jsstring) :
  forallb (fun c => negb (is_js_space c) && negb (c =? 60)) l = true ->
  Forall solid l.
Proof.
  apply Forall_check. intros x H. apply andb_true_iff in H as [H1 H2].
  apply negb_true_iff in H1, H2. split; [exact H1|].
  intros E. subst x. discriminate H2.
Qed.

Lemma has_text_check (s : jsstring) :
  existsb (fun c => negb (is_js_space c)) s = true -> has_text s.
Proof.
  intros H. apply existsb_exists in H as (c & Hin & Hc).
  exists c. split; [exact Hin|]. now apply negb_true_iff in Hc.
Qed.

Section FurtherPoolRuns.
Import KeyManagerServer.

Lemma initializeKeys_capacity_witness :
  length (initializeKeys numbered_draw) = 30%nat
  /\ status_availableKeys (get_status fixed_draw (initializeKeys numbered_draw))
     = 30
  /\ availableKeys (lit "encryption") 128 (initializeKeys numbered_draw)
     = seq 0 10
  /\ availableKeys (lit "otp") 128 (initializeKeys numbered_draw)
     = seq 10 20.
Proof.
  apply (initializeKeys_capacity numbered_draw fixed_draw 128).
  apply all_distinct_NoDup. vm_compute. reflexivity.
Defined.

End FurtherPoolRuns.

Section MockRuns.
Import KMService.

Lemma validateKey_by_origin_witness :
  validateKey (fun _ => Some 0) 1000
    (Some (mock_key_object
             (fst (generateMockKey None 256 SecurityService.mock_start))
             (lit "2025-01-01T00:00:00.000Z")))
  = true
  /\ forall k : KeyManagerServer.KeyOut,
       validateKey (fun _ => Some 0) 1000 (Some (server_key_object k)) = false.
Proof.
  apply (validateKey_by_origin None 256 SecurityService.mock_start
           (fun _ => Some 0) (lit "2025-01-01T00:00:00.000Z") 0 1000).
  - discriminate.
  - reflexivity.
  - discriminate.
Defined.

Lemma mock_encryptWithOTP_succeeds_witness :
  exists encrypted w' cipherBytes,
    SecurityService.encryptWithOTP SecurityService.mock_env (lit "hi")
      SecurityService.mock_start
    = (Ok encrypted, w')
    /\ SecurityService.quantumKeyId encrypted
       = Some (lit "QK_1735689600000_abcdefgh")
    /\ SecurityService.securityLevel encrypted
       = Some SecurityService.QUANTUM_SECURE
    /\ SecurityService.base64ToBytes (SecurityService.encryptedData encrypted)
       = Ok cipherBytes
    /\ length cipherBytes = 2%nat.
Proof.
  apply (mock_encryptWithOTP_succeeds (lit "hi") SecurityService.mock_start).
  discriminate.
Defined.

End MockRuns.

Section LevelRuns.
Import SecurityService.

Lemma encrypted_level_decides_witness :
  exists s,
    encryptData one_key_env stub_cipher new_Service (lit "hi") no_options tt
    = (Ok s, tt)
    /\ In QUANTUM_SECURE SECURITY_LEVELS
    /\ securityLevel (common s) = Some QUANTUM_SECURE
    /\ forall other_level pqc rsa,
         decryptData one_key_env stub_cipher s
           {| opt_securityLevel := other_level; pqcPrivateKey := pqc;
              rsaPrivateKey := rsa |}
         = decryptData one_key_env stub_cipher s
             {| opt_securityLevel := None; pqcPrivateKey := pqc;
                rsaPrivateKey := rsa |}.
Proof.
  eexists. split; [reflexivity|].
  apply (encrypted_level_decides one_key_env stub_cipher new_Service
           (lit "hi") no_options tt tt).
  reflexivity.
Defined.

Lemma no_empty_text_above_level_1_witness :
  decryptData one_key_env stub_cipher (sealed_OTP stub_payload) no_options tt
  = (Ok (decrypted_AES (lit "hi")), tt)
  /\ data (decrypted_AES (lit "hi")) <> [].
Proof.
  split; [reflexivity|].
  apply (no_empty_text_above_level_1 one_key_env stub_cipher
           (sealed_OTP stub_payload) no_options tt tt).
  - reflexivity.
  - discriminate.
Defined.

Lemma unsupported_level_refused_witness :
  setSecurityLevel (Some (lit "top_secret")) new_Service
  = Throw (lit "Invalid security level: top_secret")
  /\ encryptData one_key_env stub_cipher new_Service (lit "hi")
       {| opt_securityLevel := Some (lit "top_secret"); pqcPrivateKey := None;
          rsaPrivateKey := None |} tt
     = (Throw (lit "Unsupported security level: top_secret"), tt).
Proof.
  apply (unsupported_level_refused one_key_env stub_cipher new_Service
           (lit "hi") (lit "top_secret") None None tt).
  - discriminate.
  - intros [G|[G|[G|[G|[]]]]]; discriminate G.
Defined.

End LevelRuns.

Section FurtherEngineRuns.
Import EncryptionEngine QuMail.

Lemma decryptBody_extracts_witness :
  decryptBody_try stub_services (formatEncryptedBody (stub_part "Hi"))
    (Some (part_meta (stub_part "Hi")))
  = (decrypted <-
       decryptData stub_services
         {| req_encryptedData := StringData (lit "enc:Hi");
            req_securityLevel := Some SecurityService.NO_QUANTUM;
            req_quantumKeyId := None;
            req_algorithm := Some (lit "stub") |} ;;
     ret (SecurityService.data decrypted)).
Proof.
  apply (decryptBody_extracts stub_services (stub_part "Hi")
           (part_meta (stub_part "Hi"))).
  - apply solid_check. reflexivity.
  - apply no_Q_check. reflexivity.
  - apply no_Q_check. reflexivity.
  - apply no_Q_check. reflexivity.
Defined.

Lemma subject_lost_at_level_1_witness :
  exists ww',
    decryptSubject (services one_key_platform)
      (formatEncryptedSubject
         {| part_data := lit "ISs="; part_meta := level_1_metadata |})
      (Some level_1_metadata) start
    = (Ok decryption_failed_subject, ww').
Proof.
  apply (subject_lost_at_level_1 one_key_platform
           {| part_data := lit "ISs="; part_meta := level_1_metadata |}
           level_1_metadata start).
  reflexivity.
Defined.

Lemma body_round_trip_level_1_witness :
  exists part ww1,
    encryptBody (services one_key_platform) (lit "hi")
      SecurityService.QUANTUM_SECURE start
    = (Ok part, ww1)
    /\ decryptBody (services one_key_platform) (formatEncryptedBody part)
         (Some (part_meta part)) ww1
       = (Ok (lit "hi"), start).
Proof.
  apply (body_round_trip_level_1 one_key_platform (lit "hi")
           (SecurityService.single_key (lit "k1") eight_bytes)
           [1; 2; 3; 4; 5; 6; 7; 8] start tt tt).
  - reflexivity.
  - reflexivity.
  - reflexivity.
  - discriminate.
  - discriminate.
  - reflexivity.
  - vm_compute. lia.
  - apply no_Q_check. reflexivity.
  - exists (SecurityService.single_key_response (lit "k1") eight_bytes),
      (SecurityService.single_key (lit "k1") eight_bytes), [].
    repeat split.
Defined.

Lemma buffer_attachment_round_trip_level_1_witness :
  exists sealed ww1,
    encrypt_one (services one_key_platform) SecurityService.QUANTUM_SECURE
      binary_ok start
    = (Ok sealed, ww1)
    /\ encrypted sealed = Some true
    /\ decrypt_one (services one_key_platform) sealed (metadata sealed) ww1
       = (Ok {| filename := lit "c.bin";
                data := BufferData [1; 2; 3];
                size := Some 3;
                contentType := Some (lit "application/pdf");
                encrypted := Some false;
                metadata := metadata sealed;
                encryptionError := None;
                decryptionError := None |},
          start).
Proof.
  apply (buffer_attachment_round_trip_level_1 one_key_platform binary_ok
           [1; 2; 3] (SecurityService.single_key (lit "k1") eight_bytes)
           [1; 2; 3; 4; 5; 6; 7; 8] start tt tt).
  - reflexivity.
  - apply bytes_check. reflexivity.
  - reflexivity.
  - discriminate.
  - discriminate.
  - reflexivity.
  - vm_compute. lia.
  - exists (SecurityService.single_key_response (lit "k1") eight_bytes),
      (SecurityService.single_key (lit "k1") eight_bytes), [].
    repeat split.
Defined.

Lemma encryptEmail_headers_witness :
  exists encryptedEmail st',
    encryptEmail stub_services headed_email None fresh
    = (EncryptSuccess encryptedEmail (lit "enc_1_abcdefghi")
         SecurityService.NO_QUANTUM, st')
    /\ obj_get (headers encryptedEmail) (lit "X-QuMail-Encrypted")
       = Some (lit "true")
    /\ obj_get (headers encryptedEmail) (lit "X-QuMail-Security-Level")
       = Some SecurityService.NO_QUANTUM
    /\ obj_get (headers encryptedEmail) (lit "X-QuMail-Encryption-Id")
       = Some (lit "enc_1_abcdefghi")
    /\ obj_get (headers encryptedEmail) (lit "X-QuMail-Version")
       = Some (lit "1.0")
    /\ obj_get (headers encryptedEmail) (lit "X-Mailer")
       = Some (lit "QuMail").
Proof.
  do 2 eexists. split; [reflexivity|].
  destruct (encryptEmail_headers stub_services headed_email None fresh _ _ _ _
              eq_refl) as (H1 & H2 & H3 & H4 & H5 & _).
  split; [exact H1|]. split; [exact H2|]. split; [exact H3|].
  split; [exact H4|].
  rewrite H5; [reflexivity|].
  intros [G|[G|[G|[G|[]]]]]; discriminate G.
Defined.

Lemma email_subject_lost_at_level_1_witness :
  exists encryptedEmail st',
    encryptEmail (services one_key_platform) short_email
      (Some SecurityService.QUANTUM_SECURE) level_1_start
    = (EncryptSuccess encryptedEmail (lit "enc_1_abcdefghi")
         SecurityService.QUANTUM_SECURE, st')
    /\ exists decryptedEmail st3,
         decryptEmail (services one_key_platform) encryptedEmail st'
         = (DecryptSuccess decryptedEmail true
              (Some SecurityService.QUANTUM_SECURE), st3)
         /\ subject decryptedEmail = decryption_failed_subject.
Proof.
  do 2 eexists. split; [reflexivity|].
  eapply (email_subject_lost_at_level_1 one_key_platform short_email _
            level_1_start).
  reflexivity.
Defined.

End FurtherEngineRuns.

Section AccountRuns.
Import EmailService.

Lemma account_lifecycle_witness :
  let this := fold_left call [Disconnect (lit "acc1")] new_Service in
  let configured :=
    snd (configureAccount (lit "2025-01-01T00:00:00.000Z") alice this) in
  let disconnected := disconnectAccount (lit "acc1") configured in
  isConnected (getConnectionStatus (lit "acc1") configured) = true
  /\ (exists messageId message,
         sendEmail (lit "1735689600000") (lit "abcdefghi") (lit "acc1")
           greeting configured
         = Sent messageId message)
  /\ isConnected (getConnectionStatus (lit "acc1") disconnected) = false
  /\ sendEmail (lit "1735689600000") (lit "abcdefghi") (lit "acc1") greeting
       disconnected
     = SendFailed (lit "Account not configured").
Proof.
  destruct (account_lifecycle [Disconnect (lit "acc1")]
              (lit "2025-01-01T00:00:00.000Z") (lit "1735689600000")
              (lit "abcdefghi") alice (lit "acc1") greeting)
    as (H1 & H2 & H3 & H4 & _).
  - reflexivity.
  - discriminate.
  - reflexivity.
  - reflexivity.
  - cbv zeta. split; [exact H1|]. split; [|split; [exact H3|exact H4]].
    apply H2. exists (TextArray [lit "bob@example.com"]), (Text (lit "Hi")),
      (Text (lit "Body text")).
    split; [reflexivity|]. split; [reflexivity|]. split; [reflexivity|].
    split; [|split]; apply has_text_check; reflexivity.
Defined.

End AccountRuns.

Section MockSecurityRuns.
Import MockSecurityService.

Lemma mock_encryptData_latin1_witness :
  encryptData sample_reading capital_omega None new_Service
  = (Throw InvalidCharacterError,
     {| currentSecurityLevel := currentSecurityLevel new_Service;
        isInitialized := true |})
  /\ exists encrypted,
       encryptData sample_reading (lit "hi") None new_Service
       = (Ok encrypted,
          {| currentSecurityLevel := currentSecurityLevel new_Service;
             isInitialized := true |})
       /\ atob (encryptedData encrypted)
          = Ok (stringify_payload (lit "hi") (lit "2025-01-01T00:00:00.000Z")
                  (level_used None new_Service))
       /\ originalSize (metadata encrypted) = 2.
Proof.
  split.
  - apply (proj1 (mock_encryptData_latin1 sample_reading capital_omega None
                    new_Service)).
    exists 937. split; [now left|]. split; [lia|]. split; reflexivity.
  - apply (proj2 (mock_encryptData_latin1 sample_reading (lit "hi") None
                    new_Service)); apply bytes_check; reflexivity.
Defined.

End MockSecurityRuns.
